(** * The file buffer cache of lib/res/file/file_cache.cpp

    A shallow embedding of the four components of file_cache.cpp and of the
    functions that tie them together:

    - [BlockMgr]: the ring of 32 block slots;
    - [CacheAllocator]: the segregated-freelist allocator with boundary tags;
    - [ExtantBufMgr]: the reference-counted list of buffers held by callers;
    - [FileCache]: file_buf_alloc, file_buf_free and the cache entry points.

    Conventions.  Pointers are addresses in [Z]; a function that returns a
    null pointer on failure returns [None] here.  [debug_warn] and a failing
    [debug_assert] do not stop the program: every operation that can emit
    them returns the list of messages next to its result.

    Widths.  [uint] and [u32] values wrap at 32 bits ([u32]).  The width of
    a pointer and of [size_t] is left to the build ([PtrWidth]); the
    registry of extant buffers and the links of the freelists are modelled
    with it.  The cache allocator computes sizes and addresses in [Z]: it is
    the code wherever the rounded size and the end of the range are
    representable, and the statements about single calls say so. *)

From stdpp Require Import base numbers list strings gmap.
From Stdlib Require Import ZArith Lia Sorted.

Local Open Scope Z_scope.

(** 32-bit unsigned wrap-around ([uint], [u32]). *)
Definition u32 (x : Z) : Z := x mod 2 ^ 32.

(** The width of a pointer and of [size_t], in bytes: a parameter of the
    build, 4 or 8. *)
Class PtrWidth := {
  ptr_bytes : Z;
  ptr_bytes_4_8 : ptr_bytes = 4 \/ ptr_bytes = 8
}.

Definition ptr_bits `{PtrWidth} : Z := 8 * ptr_bytes.

(** Wrap-around of pointer and [size_t] arithmetic. *)
Definition uptr `{PtrWidth} (x : Z) : Z := x mod 2 ^ ptr_bits.

(** What [memset(.., 0xEE, ..)] leaves in a pointer-sized field: the byte
    0xEE in each of its [ptr_bytes] bytes. *)
Definition wiped_ptr `{PtrWidth} : Z := (2 ^ ptr_bits - 1) / 255 * 238.

(** The two builds. *)
Definition ilp32 : PtrWidth := {| ptr_bytes := 4; ptr_bytes_4_8 := or_introl eq_refl |}.
Definition lp64 : PtrWidth := {| ptr_bytes := 8; ptr_bytes_4_8 := or_intror eq_refl |}.

(* ===================================================================== *)
(** * Block manager *)
(* ===================================================================== *)

Module BlockMgr.

Definition MAX_BLOCKS : nat := 32.

Inductive BlockStatus := BS_PENDING | BS_COMPLETE | BS_INVALID.

#[global] Instance BlockStatus_eq_dec : EqDecision BlockStatus.
Proof. solve_decision. Defined.

(** [atom_fn] is the interned file name, compared by address. *)
Record BlockId := mkBlockId { atom_fn : Z; block_num : Z }.

Definition block_eq (b1 b2 : BlockId) : bool :=
  (atom_fn b1 =? atom_fn b2) && (block_num b1 =? block_num b2).

(** [(u32)(ofs / FILE_BLOCK_SIZE)]; the constant FILE_BLOCK_SIZE is declared
    in file_internal.h and is taken as an argument. *)
Definition block_cache_make_id (FILE_BLOCK_SIZE : Z) (fn : Z) (ofs : Z) : BlockId :=
  mkBlockId fn (u32 (Z.quot ofs FILE_BLOCK_SIZE)).

Record Block := mkBlock {
  id : BlockId;
  mem : Z;
  status : BlockStatus;
  refs : Z
}.

#[global] Instance Block_inhabited : Inhabited Block :=
  populate (mkBlock (mkBlockId 0 0) 0 BS_INVALID 0).

Record t := mkBlockMgr {
  blocks : list Block;
  oldest_block : nat
}.

(** Constructor: every slot is [Block()] with its memory taken from the pool,
    one FILE_BLOCK_SIZE apart. *)
Definition init (pool_base FILE_BLOCK_SIZE : Z) : t :=
  mkBlockMgr
    ((fun i : nat =>
        mkBlock (block_cache_make_id FILE_BLOCK_SIZE 0 0)
                (pool_base + Z.of_nat i * FILE_BLOCK_SIZE) BS_INVALID 0)
       <$> seq 0 MAX_BLOCKS)
    0.

(** [b->status != BS_PENDING && b->refs == 0] *)
Definition reusable (b : Block) : bool :=
  negb (bool_decide (status b = BS_PENDING)) && (refs b =? 0).

(** [b->status == BS_COMPLETE && b->refs > 0] *)
Definition locked (b : Block) : bool :=
  bool_decide (status b = BS_COMPLETE) && (0 <? refs b).

(** First loop of [alloc]: one warning per slot that already carries [i]. *)
Definition already_in_list (bl : list Block) (i : BlockId) : list string :=
  flat_map (fun b => if block_eq (id b) i
                     then ["allocating block that is already in list"%string]
                     else []) bl.

(** Second loop of [alloc], [n] iterations left.  Returns the index of the
    slot taken (if any), the cursor and the warnings. *)
Fixpoint alloc_scan (n : nat) (bl : list Block) (oldest : nat)
  : option nat * nat * list string :=
  match n with
  | O => (None, oldest, [])
  | S n' =>
      let b := bl !!! oldest in
      let oldest' := ((oldest + 1) mod MAX_BLOCKS)%nat in
      if reusable b then (Some oldest, oldest', [])
      else
        let w := if locked b then []
                 else ["status and/or refs have unexpected values"%string] in
        let '(r, o, ws) := alloc_scan n' bl oldest' in
        (r, o, w ++ ws)
  end.

Definition alloc (bm : t) (i : BlockId) : option Z * t * list string :=
  let w0 := already_in_list (blocks bm) i in
  match alloc_scan MAX_BLOCKS (blocks bm) (oldest_block bm) with
  | (Some j, o, ws) =>
      let b := blocks bm !!! j in
      (Some (mem b),
       mkBlockMgr (<[j := mkBlock i (mem b) BS_PENDING (refs b)]> (blocks bm)) o,
       w0 ++ ws)
  | (None, o, ws) =>
      (None, mkBlockMgr (blocks bm) o,
       w0 ++ ws ++ ["all blocks are locked"%string])
  end.

(** Index of the first slot whose id is [i] (the linear searches of
    [mark_completed], [find] and [release]). *)
Definition find_id (bl : list Block) (i : BlockId) : option nat :=
  fst <$> list_find (fun b => block_eq (id b) i) bl.

Definition mark_completed (bm : t) (i : BlockId) : t * list string :=
  match find_id (blocks bm) i with
  | Some j =>
      let b := blocks bm !!! j in
      (mkBlockMgr (<[j := mkBlock (id b) (mem b) BS_COMPLETE (refs b)]> (blocks bm))
                  (oldest_block bm),
       if bool_decide (status b = BS_PENDING) then []
       else ["debug_assert: b->status == BS_PENDING"%string])
  | None =>
      (bm, ["mark_completed: block not found, but ought still to be in cache"%string])
  end.

Definition find (bm : t) (i : BlockId) : option Z * t * list string :=
  match find_id (blocks bm) i with
  | Some j =>
      let b := blocks bm !!! j in
      if bool_decide (status b = BS_COMPLETE) then
        (Some (mem b),
         mkBlockMgr (<[j := mkBlock (id b) (mem b) (status b) (refs b + 1)]> (blocks bm))
                    (oldest_block bm),
         if 0 <=? refs b then [] else ["debug_assert: b->refs >= 0"%string])
      else (None, bm, ["block referenced while still in progress"%string])
  | None => (None, bm, [])
  end.

Definition release (bm : t) (i : BlockId) : t * list string :=
  match find_id (blocks bm) i with
  | Some j =>
      let b := blocks bm !!! j in
      (mkBlockMgr (<[j := mkBlock (id b) (mem b) (status b) (refs b - 1)]> (blocks bm))
                  (oldest_block bm),
       if 0 <=? refs b - 1 then [] else ["debug_assert: b->refs >= 0"%string])
  | None =>
      (bm, ["release: block not found, but ought still to be in cache"%string])
  end.

Definition invalidate (bm : t) (fn : Z) : t * list string :=
  (mkBlockMgr
     ((fun b => if atom_fn (id b) =? fn
                then mkBlock (id b) (mem b) BS_INVALID (refs b) else b)
        <$> blocks bm)
     (oldest_block bm),
   flat_map (fun b => if (atom_fn (id b) =? fn) && negb (refs b =? 0)
                      then ["invalidating block that is currently in-use"%string]
                      else []) (blocks bm)).

(** ** Sequences of operations *)

Inductive op :=
| OAlloc (i : BlockId)
| OMarkCompleted (i : BlockId)
| OFind (i : BlockId)
| ORelease (i : BlockId)
| OInvalidate (fn : Z).

Definition step (bm : t) (o : op) : t :=
  match o with
  | OAlloc i => (alloc bm i).1.2
  | OMarkCompleted i => (mark_completed bm i).1
  | OFind i => (find bm i).1.2
  | ORelease i => (release bm i).1
  | OInvalidate fn => (invalidate bm fn).1
  end.

Definition run (bm : t) (ops : list op) : t := foldl step bm ops.

(** The [k]-th slot that the scan of [alloc] looks at. *)
Definition slot (bm : t) (k : nat) : nat := ((oldest_block bm + k) mod MAX_BLOCKS)%nat.

(** The ring is well formed: 32 slots and a cursor inside it. *)
Definition wf (bm : t) : Prop :=
  length (blocks bm) = MAX_BLOCKS /\ (oldest_block bm < MAX_BLOCKS)%nat.

(** No two slots that are Pending or Complete carry the same id. *)
Definition unique_ids (bm : t) : Prop :=
  forall (i j : nat) (bi bj : Block),
    i <> j ->
    blocks bm !! i = Some bi -> blocks bm !! j = Some bj ->
    status bi <> BS_INVALID -> status bj <> BS_INVALID ->
    block_eq (id bi) (id bj) = false.

(** No slot, whatever its status, carries [i]: the first loop of [alloc]
    stays silent. *)
Definition fresh_id (bm : t) (i : BlockId) : Prop :=
  forall b, b ∈ blocks bm -> block_eq (id b) i = false.

(** Every [alloc] of the sequence is for an id that no slot carries at
    that moment. *)
Fixpoint allocs_fresh (bm : t) (ops : list op) : Prop :=
  match ops with
  | [] => True
  | o :: r =>
      match o with OAlloc i => fresh_id bm i | _ => True end
      /\ allocs_fresh (step bm o) r
  end.

(** Among the slots that carry one id, all but the first are Invalid. *)
Definition later_copies_invalid (bl : list Block) : Prop :=
  forall (i j : nat) (bi bj : Block),
    (i < j)%nat ->
    bl !! i = Some bi -> bl !! j = Some bj ->
    block_eq (id bi) (id bj) = true ->
    status bj = BS_INVALID.

End BlockMgr.

(* ===================================================================== *)
(** * Cache allocator *)
(* ===================================================================== *)

Module CacheAllocator.

(** Modelled from the spec: the constants KiB and MiB of lib/lib.h are not
    in src/; the spec gives the quantum as 4 KiB and the arena as 64 MiB. *)
Definition KiB : Z := 1024.
Definition MiB : Z := 1024 * 1024.

Definition BUF_ALIGN : Z := 4 * KiB.
Definition MAX_CACHE_SIZE : Z := 64 * MiB.

(** Modelled from the spec: round_up of lib/lib.h is not in src/; sizes are
    rounded up to the next multiple of the quantum. *)
Definition round_up (n multiple : Z) : Z := (n + multiple - 1) / multiple * multiple.

(** Modelled from the spec: log2 of lib/lib.h is not in src/; the size class
    is the floor of the base-2 logarithm. *)
Definition log2 (x : Z) : Z := Z.log2 x.

(** Modelled from the spec: the macro BIT of lib/lib.h is not in src/. *)
Definition BIT (n : Z) : Z := Z.shiftl 1 n.

(** Modelled from the spec: the macro FOURCC of lib/byte_order.h is not in
    src/; four characters packed into 32 bits, the first one lowest. *)
Definition FOURCC (a b c d : Z) : Z := a + b * 2 ^ 8 + c * 2 ^ 16 + d * 2 ^ 24.

(** ** The arena

    Modelled from the spec: Pool and pool_alloc / pool_contains of
    lib/allocators.h are not in src/.  The arena is the fixed range
    [da_base, da_base + da_max_size); [da_pos] is the bump cursor, which is
    also where the committed part ends. *)
Record Pool := mkPool { da_base : Z; da_max_size : Z; da_pos : Z }.

Definition da_cur_size (pl : Pool) : Z := da_pos pl.

Definition pool_alloc (pl : Pool) (size : Z) : option (Z * Pool) :=
  if da_pos pl + size <=? da_max_size pl
  then Some (da_base pl + da_pos pl,
             mkPool (da_base pl) (da_max_size pl) (da_pos pl + size))
  else None.

Definition pool_contains (pl : Pool) (p : Z) : bool :=
  (da_base pl <=? p) && (p <? da_base pl + da_max_size pl).

Definition pool_free_all (pl : Pool) : Pool :=
  mkPool (da_base pl) (da_max_size pl) 0.

(** ** Boundary tags

    The [prev] and [next] links of a Header are carried by the per-class
    lists below; the remaining fields are kept as they are in memory. *)
Definition HEADER_ID : Z := FOURCC 67 77 65 72.   (* 'C','M','A','H' *)
Definition FOOTER_ID : Z := FOURCC 67 77 65 70.   (* 'C','M','A','F' *)
Definition MAGIC : Z := FOURCC 255 85 170 1.      (* FF 55 AA 01 *)

Record Header := mkHeader { h_size_pa : Z; h_id : Z; h_magic : Z }.
Record Footer := mkFooter { f_magic : Z; f_id : Z; f_size_pa : Z }.

(** What [memset(.., 0xEE, ..)] leaves in a tag: the pattern of the [u32]
    fields id and magic, by which a wiped tag is invalid.  The size field
    is shown with the same pattern (it is a [size_t]: with 8-byte pointers
    it holds the longer [wiped_ptr]); on the states that [alloc] and [free]
    lead to, the size of a tag is read only where its id and magic are
    valid. *)
Definition WIPED : Z := 4008636142.               (* 0xEEEEEEEE *)
Definition wiped_header : Header := mkHeader WIPED WIPED WIPED.
Definition wiped_footer : Footer := mkFooter WIPED WIPED WIPED.

(** [TEST] only reports; the result depends on id and magic alone. *)
Definition is_valid_tag (expected_id id magic size_pa : Z) : bool :=
  negb ((negb (id =? expected_id)) || negb (magic =? MAGIC)).

(** ** Allocator state

    [freelists c] is the sequence of header addresses met when following
    [next] from the sentinel [freelists[c]].  [headers] maps an address to
    the Header stored there; [footers] maps the address just past a Footer
    (the end of its region) to that Footer.  Memory that the allocator never
    wrote reads as zero; what callers write into their buffers is taken not
    to carry the magic values (see the note at is_valid_tag in the source).
    The [TEST] checks in the allocator report and change nothing; they are
    left out. *)
Record t := mkAlloc {
  pool : Pool;
  bitmap : Z;
  freelists : Z -> list Z;
  headers : gmap Z Header;
  footers : gmap Z Footer
}.

Definition init (base : Z) : t :=
  mkAlloc (mkPool base MAX_CACHE_SIZE 0) 0 (fun _ => []) ∅ ∅.

Definition read_header (st : t) (a : Z) : Header :=
  default (mkHeader 0 0 0) (headers st !! a).

Definition read_footer (st : t) (e : Z) : Footer :=
  default (mkFooter 0 0 0) (footers st !! e).

Definition size_class_of (size_pa : Z) : Z := log2 (u32 size_pa).

(** The walk of [freelist_add]:
    [while(prev->next && header <= prev->next) prev = prev->next;]
    followed by the insertion after [prev]. *)
Fixpoint insert_after_walk (header : Z) (l : list Z) : list Z :=
  match l with
  | [] => [header]
  | next :: rest =>
      if header <=? next then next :: insert_after_walk header rest
      else header :: next :: rest
  end.

Definition freelist_add (st : t) (p size_pa : Z) : t :=
  let size_class := size_class_of size_pa in
  mkAlloc (pool st)
          (Z.lor (bitmap st) (BIT size_class))
          (fun c => if c =? size_class
                    then insert_after_walk p (freelists st size_class)
                    else freelists st c)
          (<[p := mkHeader size_pa HEADER_ID MAGIC]> (headers st))
          (<[p + size_pa := mkFooter MAGIC FOOTER_ID size_pa]> (footers st)).

(** [header->prev->next = header->next; header->next->prev = header->prev]:
    the node leaves the list it is linked in (see [FreelistLinks] below for
    the pointers themselves). *)
Fixpoint unlink (header : Z) (l : list Z) : list Z :=
  match l with
  | [] => []
  | a :: rest => if a =? header then rest else a :: unlink header rest
  end.

Definition freelist_remove (st : t) (header : Z) : t :=
  let size_pa := h_size_pa (read_header st header) in
  let size_class := size_class_of size_pa in
  let fl := fun c => unlink header (freelists st c) in
  mkAlloc (pool st)
          (match fl size_class with
           | [] => Z.land (bitmap st) (Z.lnot (BIT size_class))
           | _ => bitmap st
           end)
          fl
          (<[header := wiped_header]> (headers st))
          (<[header + size_pa := wiped_footer]> (footers st)).

(** First entry of the list that is large enough. *)
Definition first_fit (st : t) (size_pa : Z) (l : list Z) : option Z :=
  List.find (fun cur => size_pa <=? h_size_pa (read_header st cur)) l.

Definition alloc_from_class (st : t) (size_class size_pa : Z) : option (Z * t) :=
  match first_fit st size_pa (freelists st size_class) with
  | Some cur =>
      let p := cur in
      let remnant_pa := h_size_pa (read_header st cur) - size_pa in
      let st1 := freelist_remove st cur in
      let st2 := if remnant_pa =? 0 then st1
                 else freelist_add st1 (p + size_pa) remnant_pa in
      Some (p, st2)
  | None => None
  end.

(** [#define LS1(x) (x & -(int)x)] on a [uint]. *)
Definition LS1 (x : Z) : Z := Z.land x (u32 (- x)).

(** The [while(classes_left)] loop; a [uint] has 32 bits, and every pass
    clears one of them. *)
Fixpoint larger_class_loop (fuel : nat) (st : t) (classes_left size_pa : Z)
  : option (Z * t) :=
  match fuel with
  | O => None
  | S fuel' =>
      if classes_left =? 0 then None
      else
        let class_size := LS1 classes_left in
        let classes_left' := Z.land classes_left (u32 (Z.lnot class_size)) in
        let size_class := size_class_of class_size in
        match alloc_from_class st size_class size_pa with
        | Some r => Some r
        | None => larger_class_loop fuel' st classes_left' size_pa
        end
  end.

Definition alloc_from_larger_class (st : t) (start_size_class size_pa : Z)
  : option (Z * t) :=
  let classes_left := u32 (bitmap st) in
  let classes_left := Z.land classes_left (u32 (Z.shiftl (-1) start_size_class)) in
  larger_class_loop 32 st classes_left size_pa.

Definition with_pool (st : t) (pl : Pool) : t :=
  mkAlloc pl (bitmap st) (freelists st) (headers st) (footers st).

(** [round_up] is computed in [Z]: this is the code for every [size] whose
    rounding does not wrap at the width of [size_t]. *)
Definition alloc (st : t) (size : Z) : option (Z * t) :=
  let size := if size =? 0 then 1 else size in
  let size_pa := round_up size BUF_ALIGN in
  let size_class := size_class_of size_pa in
  match alloc_from_class st size_class size_pa with
  | Some r => Some r
  | None =>
      match pool_alloc (pool st) size_pa with
      | Some (p, pl) => Some (p, with_pool st pl)
      | None => alloc_from_larger_class st size_class size_pa
      end
  end.

(** First half of [coalesce_and_free]: take in the previous region when a
    valid footer ends just before [p]. *)
Definition expand_prev (st : t) (p size_pa : Z) : t * Z * Z :=
  if negb (p =? da_base (pool st)) then
    let footer := read_footer st p in
    if is_valid_tag FOOTER_ID (f_id footer) (f_magic footer) (f_size_pa footer)
    then (freelist_remove st (p - f_size_pa footer),
          p - f_size_pa footer, size_pa + f_size_pa footer)
    else (st, p, size_pa)
  else (st, p, size_pa).

(** Second half: take in the following region when a valid header starts
    at its end, inside the committed part. *)
Definition expand_next (st : t) (p size_pa : Z) : t * Z :=
  let header := p + size_pa in
  if header <? da_base (pool st) + da_cur_size (pool st) then
    let h := read_header st header in
    if is_valid_tag HEADER_ID (h_id h) (h_magic h) (h_size_pa h)
    then (freelist_remove st header, size_pa + h_size_pa h)
    else (st, size_pa)
  else (st, size_pa).

Definition coalesce_and_free (st : t) (p size_pa : Z) : t :=
  let '(st1, p1, size1) := expand_prev st p size_pa in
  let '(st2, size2) := expand_next st1 p1 size1 in
  freelist_add st2 p1 size2.

(** [round_up] and [p+size_pa-1] are computed in [Z]: this is the code for
    every [p] and [size] for which neither wraps at the width of a
    pointer. *)
Definition free (st : t) (p size : Z) : t * list string :=
  let size_pa := round_up size BUF_ALIGN in
  if negb (pool_contains (pool st) p) || negb (pool_contains (pool st) (p + size_pa - 1))
  then (st, ["invalid pointer"%string])
  else (coalesce_and_free st p size_pa, []).

(** [pool_free_all], [bitmap = 0] and the [memset] of the sentinels; the
    arena memory is not cleared. *)
Definition reset (st : t) : t :=
  mkAlloc (pool_free_all (pool st)) 0 (fun _ => []) (headers st) (footers st).

(** ** The scan of the bitmap as a walk over classes

    [alloc_from_class] in the first class of the list where it succeeds:
    what the loop of [alloc_from_larger_class] amounts to on the list of the
    classes whose bit it finds set (see [larger_class_loop_spec]). *)
Fixpoint first_success (st : t) (size_pa : Z) (classes : list Z) : option (Z * t) :=
  match classes with
  | [] => None
  | c :: rest =>
      match alloc_from_class st c size_pa with
      | Some r => Some r
      | None => first_success st size_pa rest
      end
  end.

(** The bits of the bitmap that [alloc_from_larger_class] keeps when it
    starts at class [k]. *)
Definition bits_from (bm k : Z) : Z :=
  Z.land (u32 bm) (u32 (Z.shiftl (-1) k)).

(** ** Sequences of [alloc] and [free]

    A region is a start address with its rounded size.  [reachable base st live]
    says that [st] is the allocator of an arena at [base] after some calls of
    [alloc] and [free], where every [free] gives back, with its size, a region
    that [alloc] returned and that has not been freed since; [live] lists the
    regions that are still out. *)
Definition region : Type := Z * Z.

Definition size_pa_of (size : Z) : Z :=
  round_up (if size =? 0 then 1 else size) BUF_ALIGN.

Inductive reachable (base : Z) : t -> list region -> Prop :=
| reach_init : reachable base (init base) []
| reach_alloc (st : t) (live : list region) (size p : Z) (st' : t) :
    reachable base st live -> 0 <= size ->
    alloc st size = Some (p, st') ->
    reachable base st' ((p, size_pa_of size) :: live)
| reach_free (st : t) (live1 live2 : list region) (p size : Z) :
    reachable base st (live1 ++ (p, round_up size BUF_ALIGN) :: live2) ->
    reachable base (free st p size).1 (live1 ++ live2).

Definition disjoint (r1 r2 : region) : Prop :=
  r1.1 + r1.2 <= r2.1 \/ r2.1 + r2.2 <= r1.1.

Definition aligned (s : Z) : Prop := (BUF_ALIGN | s).

(** The size recorded in the header at [a]. *)
Definition free_size (st : t) (a : Z) : Z := h_size_pa (read_header st a).

(** The invariant of the allocator; [R] are the regions that are not on a
    freelist (handed out, or taken off a list by the operation under way).
    Every listed address carries a valid header and footer with one size,
    lies in the used part of the arena and in the list of its size class;
    every valid tag in memory belongs to a listed region; the lists are
    strictly decreasing; and all regions are pairwise disjoint. *)
Record Inv (st : t) (R : list region) : Prop := {
  inv_pos : 0 <= da_pos (pool st) <= da_max_size (pool st);
  inv_res_nodup : NoDup R;
  inv_res : forall p s, (p, s) ∈ R ->
      0 < s /\ aligned s /\ da_base (pool st) <= p
      /\ p + s <= da_base (pool st) + da_pos (pool st);
  inv_res_disj : forall r1 r2, r1 ∈ R -> r2 ∈ R -> r1 <> r2 -> disjoint r1 r2;
  inv_free : forall c a, a ∈ freelists st c ->
      h_id (read_header st a) = HEADER_ID
      /\ h_magic (read_header st a) = MAGIC
      /\ read_footer st (a + free_size st a)
         = mkFooter MAGIC FOOTER_ID (free_size st a)
      /\ 0 < free_size st a /\ aligned (free_size st a)
      /\ size_class_of (free_size st a) = c
      /\ da_base (pool st) <= a
      /\ a + free_size st a <= da_base (pool st) + da_pos (pool st);
  inv_sorted : forall c, StronglySorted Z.gt (freelists st c);
  inv_hdr : forall a,
      h_id (read_header st a) = HEADER_ID -> h_magic (read_header st a) = MAGIC ->
      a ∈ freelists st (size_class_of (free_size st a));
  inv_ftr : forall e,
      f_id (read_footer st e) = FOOTER_ID -> f_magic (read_footer st e) = MAGIC ->
      (e - f_size_pa (read_footer st e))
        ∈ freelists st (size_class_of (f_size_pa (read_footer st e)))
      /\ free_size st (e - f_size_pa (read_footer st e))
         = f_size_pa (read_footer st e);
  inv_free_res : forall c a r,
      a ∈ freelists st c -> r ∈ R -> disjoint (a, free_size st a) r;
  inv_free_free : forall c c' a a',
      a ∈ freelists st c -> a' ∈ freelists st c' -> a <> a' ->
      disjoint (a, free_size st a) (a', free_size st a')
}.

(** ** Coalescing, as the spec words it

    [st'] is the allocator after the regions [(a, s1)] and [(a + s1, s2)]
    have both been freed, in one order or the other. *)
Definition freed_both (st : t) (a s1 n1 n2 : Z) (st' : t) : Prop :=
  st' = (free (free st a n1).1 (a + s1) n2).1
  \/ st' = (free (free st (a + s1) n2).1 a n1).1.

(** One listed entry covers both regions and no other entry touches them,
    and a request for the combined size is served by the first-fit search
    of [alloc] in the list of that entry's class, the ideal class of the
    request. *)
Definition coalesced_and_served (st' : t) (a s1 s2 : Z) : Prop :=
  (exists e,
      e ∈ freelists st' (size_class_of (s1 + s2))
      /\ e <= a /\ a + s1 + s2 <= e + free_size st' e
      /\ forall c x, x ∈ freelists st' c -> x <> e ->
           disjoint (x, free_size st' x) (a, s1 + s2))
  /\ exists p st'',
      alloc_from_class st' (size_class_of (s1 + s2)) (s1 + s2) = Some (p, st'')
      /\ alloc st' (s1 + s2) = Some (p, st'').

(** No listed region ends where [(a, s)] starts or starts where it ends. *)
Definition no_free_neighbour (st : t) (a s : Z) : Prop :=
  forall c x, x ∈ freelists st c -> x + free_size st x <> a /\ x <> a + s.

(** ** Example runs, in an arena at 1048576 *)

Definition state_of (r : option (Z * t)) (otherwise : t) : t :=
  match r with Some (_, st) => st | None => otherwise end.

(** Three buffers of one quantum, then the first and the third freed. *)
Definition one_page : t := state_of (alloc (init 1048576) 4096) (init 1048576).
Definition two_pages : t := state_of (alloc one_page 4096) one_page.
Definition three_pages : t := state_of (alloc two_pages 4096) two_pages.
Definition first_freed : t := (free three_pages 1048576 4096).1.
Definition first_and_third_freed : t := (free first_freed 1056768 4096).1.

(** A buffer of two quanta, two of one quantum and one that takes the rest
    of the arena; the first is then freed. *)
Definition two_quanta : t := state_of (alloc (init 1048576) 8192) (init 1048576).
Definition two_quanta_one : t := state_of (alloc two_quanta 4096) two_quanta.
Definition two_quanta_two : t := state_of (alloc two_quanta_one 4096) two_quanta_one.
Definition arena_full : t :=
  state_of (alloc two_quanta_two (MAX_CACHE_SIZE - 16384)) two_quanta_two.
Definition two_after_free_neighbour : t := (free arena_full 1048576 8192).1.


(** ** What the allocator keeps besides the invariant *)

(** Bit [c] of the bitmap is set exactly when the list of class [c] has an
    entry ([bitmap |= BIT(size_class)] in [freelist_add], the clearing in
    [freelist_remove]). *)
Definition bitmap_exact (st : t) : Prop :=
  forall c, Z.testbit (bitmap st) c = true <-> freelists st c <> [].

(** "free: immediately coalesce": no listed region ends where another
    listed region starts. *)
Definition coalesced (st : t) : Prop :=
  forall c c' x y,
    x ∈ freelists st c -> y ∈ freelists st c' -> x + free_size st x <> y.

(** The bump cursor and the start of every region, listed or in [R], are a
    whole number of quanta away from the base of the arena. *)
Definition starts_aligned (st : t) (R : list region) : Prop :=
  aligned (da_pos (pool st))
  /\ (forall p s, (p, s) ∈ R -> aligned (p - da_base (pool st)))
  /\ (forall c a, a ∈ freelists st c -> aligned (a - da_base (pool st))).

(** Some listed region has room for [size_pa] bytes. *)
Definition fits_listed (st : t) (size_pa : Z) : Prop :=
  exists c a, a ∈ freelists st c /\ size_pa <= free_size st a.

(** The untouched tail of the arena has room for [size_pa] bytes. *)
Definition fits_tail (st : t) (size_pa : Z) : Prop :=
  da_pos (pool st) + size_pa <= da_max_size (pool st).

(** The bytes on the freelists and the bytes of the regions of [R]. *)
Definition listed_bytes (st : t) : Z :=
  foldr Z.add 0
    ((fun c => foldr Z.add 0 (free_size st <$> freelists st c)) <$> seqZ 0 32).

Definition region_bytes (R : list region) : Z := foldr Z.add 0 (snd <$> R).

(** ** The order of strategies, as the spec words it

    What the spec says of [alloc], stated on what can be seen of the
    allocator before and after the call: the nodes of each class's list in
    their order, the size that a node's header records, the bump cursor and
    the bits of the bitmap.  No definition of this part calls a function of
    the allocator. *)

(** "size class = floor(log2(aligned size))". *)
Definition is_class_of (size_pa c : Z) : Prop :=
  0 <= c /\ 2 ^ c <= size_pa < 2 ^ (c + 1).

(** No node of the list [l] is large enough for [size_pa] bytes. *)
Definition no_fit (st : t) (size_pa : Z) (l : list Z) : Prop :=
  Forall (fun x => free_size st x < size_pa) l.

(** "the first node whose size >= requested": [node] is in [l], it is large
    enough, and no node before it is. *)
Definition is_first_fit (st : t) (size_pa : Z) (l : list Z) (node : Z) : Prop :=
  exists before after,
    l = before ++ node :: after
    /\ no_fit st size_pa before
    /\ size_pa <= free_size st node.

(** "remove it": [l'] is [l] without [node] (a node is linked once: its
    first occurrence goes). *)
Definition removed_from (node : Z) (l l' : list Z) : Prop :=
  ((node ∉ l) /\ l' = l)
  \/ exists before after,
       l = before ++ node :: after /\ (node ∉ before) /\ l' = before ++ after.

(** "reinsert ... into its own size class's freelist", in address order:
    [l'] is [l] with [node] put in after the nodes that are not below it
    and before the first node that is. *)
Definition inserted_in (node : Z) (l l' : list Z) : Prop :=
  exists before after,
    l = before ++ after /\ l' = before ++ node :: after
    /\ Forall (fun x => node <= x) before
    /\ match after with [] => True | x :: _ => x < node end.

(** First fit in the list of class [c], with the split: [node] is the first
    fit of that list and is what the caller gets; it leaves the lists; when
    it is strictly larger than the request, the remainder, which starts
    [size_pa] bytes further and has the rest of the size in its header, is
    put into the list of its own class; every other list is as it was
    without [node], and the bump cursor stays. *)
Definition served_from_class (st : t) (size_pa c node : Z) (st' : t) : Prop :=
  is_first_fit st size_pa (freelists st c) node
  /\ pool st' = pool st
  /\ exists without : Z -> list Z,
       (forall k, removed_from node (freelists st k) (without k))
       /\ (free_size st node = size_pa -> forall k, freelists st' k = without k)
       /\ (size_pa < free_size st node ->
             exists rc,
               is_class_of (free_size st node - size_pa) rc
               /\ inserted_in (node + size_pa) (without rc) (freelists st' rc)
               /\ (forall k, k <> rc -> freelists st' k = without k)
               /\ free_size st' (node + size_pa) = free_size st node - size_pa).

(** "extend usage from the arena's never-yet-allocated tail": the caller
    gets the address at the bump cursor, the cursor moves up by [size_pa]
    within the arena, and the lists are as they were. *)
Definition bumped (st : t) (size_pa p : Z) (st' : t) : Prop :=
  fits_tail st size_pa
  /\ p = da_base (pool st) + da_pos (pool st)
  /\ pool st' = mkPool (da_base (pool st)) (da_max_size (pool st))
                       (da_pos (pool st) + size_pa)
  /\ forall k, freelists st' k = freelists st k.

(** The order as the spec words it, for a request that rounds to [size_pa]
    bytes with [ideal] its size class: the outcome [r] of the call is the first
    success of (1) first fit in the list of the ideal class, with the split;
    (2) the bump of the tail; (3) first fit, with the split, in the lowest
    class strictly above the ideal one whose bit is set in the bitmap and
    whose list has a fit; and (4) it is a failure when none succeeds. *)
Definition strategies_in_order (st : t) (size_pa ideal : Z) (r : option (Z * t))
  : Prop :=
  match r with
  | Some (p, st') =>
      served_from_class st size_pa ideal p st'
      \/ (no_fit st size_pa (freelists st ideal)
          /\ bumped st size_pa p st')
      \/ (no_fit st size_pa (freelists st ideal)
          /\ ~ fits_tail st size_pa
          /\ exists c,
               ideal < c < 32 /\ Z.testbit (bitmap st) c = true
               /\ (forall k, ideal < k < c -> Z.testbit (bitmap st) k = true ->
                      no_fit st size_pa (freelists st k))
               /\ served_from_class st size_pa c p st')
  | None =>
      no_fit st size_pa (freelists st ideal)
      /\ ~ fits_tail st size_pa
      /\ forall k, ideal < k < 32 -> Z.testbit (bitmap st) k = true ->
            no_fit st size_pa (freelists st k)
  end.

(** The sizes in the headers of the listed nodes fit an [uint] (the arena
    has 64 MiB); [size_class_of] casts them to one. *)
Definition sizes_fit_uint (st : t) : Prop :=
  forall k a, a ∈ freelists st k -> free_size st a < 2 ^ 32.

(** The four together, with [R] as in [Inv]: every byte below the bump
    cursor is on a freelist or in a region of [R]. *)
Record Kept (st : t) (R : list region) : Prop := {
  kept_bitmap : bitmap_exact st;
  kept_coalesced : coalesced st;
  kept_aligned : starts_aligned st R;
  kept_bytes : listed_bytes st + region_bytes R = da_pos (pool st)
}.

End CacheAllocator.

(* ===================================================================== *)
(** * The links of a freelist *)
(* ===================================================================== *)

(** The pointer side of [freelist_add] and [freelist_remove]: the [prev] and
    [next] fields of the Header at each address, the sentinel of the class
    being one more such node.  0 is the null pointer.  The allocator above
    works on the sequence of addresses that these links spell out; the facts
    about this module show that [insert_after_walk] and [unlink] are what the
    assignments of the source do to that sequence. *)
Module FreelistLinks.

Record Links := mkLinks { prev : Z; next : Z }.

Definition get (m : gmap Z Links) (a : Z) : Links :=
  default (mkLinks 0 0) (m !! a).

Definition set_next (m : gmap Z Links) (a v : Z) : gmap Z Links :=
  <[a := mkLinks (prev (get m a)) v]> m.

Definition set_prev (m : gmap Z Links) (a v : Z) : gmap Z Links :=
  <[a := mkLinks v (next (get m a))]> m.

(** [while(prev->next && header <= prev->next) prev = prev->next;] with at
    most [fuel] steps. *)
Fixpoint find_prev (fuel : nat) (m : gmap Z Links) (header p : Z) : Z :=
  match fuel with
  | O => p
  | S fuel' =>
      let n := next (get m p) in
      if negb (n =? 0) && (header <=? n) then find_prev fuel' m header n else p
  end.

(** [header->next = prev->next; header->prev = prev;
     if(prev->next) prev->next->prev = header; prev->next = header;] *)
Definition freelist_add_links (fuel : nat) (m : gmap Z Links) (sentinel header : Z)
  : gmap Z Links :=
  let p := find_prev fuel m header sentinel in
  let n := next (get m p) in
  let m1 := <[header := mkLinks p n]> m in
  let m2 := if negb (n =? 0) then set_prev m1 n header else m1 in
  set_next m2 p header.

(** [header->prev->next = header->next;
     if(header->next) header->next->prev = header->prev;] and the wipe of
    the header: [memset(header, 0xEE, sizeof(Header))] leaves the byte 0xEE
    in every byte of the two pointers. *)
Definition freelist_remove_links {pw : PtrWidth} (m : gmap Z Links) (header : Z)
  : gmap Z Links :=
  let p := prev (get m header) in
  let n := next (get m header) in
  let m1 := set_next m p n in
  let m2 := if negb (n =? 0) then set_prev m1 n p else m1 in
  <[header := mkLinks wiped_ptr wiped_ptr]> m2.

(** [for(Header* cur = freelists[c].next; cur; cur = cur->next)]: the
    addresses visited from [cur] on, at most [fuel] of them. *)
Fixpoint walk (fuel : nat) (m : gmap Z Links) (cur : Z) : list Z :=
  match fuel with
  | O => []
  | S fuel' => if cur =? 0 then [] else cur :: walk fuel' m (next (get m cur))
  end.

(** The nodes from [cur] on are exactly [l], each pointing back to the one
    before it ([from] for the first). *)
Fixpoint is_chain (m : gmap Z Links) (from cur : Z) (l : list Z) : Prop :=
  match l with
  | [] => cur = 0
  | a :: rest =>
      cur = a /\ a <> 0 /\ prev (get m a) = from
      /\ is_chain m a (next (get m a)) rest
  end.

(** The list headed by [sentinel] is [l]. *)
Definition chain (m : gmap Z Links) (sentinel : Z) (l : list Z) : Prop :=
  sentinel <> 0 /\ NoDup (sentinel :: l)
  /\ is_chain m sentinel (next (get m sentinel)) l.

End FreelistLinks.

(* ===================================================================== *)
(** * Extant buffer manager *)
(* ===================================================================== *)

Module ExtantBufMgr.

Section Width.

Context {pw : PtrWidth}.

(** [refs] and [epoch] are [uint]; [buf] is a pointer and [size] a
    [size_t]. *)
Record ExtantBuf := mkExtantBuf {
  buf : Z;
  size : Z;
  atom_fn : Z;
  refs : Z;
  epoch : Z
}.

(** [extant_bufs] is the vector, [cur_epoch] the member [epoch]. *)
Record t := mkMgr {
  extant_bufs : list ExtantBuf;
  cur_epoch : Z
}.

Definition init : t := mkMgr [] 1.

(** [eb.buf <= buf && buf < eb.buf + eb.size] on byte pointers; the end of
    the entry is computed in pointer arithmetic, which wraps at the width
    of a pointer. *)
Definition matches (eb : ExtantBuf) (b : Z) : bool :=
  (buf eb <=? b) && (b <? uptr (buf eb + size eb)).

(** [!eb.buf] *)
Definition is_hole (eb : ExtantBuf) : bool := buf eb =? 0.

Definition assert_nonnull (b : Z) : list string :=
  if b =? 0 then ["debug_assert: buf != 0"%string] else [].

Definition add (st : t) (b sz fn : Z) (long_lived : bool) : t * list string :=
  let sz := if sz =? 0 then 1 else sz in
  let this_epoch := if long_lived then 0 else cur_epoch st in
  let next_epoch := if long_lived then cur_epoch st else u32 (cur_epoch st + 1) in
  match list_find (fun eb => is_hole eb) (extant_bufs st) with
  | Some (i, eb) =>
      (mkMgr (<[i := mkExtantBuf b sz fn 1 this_epoch]> (extant_bufs st)) next_epoch,
       assert_nonnull b ++
       (if refs eb =? 0 then [] else ["debug_assert: eb.refs == 0"%string]))
  | None =>
      (mkMgr (extant_bufs st ++ [mkExtantBuf b sz fn 1 this_epoch]) next_epoch,
       assert_nonnull b)
  end.

Definition add_ref (st : t) (b sz fn : Z) : t * list string :=
  match list_find (fun eb => matches eb b) (extant_bufs st) with
  | Some (i, eb) =>
      (mkMgr (<[i := mkExtantBuf (buf eb) (size eb) (atom_fn eb)
                                 (u32 (refs eb + 1)) (epoch eb)]> (extant_bufs st))
             (cur_epoch st),
       [])
  | None => add st b sz fn false
  end.

Definition get_owner_filename (st : t) (b : Z) : option Z :=
  match list_find (fun eb => matches eb b) (extant_bufs st) with
  | Some (_, eb) => Some (atom_fn eb)
  | None => None
  end.

(** The result is [None] when no entry matches (the out parameters are then
    left as they were); otherwise it is [actually_removed] with [exact_buf],
    [size] and [atom_fn]. *)
Definition find_and_remove (st : t) (b : Z)
  : option (bool * Z * Z * Z) * t * list string :=
  match list_find (fun eb => matches eb b) (extant_bufs st) with
  | Some (i, eb) =>
      let refs' := u32 (refs eb - 1) in
      let actually_removed := refs' =? 0 in
      let eb' := if actually_removed
                 then mkExtantBuf 0 0 0 refs' (epoch eb)
                 else mkExtantBuf (buf eb) (size eb) (atom_fn eb) refs' (epoch eb) in
      (Some (actually_removed, buf eb, size eb, atom_fn eb),
       mkMgr (<[i := eb']> (extant_bufs st)) (u32 (cur_epoch st + 1)),
       assert_nonnull b ++
       (if negb (epoch eb =? 0) && negb (epoch eb =? u32 (cur_epoch st - 1))
        then ["buf not released immediately"%string] else []))
  | None =>
      (None, st,
       assert_nonnull b ++ ["buf is not on extant list! double free?"%string])
  end.

Definition replace_owner (st : t) (b fn : Z) : t * list string :=
  match list_find (fun eb => matches eb b) (extant_bufs st) with
  | Some (i, eb) =>
      (mkMgr (<[i := mkExtantBuf (buf eb) (size eb) fn (refs eb) (epoch eb)]>
                (extant_bufs st))
             (cur_epoch st),
       assert_nonnull b)
  | None => (st, assert_nonnull b ++ ["to-be-replaced buf not found"%string])
  end.

(** [display_all_remaining]: what the report prints between its heading
    "Leaked FileIOBufs:" and its closing rule, one line per slot that is not
    a hole: the buffer, its size and its owner. *)
Definition display_all_remaining (st : t) : list (Z * Z * Z) :=
  (fun eb => (buf eb, size eb, atom_fn eb))
    <$> List.filter (fun eb => negb (is_hole eb)) (extant_bufs st).

(** ** Runs of calls on one buffer *)



(** The addresses of the buffer [b] of [sz] bytes, as [add] records it. *)
Definition in_buf (b sz x : Z) : Prop :=
  b <= x < b + (if sz =? 0 then 1 else sz).

(** The buffer [b] of [sz] bytes is a range of addresses: it starts above
    the null pointer and its end is an address too (the end that [matches]
    computes does not wrap). *)
Definition addressable (b sz : Z) : Prop :=
  0 < b /\ b + (if sz =? 0 then 1 else sz) < 2 ^ ptr_bits.

(** Slot [i] holds the buffer [b] (of [sz1] recorded bytes) with [r]
    references, the buffer ends within the address space, and no other slot
    contains an address of that buffer: every call on such an address
    reaches slot [i]. *)
Definition owns (st : t) (i : nat) (b sz1 r : Z) : Prop :=
  (0 <= b /\ b + sz1 < 2 ^ ptr_bits)
  /\ (exists fn ep, extant_bufs st !! i = Some (mkExtantBuf b sz1 fn r ep))
  /\ forall j eb x, j <> i -> extant_bufs st !! j = Some eb ->
       b <= x < b + sz1 -> matches eb x = false.

End Width.

End ExtantBufMgr.

(* ===================================================================== *)
(** * The file cache and the buffer entry points *)
(* ===================================================================== *)

Module FileCache.

Inductive LibError := ERR_OK | ERR_NO_MEM | ERR_INVALID_PARAM.

(** Modelled from the spec: the template Cache of lib/adts.h is not in
    src/.  The spec lists its operations and leaves the order of eviction to
    it, so it is an interface here: [cache_peek] is retrieve without side
    effects, [cache_retrieve] the one that may refresh the entry. *)
Class Cache (C : Type) := {
  cache_add : C -> Z -> Z -> Z -> Z -> C;
  cache_peek : C -> Z -> option (Z * Z);
  cache_retrieve : C -> Z -> option (Z * Z) * C;
  cache_remove : C -> Z -> C;
  cache_remove_least_valuable : C -> option (Z * Z) * C;
  cache_empty : C -> bool
}.

(** Modelled from the spec: one such cache, a map from file identity to
    (buffer, size, cost) with at most one entry per identity; the entry of
    least cost (and, among those, of least identity) is the least valuable. *)
Definition least_valuable (m : gmap Z (Z * Z * Z)) : option (Z * (Z * Z * Z)) :=
  foldr (fun kv acc =>
           match acc with
           | Some kv' => if kv.2.2 <=? kv'.2.2 then Some kv else Some kv'
           | None => Some kv
           end) None (map_to_list m).

#[global] Instance map_cache : Cache (gmap Z (Z * Z * Z)) := {|
  cache_add := fun m key item sz cost => <[key := (item, sz, cost)]> m;
  cache_peek := fun m key => (fun e : Z * Z * Z => (e.1.1, e.1.2)) <$> m !! key;
  cache_retrieve := fun m key =>
    ((fun e : Z * Z * Z => (e.1.1, e.1.2)) <$> m !! key, m);
  cache_remove := fun m key => delete key m;
  cache_remove_least_valuable := fun m =>
    match least_valuable m with
    | Some (key, e) => (Some (e.1.1, e.1.2), delete key m)
    | None => (None, m)
    end;
  cache_empty := fun m => bool_decide (m = ∅)
|}.

(** Calls into the components and diagnostics, in the order they happen. *)
Inductive event :=
| EAlloc (size : Z)
| ERemoveLeastValuable
| EFree (p size : Z)
| EAdd (b size fn : Z)
| EFindAndRemove (b : Z)
| ERetrieve (fn : Z)
| EStat (name : string)
| EWarn (msg : string).

Section Facade.

Context {C : Type} `{Cache C} {pw : PtrWidth}.

Record t := mkState {
  cache_allocator : CacheAllocator.t;
  extant_bufs : ExtantBufMgr.t;
  file_cache : C;
  block_mgr : BlockMgr.t
}.

Definition with_allocator (st : t) (a : CacheAllocator.t) : t :=
  mkState a (extant_bufs st) (file_cache st) (block_mgr st).

Definition with_extant (st : t) (e : ExtantBufMgr.t) : t :=
  mkState (cache_allocator st) e (file_cache st) (block_mgr st).

Definition with_cache (st : t) (c : C) : t :=
  mkState (cache_allocator st) (extant_bufs st) c (block_mgr st).

(** The [for(;;)] loop of [file_buf_alloc], at most [fuel] passes of it.
    The loop is left only through [break], with a buffer; [None] says that
    it is still running after [fuel] passes.  [uninit] is what the locals
    [discarded_buf] and [size] hold when [remove_least_valuable] does not
    set them. *)
Fixpoint file_buf_alloc_loop (fuel : nat) (uninit : Z * Z) (size : Z)
    (st : t) (attempts : Z) : option (Z * t) * list event :=
  match fuel with
  | O => (None, [])
  | S fuel' =>
      match CacheAllocator.alloc (cache_allocator st) size with
      | Some (b, a) => (Some (b, with_allocator st a), [EAlloc size])
      | None =>
          let '(removed, c) := cache_remove_least_valuable (file_cache st) in
          let '(discarded_buf, dsize) :=
            match removed with Some x => x | None => uninit end in
          let test := match removed with
                      | Some _ => []
                      | None => [EWarn "TEST(removed)"]
                      end in
          let '(a, ws) :=
            CacheAllocator.free (cache_allocator st) discarded_buf dsize in
          let warn := if 50 <? attempts
                      then [EWarn "possible infinite loop: failed to make room in cache"]
                      else [] in
          let st' := with_cache (with_allocator st a) c in
          let '(r, evs) :=
            file_buf_alloc_loop fuel' uninit size st' (u32 (attempts + 1)) in
          (r, [EAlloc size; ERemoveLeastValuable] ++ test
              ++ [EFree discarded_buf dsize] ++ map EWarn ws ++ warn ++ evs)
      end
  end.

Definition file_buf_alloc (fuel : nat) (uninit : Z * Z) (st : t)
    (size fn : Z) (long_lived : bool) : option (Z * t) * list event :=
  match file_buf_alloc_loop fuel uninit size st 0 with
  | (Some (b, st1), evs) =>
      let '(e, ws) := ExtantBufMgr.add (extant_bufs st1) b size fn long_lived in
      (Some (b, with_extant st1 e),
       evs ++ [EAdd b size fn] ++ map EWarn ws ++ [EStat "stats_buf_alloc"])
  | (None, evs) => (None, evs)
  end.

Definition file_buf_free (st : t) (b : Z) : LibError * t * list event :=
  if b =? 0 then (ERR_OK, st, [])
  else
    let '(res, e, ws) := ExtantBufMgr.find_and_remove (extant_bufs st) b in
    let st1 := with_extant st e in
    let '(st2, evs) :=
      match res with
      | Some (true, exact_buf, actual_size, fn) =>
          match cache_peek (file_cache st1) fn with
          | Some (buf_in_cache, _) =>
              (st1, ERetrieve fn ::
                    if buf_in_cache =? b then []
                    else [EWarn "debug_assert: buf_in_cache == buf"])
          | None =>
              let '(a, ws') :=
                CacheAllocator.free (cache_allocator st1) exact_buf actual_size in
              (with_allocator st1 a,
               [ERetrieve fn; EFree exact_buf actual_size] ++ map EWarn ws')
          end
      | _ => (st1, [])
      end in
    (ERR_OK, st2,
     [EFindAndRemove b] ++ map EWarn ws ++ evs
       ++ [EStat "stats_buf_free"; EStat "trace_notify_free"]).

Definition file_buf_set_real_fn (st : t) (b fn : Z) : LibError * t * list event :=
  let '(e, ws) := ExtantBufMgr.replace_owner (extant_bufs st) b fn in
  (ERR_OK, with_extant st e, map EWarn ws).

(** [make_read_only] has its body commented out. *)
Definition file_cache_add (st : t) (b size fn : Z) : LibError * t :=
  let cost := 1 in
  (ERR_OK, with_cache st (cache_add (file_cache st) fn b size cost)).

Definition file_cache_find (st : t) (fn : Z) : option (Z * Z) :=
  match cache_peek (file_cache st) fn with
  | Some (b, sz) => if b =? 0 then None else Some (b, sz)
  | None => None
  end.

Definition file_cache_retrieve (st : t) (fn : Z) : option (Z * Z) * t * list event :=
  match file_cache_find st fn with
  | Some (b, sz) =>
      let '(e, ws) := ExtantBufMgr.add_ref (extant_bufs st) b sz fn in
      (Some (b, sz), with_extant st e,
       map EWarn ws ++ [EStat "stats_buf_ref"; EStat "stats_cache"])
  | None => (None, st, [EStat "stats_cache"])
  end.

(** The state in which the program starts. *)
Definition init (c : C) (arena_base block_pool_base FILE_BLOCK_SIZE : Z) : t :=
  mkState (CacheAllocator.init arena_base) ExtantBufMgr.init c
          (BlockMgr.init block_pool_base FILE_BLOCK_SIZE).

(** Whether [evs] records a call of the allocator's [free]. *)
Definition frees_memory (evs : list event) : Prop :=
  exists p sz, EFree p sz ∈ evs.

(** The cache holds the buffer [b] under the identity [fn]. *)
Definition cache_holds (c : C) (fn b : Z) : Prop :=
  exists sz, cache_peek c fn = Some (b, sz).

(** C7 as the spec words it: memory is freed exactly when the buffer is
    fully released and the cache does not hold that buffer under its owner. *)
Definition frees_exactly_when_not_held (st : t) (b : Z) : Prop :=
  forall (fully_released : bool) (exact_buf sz fn : Z),
    (ExtantBufMgr.find_and_remove (extant_bufs st) b).1.1
      = Some (fully_released, exact_buf, sz, fn) ->
    (frees_memory (file_buf_free st b).2
     <-> fully_released = true /\ ~ cache_holds (file_cache st) fn exact_buf).

(** ** The other entry points *)

Definition with_block_mgr (st : t) (bm : BlockMgr.t) : t :=
  mkState (cache_allocator st) (extant_bufs st) (file_cache st) bm.

(** The block cache entry points hand over to [block_mgr]; only
    [block_cache_find] also reports to the statistics. *)
Definition block_cache_alloc (st : t) (id : BlockMgr.BlockId)
  : option Z * t * list event :=
  let '(r, bm, ws) := BlockMgr.alloc (block_mgr st) id in
  (r, with_block_mgr st bm, map EWarn ws).

Definition block_cache_mark_completed (st : t) (id : BlockMgr.BlockId)
  : t * list event :=
  let '(bm, ws) := BlockMgr.mark_completed (block_mgr st) id in
  (with_block_mgr st bm, map EWarn ws).

Definition block_cache_find (st : t) (id : BlockMgr.BlockId)
  : option Z * t * list event :=
  let '(r, bm, ws) := BlockMgr.find (block_mgr st) id in
  (r, with_block_mgr st bm, map EWarn ws ++ [EStat "stats_block_cache"]).

Definition block_cache_release (st : t) (id : BlockMgr.BlockId)
  : t * list event :=
  let '(bm, ws) := BlockMgr.release (block_mgr st) id in
  (with_block_mgr st bm, map EWarn ws).

(** [file_cache_invalidate]; the interning of the name
    (file_make_unique_fn_copy) is not in src/, the argument is the interned
    name.  The lookup is the retrieve that may refresh the entry. *)
Definition file_cache_invalidate (st : t) (atom_fn : Z) : LibError * t * list event :=
  let '(bm, ws) := BlockMgr.invalidate (block_mgr st) atom_fn in
  let st1 := with_block_mgr st bm in
  match cache_retrieve (file_cache st1) atom_fn with
  | (Some (cached_buf, size), c) =>
      let c' := cache_remove c atom_fn in
      let '(a, ws') :=
        CacheAllocator.free (cache_allocator st1) cached_buf size in
      (ERR_OK, with_cache (with_allocator st1 a) c',
       map EWarn ws ++ [ERetrieve atom_fn; EFree cached_buf size] ++ map EWarn ws')
  | (None, c) =>
      (ERR_OK, with_cache st1 c, map EWarn ws ++ [ERetrieve atom_fn])
  end.

(** The [for(;;)] loop of [file_cache_flush], at most [fuel] passes of it;
    [None] says that it is still running after [fuel] passes. *)
Fixpoint file_cache_flush (fuel : nat) (st : t) : option t * list event :=
  match fuel with
  | O => (None, [])
  | S fuel' =>
      match cache_remove_least_valuable (file_cache st) with
      | (None, c) => (Some (with_cache st c), [ERemoveLeastValuable])
      | (Some (discarded_buf, size), c) =>
          let '(a, ws) :=
            CacheAllocator.free (cache_allocator st) discarded_buf size in
          let '(r, evs) :=
            file_cache_flush fuel' (with_cache (with_allocator st a) c) in
          (r, [ERemoveLeastValuable; EFree discarded_buf size]
                ++ map EWarn ws ++ evs)
      end
  end.

(** The buffers that [evs] records as passed to the allocator's [free]. *)
Fixpoint freed (evs : list event) : list (Z * Z) :=
  match evs with
  | [] => []
  | EFree p size :: r => (p, size) :: freed r
  | _ :: r => freed r
  end.

(** No entry of the registry contains an address of the buffer [b] of
    [size] bytes. *)
Definition not_extant (st : t) (b size : Z) : Prop :=
  forall eb x, eb ∈ ExtantBufMgr.extant_bufs (extant_bufs st) ->
    ExtantBufMgr.in_buf b size x -> ExtantBufMgr.matches eb x = false.

End Facade.

Arguments t C : clear implicits.

(** The program at its start, on the map cache. *)
Definition start : t (gmap Z (Z * Z * Z)) := init ∅ 1048576 4096 65536.

(** A file (identity 7) is read into a buffer that goes into the cache, and
    is then read a second time into another buffer. *)
Definition loaded_twice : t (gmap Z (Z * Z * Z)) :=
  match file_buf_alloc 1 (0, 0) start 100 7 false with
  | (Some (b1, st1), _) =>
      let st2 := (file_cache_add st1 b1 100 7).2 in
      match file_buf_alloc 1 (0, 0) st2 100 7 false with
      | (Some (_, st3), _) => st3
      | _ => start
      end
  | _ => start
  end.

End FileCache.

(* ===================================================================== *)
(** * Properties of the block manager *)
(* ===================================================================== *)

Module BlockMgrFacts.
Import BlockMgr.

Local Open Scope nat_scope.

Lemma reusable_spec (b : Block) :
  reusable b = true <-> status b <> BS_PENDING /\ refs b = 0%Z.
Proof.
  unfold reusable. rewrite andb_true_iff, negb_true_iff, bool_decide_eq_false.
  rewrite Z.eqb_eq. tauto.
Qed.

Lemma block_eq_refl (a : BlockId) : block_eq a a = true.
Proof. unfold block_eq. by rewrite !Z.eqb_refl. Qed.

Lemma block_eq_true (a b : BlockId) :
  block_eq a b = true <-> atom_fn a = atom_fn b /\ block_num a = block_num b.
Proof. unfold block_eq. rewrite andb_true_iff, !Z.eqb_eq. tauto. Qed.

Lemma block_eq_sym (a b : BlockId) : block_eq a b = block_eq b a.
Proof. unfold block_eq. by rewrite (Z.eqb_sym (atom_fn a)), (Z.eqb_sym (block_num a)). Qed.

Lemma block_eq_trans (a b c : BlockId) :
  block_eq a b = true -> block_eq b c = true -> block_eq a c = true.
Proof. rewrite !block_eq_true. intros [? ?] [? ?]. split; congruence. Qed.

(** The scan: the first reusable slot in ring order is taken, and the cursor
    ends one past it; without one the cursor goes round [n] slots. *)
Lemma alloc_scan_found (n : nat) (bl : list Block) (o k : nat) :
  o < MAX_BLOCKS -> k < n ->
  reusable (bl !!! ((o + k) mod MAX_BLOCKS)) = true ->
  (forall k', k' < k -> reusable (bl !!! ((o + k') mod MAX_BLOCKS)) = false) ->
  (alloc_scan n bl o).1 =
    (Some ((o + k) mod MAX_BLOCKS), (o + k + 1) mod MAX_BLOCKS).
Proof.
  revert o k. induction n as [|n IH]; intros o k Ho Hk Hre Hbefore; [lia|].
  cbn [alloc_scan].
  destruct k as [|k].
  - rewrite Nat.add_0_r, Nat.mod_small in Hre by done.
    rewrite Hre. cbn [fst snd]. by rewrite !Nat.add_0_r, (Nat.mod_small o) by done.
  - pose proof (Hbefore 0 ltac:(lia)) as H0.
    rewrite Nat.add_0_r, Nat.mod_small in H0 by done. rewrite H0.
    assert (Ho' : (o + 1) mod MAX_BLOCKS < MAX_BLOCKS)
      by (apply Nat.mod_upper_bound; done).
    assert (Hshift : forall j, ((o + 1) mod MAX_BLOCKS + j) mod MAX_BLOCKS
                               = (o + S j) mod MAX_BLOCKS).
    { intros j. rewrite Nat.Div0.add_mod_idemp_l. f_equal. lia. }
    specialize (IH ((o + 1) mod MAX_BLOCKS) k Ho' ltac:(lia)).
    rewrite Hshift in IH. specialize (IH Hre).
    destruct (alloc_scan n bl ((o + 1) mod MAX_BLOCKS)) as [[r o2] ws].
    cbn [fst snd] in *. rewrite IH.
    + f_equal.
      replace ((o + 1) mod MAX_BLOCKS + k + 1) with ((o + 1) mod MAX_BLOCKS + (k + 1)) by lia.
      rewrite Nat.Div0.add_mod_idemp_l. f_equal. lia.
    + intros k' Hk'. rewrite Hshift. apply Hbefore. lia.
Qed.

Lemma alloc_scan_none (n : nat) (bl : list Block) (o : nat) :
  o < MAX_BLOCKS ->
  (forall k, k < n -> reusable (bl !!! ((o + k) mod MAX_BLOCKS)) = false) ->
  (alloc_scan n bl o).1 = (None, (o + n) mod MAX_BLOCKS).
Proof.
  revert o. induction n as [|n IH]; intros o Ho Hnone; cbn [alloc_scan].
  - cbn [fst snd]. by rewrite Nat.add_0_r, Nat.mod_small.
  - pose proof (Hnone 0 ltac:(lia)) as H0.
    rewrite Nat.add_0_r, Nat.mod_small in H0 by done. rewrite H0.
    assert (Ho' : (o + 1) mod MAX_BLOCKS < MAX_BLOCKS)
      by (apply Nat.mod_upper_bound; done).
    specialize (IH ((o + 1) mod MAX_BLOCKS) Ho').
    destruct (alloc_scan n bl ((o + 1) mod MAX_BLOCKS)) as [[r o2] ws].
    cbn [fst snd] in *. rewrite IH.
    + f_equal. rewrite Nat.Div0.add_mod_idemp_l. f_equal. lia.
    + intros k Hk. rewrite Nat.Div0.add_mod_idemp_l.
      replace (o + 1 + k) with (o + S k) by lia. apply Hnone. lia.
Qed.

(** The slot the scan returns is reusable: nothing else is ever taken. *)
Lemma alloc_scan_reusable (n : nat) (bl : list Block) (o j o' : nat) (ws : list string) :
  alloc_scan n bl o = (Some j, o', ws) -> reusable (bl !!! j) = true.
Proof.
  revert o o' ws. induction n as [|n IH]; intros o o' ws; cbn [alloc_scan]; [done|].
  destruct (reusable (bl !!! o)) eqn:Hr.
  - intros [= <- _ _]. done.
  - destruct (alloc_scan n bl ((o + 1) mod MAX_BLOCKS)) as [[r o2] ws2] eqn:Hs.
    intros [= -> _ _]. eauto.
Qed.


(** C6: [alloc] looks at the slots in ring order from [oldest_block], moving
    the cursor past every slot it looks at.  The first slot whose status is
    not Pending and whose reference count is 0 is the one taken (it gets the
    new id and becomes Pending, the cursor ends just after it); when none of
    the 32 slots is like that the call fails, reports that all blocks are
    locked and leaves the ring as it was; a slot that is Complete and still
    referenced is never touched. *)
Theorem alloc_ring_scan (bm : t) (i : BlockId) :
  wf bm ->
  (forall k, k < MAX_BLOCKS ->
     (status (blocks bm !!! slot bm k) <> BS_PENDING
      /\ refs (blocks bm !!! slot bm k) = 0%Z) ->
     (forall k', k' < k ->
        ~ (status (blocks bm !!! slot bm k') <> BS_PENDING
           /\ refs (blocks bm !!! slot bm k') = 0%Z)) ->
     let j := slot bm k in
     let b := blocks bm !!! j in
     (alloc bm i).1 =
       (Some (mem b),
        mkBlockMgr (<[j := mkBlock i (mem b) BS_PENDING (refs b)]> (blocks bm))
                   (slot bm (k + 1))))
  /\ ((forall j, j < MAX_BLOCKS ->
         ~ (status (blocks bm !!! j) <> BS_PENDING /\ refs (blocks bm !!! j) = 0%Z)) ->
      (alloc bm i).1 = (None, bm)
      /\ "all blocks are locked"%string ∈ (alloc bm i).2)
  /\ (forall j b, blocks bm !! j = Some b ->
        status b = BS_COMPLETE -> (0 < refs b)%Z ->
        blocks (alloc bm i).1.2 !! j = Some b).
Proof.
  intros [Hlen Ho]. split; [|split].
  - intros k Hk Hre Hbefore j b. unfold alloc.
    pose proof (alloc_scan_found MAX_BLOCKS (blocks bm) (oldest_block bm) k Ho Hk) as Hs.
    destruct (alloc_scan MAX_BLOCKS (blocks bm) (oldest_block bm)) as [[r o] ws].
    cbn [fst snd] in Hs.
    assert (Hs' : (r, o) = (Some (slot bm k), slot bm (k + 1))).
    { unfold slot. rewrite Nat.add_assoc. apply Hs; [by apply reusable_spec|].
      intros k' Hk'. apply not_true_is_false. rewrite reusable_spec. by apply Hbefore. }
    injection Hs' as -> ->. reflexivity.
  - intros Hnone. unfold alloc.
    pose proof (alloc_scan_none MAX_BLOCKS (blocks bm) (oldest_block bm) Ho) as Hs.
    destruct (alloc_scan MAX_BLOCKS (blocks bm) (oldest_block bm)) as [[r o] ws].
    cbn [fst snd] in Hs.
    assert (Hs' : (r, o) = (None, oldest_block bm)).
    { rewrite Hs.
      - f_equal. rewrite <- (Nat.mul_1_l MAX_BLOCKS) at 1.
        rewrite Nat.Div0.mod_add. by apply Nat.mod_small.
      - intros k Hk. apply not_true_is_false. rewrite reusable_spec. apply Hnone.
        by apply Nat.mod_upper_bound. }
    injection Hs' as -> ->. cbn [fst snd]. split.
    + by destruct bm.
    + rewrite !elem_of_app. right. right. by apply list_elem_of_singleton.
  - intros j b Hj Hst Hrefs. unfold alloc.
    destruct (alloc_scan MAX_BLOCKS (blocks bm) (oldest_block bm)) as [[r o] ws] eqn:Hs.
    destruct r as [j0|]; cbn [fst snd blocks]; [|done].
    apply alloc_scan_reusable in Hs. apply reusable_spec in Hs as [_ Hz].
    rewrite list_lookup_insert_ne; [done|].
    intros ->. rewrite (list_lookup_total_correct _ _ _ Hj) in Hz. lia.
Qed.

(** C6 at the ring of a new block manager. *)
Lemma alloc_ring_scan_witness :
  wf (init 4096 65536)
  /\ blocks (alloc (init 4096 65536) (mkBlockId 1 0)).1.2 !! 0
     = Some (mkBlock (mkBlockId 1 0) 4096 BS_PENDING 0).
Proof.
  split; [split; vm_compute; [reflexivity | lia]|].
  pose proof (alloc_ring_scan (init 4096 65536) (mkBlockId 1 0)) as H.
  destruct H as [H _]; [split; vm_compute; [reflexivity | lia]|].
  specialize (H 0 ltac:(vm_compute; lia)).
  rewrite H; [reflexivity | vm_compute; split; congruence | intros k' Hk'; lia].
Defined.


(** ** Uniqueness of ids *)

Lemma find_id_Some (bl : list Block) (i : BlockId) (j : nat) :
  find_id bl i = Some j ->
  exists b, bl !! j = Some b /\ block_eq (id b) i = true
    /\ forall x bx, bl !! x = Some bx -> x < j -> block_eq (id bx) i = false.
Proof.
  unfold find_id. destruct (list_find _ bl) as [[j' b]|] eqn:Hf; [|done].
  intros [= <-]. apply list_find_Some in Hf as (Hb & HP & Hfirst).
  exists b. split; [done|]. split; [by apply Is_true_true|].
  intros x bx Hx Hlt. apply not_true_is_false. intros Heq.
  apply (Hfirst x bx Hx Hlt). by apply Is_true_true.
Qed.

Lemma later_copies_invalid_unique (bm : t) :
  later_copies_invalid (blocks bm) -> unique_ids bm.
Proof.
  intros HK i j bi bj Hne Hi Hj Hsi Hsj.
  apply not_true_is_false. intros Heq.
  destruct (Nat.lt_total i j) as [Hlt|[->|Hlt]]; [|done|].
  - by apply Hsj, (HK i j bi bj).
  - apply Hsi, (HK j i bj bi); [done..|]. by rewrite block_eq_sym.
Qed.

Lemma later_copies_invalid_init (pool_base fbs : Z) :
  later_copies_invalid (blocks (init pool_base fbs)).
Proof.
  intros i j bi bj _ _ Hj _. cbn [init blocks] in Hj.
  rewrite list_lookup_fmap in Hj.
  destruct (seq 0 MAX_BLOCKS !! j); by simplify_eq/=.
Qed.

(** Writing a new id into a slot, when no slot carried it. *)
Lemma later_copies_invalid_fresh (bl : list Block) (j : nat) (b' : Block) :
  later_copies_invalid bl ->
  (forall b, b ∈ bl -> block_eq (id b) (id b') = false) ->
  later_copies_invalid (<[j := b']> bl).
Proof.
  intros HK Hfresh x y bx by_ Hlt Hx Hy Heq.
  apply list_lookup_insert_Some in Hx as [(-> & <- & _)|[Hxj Hx]];
    apply list_lookup_insert_Some in Hy as [(Hyj & <- & _)|[Hyj Hy]].
  - lia.
  - apply list_elem_of_lookup_2 in Hy. apply Hfresh in Hy.
    rewrite block_eq_sym in Hy. congruence.
  - apply list_elem_of_lookup_2 in Hx. apply Hfresh in Hx. congruence.
  - by apply (HK x y bx by_).
Qed.

(** Rewriting a slot without touching its id: either the status stays, or
    the slot is the first one with that id. *)
Lemma later_copies_invalid_update (bl : list Block) (j : nat) (b b' : Block) :
  later_copies_invalid bl ->
  bl !! j = Some b -> id b' = id b ->
  (status b' = status b
   \/ forall x bx, bl !! x = Some bx -> x < j -> block_eq (id bx) (id b) = false) ->
  later_copies_invalid (<[j := b']> bl).
Proof.
  intros HK Hb Hid Hcase x y bx by_ Hlt Hx Hy Heq.
  apply list_lookup_insert_Some in Hx as [(Hxj & <- & _)|[Hxj Hx]];
    apply list_lookup_insert_Some in Hy as [(Hyj & <- & _)|[Hyj Hy]].
  - lia.
  - subst x. rewrite Hid in Heq. by apply (HK j y b by_).
  - subst y. rewrite Hid in Heq. destruct Hcase as [->|Hfirst].
    + by apply (HK x j bx b).
    + rewrite (Hfirst x bx Hx Hlt) in Heq. done.
  - by apply (HK x y bx by_).
Qed.

Lemma later_copies_invalid_step (bm : t) (o : op) :
  later_copies_invalid (blocks bm) ->
  match o with OAlloc i => fresh_id bm i | _ => True end ->
  later_copies_invalid (blocks (step bm o)).
Proof.
  intros HK Hfresh. destruct o as [i|i|i|i|fn]; cbn [step].
  - unfold alloc.
    destruct (alloc_scan MAX_BLOCKS (blocks bm) (oldest_block bm)) as [[[j|] o] ws];
      cbn [fst snd blocks]; [|done].
    by apply later_copies_invalid_fresh.
  - unfold mark_completed. destruct (find_id (blocks bm) i) as [j|] eqn:Hf; [|done].
    apply find_id_Some in Hf as (b & Hb & Hi & Hfirst). cbn [fst blocks].
    rewrite (list_lookup_total_correct _ _ _ Hb).
    apply (later_copies_invalid_update _ _ b); [done..|]. right.
    intros x bx Hx Hlt. apply not_true_is_false. intros Heq.
    specialize (Hfirst x bx Hx Hlt).
    by rewrite (block_eq_trans _ _ _ Heq Hi) in Hfirst.
  - unfold find. destruct (find_id (blocks bm) i) as [j|] eqn:Hf; [|done].
    apply find_id_Some in Hf as (b & Hb & _). case_bool_decide; [|done].
    cbn [fst snd blocks]. rewrite (list_lookup_total_correct _ _ _ Hb).
    apply (later_copies_invalid_update _ _ b); auto.
  - unfold release. destruct (find_id (blocks bm) i) as [j|] eqn:Hf; [|done].
    apply find_id_Some in Hf as (b & Hb & _).
    cbn [fst blocks]. rewrite (list_lookup_total_correct _ _ _ Hb).
    apply (later_copies_invalid_update _ _ b); auto.
  - unfold invalidate. cbn [fst blocks].
    intros x y bx by_ Hlt Hx Hy Heq.
    rewrite list_lookup_fmap in Hx, Hy.
    destruct (blocks bm !! x) as [bx0|] eqn:Hx0; [|done].
    destruct (blocks bm !! y) as [by0|] eqn:Hy0; [|done].
    cbn in Hx, Hy. simplify_eq.
    assert (Hidx : forall b0 : Block,
      id (if (atom_fn (id b0) =? fn)%Z
          then mkBlock (id b0) (mem b0) BS_INVALID (refs b0) else b0) = id b0)
      by (intros b0; destruct (atom_fn (id b0) =? fn)%Z; reflexivity).
    rewrite !Hidx in Heq.
    destruct (atom_fn (id by0) =? fn)%Z; [done|]. by apply (HK x y bx0 by0).
Qed.

Lemma later_copies_invalid_run (ops : list op) (bm : t) :
  later_copies_invalid (blocks bm) -> allocs_fresh bm ops ->
  later_copies_invalid (blocks (run bm ops)).
Proof.
  revert bm. induction ops as [|o ops IH]; intros bm HK Hfresh; [done|].
  destruct Hfresh as [Ho Hrest]. cbn [run foldl]. apply IH; [|done].
  by apply later_copies_invalid_step.
Qed.

(** C8, as stated, fails: allocating the same id twice leaves two Pending
    slots with that id ([alloc] warns and goes on). *)
Lemma unique_ids_counterexample :
  ~ (forall ops, unique_ids (run (init 4096 65536) ops)).
Proof.
  intros H.
  specialize (H [OAlloc (mkBlockId 1 0); OAlloc (mkBlockId 1 0)] 0 1
                (mkBlock (mkBlockId 1 0) 4096 BS_PENDING 0)
                (mkBlock (mkBlockId 1 0) (4096 + 65536) BS_PENDING 0)).
  vm_compute in H. by specialize (H ltac:(lia) eq_refl eq_refl ltac:(done) ltac:(done)).
Qed.

(** The same happens without a second [alloc] of a live id: after
    [invalidate] the id stays in its slot, a new [alloc] of it takes the
    next slot, and [mark_completed] then revives the stale first copy. *)
Example unique_ids_stale_copy :
  let ops := [OAlloc (mkBlockId 1 0); OMarkCompleted (mkBlockId 1 0);
              OInvalidate 1; OAlloc (mkBlockId 1 0);
              OMarkCompleted (mkBlockId 1 0)] in
  take 2 (blocks (run (init 4096 65536) ops)) =
    [mkBlock (mkBlockId 1 0) 4096 BS_COMPLETE 0;
     mkBlock (mkBlockId 1 0) (4096 + 65536) BS_PENDING 0].
Proof. vm_compute. reflexivity. Qed.

(** C8, amended: when every [alloc] of the sequence is for an id that no
    slot carries at that moment (the call does not warn that the block is
    already in the list), no two slots that are Pending or Complete carry
    the same id. *)
Theorem unique_ids_when_allocs_fresh (pool_base fbs : Z) (ops : list op) :
  allocs_fresh (init pool_base fbs) ops ->
  unique_ids (run (init pool_base fbs) ops).
Proof.
  intros Hfresh. apply later_copies_invalid_unique, later_copies_invalid_run;
    [apply later_copies_invalid_init | done].
Qed.

Lemma unique_ids_when_allocs_fresh_witness :
  unique_ids (run (init 4096 65536)
                  [OAlloc (mkBlockId 1 0); OMarkCompleted (mkBlockId 1 0);
                   OFind (mkBlockId 1 0); ORelease (mkBlockId 1 0);
                   OInvalidate 1; OAlloc (mkBlockId 2 7)]).
Proof.
  apply (unique_ids_when_allocs_fresh 4096 65536).
  cbn [allocs_fresh].
  repeat split; intros b Hb; vm_compute in Hb;
    repeat (apply elem_of_cons in Hb as [->|Hb]; [vm_compute; reflexivity|]);
    by apply elem_of_nil in Hb.
Defined.

End BlockMgrFacts.

(* ===================================================================== *)
(** * Properties of the extant buffer manager *)
(* ===================================================================== *)

Module ExtantBufMgrFacts.
Import ExtantBufMgr.

Section Width.

Context {pw : PtrWidth}.

Lemma ptr_bits_ge_32 : 32 <= ptr_bits.
Proof. unfold ptr_bits. destruct ptr_bytes_4_8 as [-> | ->]; lia. Qed.

Lemma uptr_small (x : Z) : 0 <= x < 2 ^ ptr_bits -> uptr x = x.
Proof. intros Hx. unfold uptr. by apply Z.mod_small. Qed.

(** Where the end of an entry wraps, no address is inside the entry. *)
Lemma matches_wrapped (b sz fn r ep x : Z) :
  0 <= b < 2 ^ ptr_bits -> 0 <= sz < 2 ^ ptr_bits -> 2 ^ ptr_bits <= b + sz ->
  matches (mkExtantBuf b sz fn r ep) x = false.
Proof.
  intros Hb Hsz Hend. unfold matches; cbn [buf size].
  assert (Hw : uptr (b + sz) = b + sz - 2 ^ ptr_bits).
  { unfold uptr. symmetry. apply (Z.mod_unique_pos _ _ 1); lia. }
  rewrite Hw. destruct (Z.leb_spec b x); [|done]. cbn [andb]. apply Z.ltb_ge. lia.
Qed.

(** So a buffer registered with a size that carries its end past the top
    of the address space cannot be released: [find_and_remove] on its own
    address reports a double free. *)
Lemma wrapped_buffer_not_found (b sz fn : Z) (ll : bool) :
  0 < b < 2 ^ ptr_bits -> 0 < sz < 2 ^ ptr_bits -> 2 ^ ptr_bits <= b + sz ->
  find_and_remove (add init b sz fn ll).1 b
  = (None, (add init b sz fn ll).1,
     ["buf is not on extant list! double free?"%string]).
Proof.
  intros Hb Hsz Hend.
  assert (Hadd : extant_bufs (add init b sz fn ll).1
                 = [mkExtantBuf b sz fn 1 (if ll then 0 else 1)]).
  { unfold add, init. cbn. by destruct (Z.eqb_spec sz 0); [lia|]. }
  unfold find_and_remove. rewrite Hadd.
  assert (Hnone : list_find (fun eb => matches eb b)
                    [mkExtantBuf b sz fn 1 (if ll then 0 else 1)] = None).
  { apply list_find_None. constructor; [|constructor].
    intros HP. apply Is_true_true in HP. by rewrite matches_wrapped in HP by lia. }
  rewrite Hnone. unfold assert_nonnull. by destruct (Z.eqb_spec b 0); [lia|].
Qed.

Lemma matches_own (b sz1 fn r ep x : Z) :
  0 <= b -> b + sz1 < 2 ^ ptr_bits ->
  b <= x < b + sz1 -> matches (mkExtantBuf b sz1 fn r ep) x = true.
Proof.
  intros Hb Hend Hx. unfold matches; cbn [buf size].
  rewrite uptr_small by lia. apply andb_true_iff. split; lia.
Qed.

Lemma owns_find (st : t) (i : nat) (b sz1 r x : Z) :
  owns st i b sz1 r -> b <= x < b + sz1 ->
  exists fn ep,
    list_find (fun eb => matches eb x) (extant_bufs st)
      = Some (i, mkExtantBuf b sz1 fn r ep).
Proof.
  intros ([Hb Hend] & (fn & ep & Hi) & Hother) Hx. exists fn, ep.
  apply list_find_Some. split; [done|]. split.
  - apply Is_true_true. by apply matches_own.
  - intros j eb Hj Hlt HP. apply Is_true_true in HP.
    rewrite (Hother j eb x) in HP; [done|lia|done..].
Qed.

Lemma owns_update (st : t) (i : nat) (b sz1 r r' fn ep ce : Z) :
  owns st i b sz1 r ->
  owns (mkMgr (<[i := mkExtantBuf b sz1 fn r' ep]> (extant_bufs st)) ce) i b sz1 r'.
Proof.
  intros (Hrange & (fn0 & ep0 & Hi) & Hother). split; [done|]. split; cbn [extant_bufs].
  - exists fn, ep. apply list_lookup_insert_eq. by eapply lookup_lt_Some.
  - intros j eb x Hj Hl Hx. rewrite list_lookup_insert_ne in Hl by done. eauto.
Qed.








End Width.

(** ** On a build with 8-byte pointers *)

#[local] Existing Instance lp64.


End ExtantBufMgrFacts.

(* ===================================================================== *)
(** * The links of a freelist and the sequence they spell out *)
(* ===================================================================== *)

Module FreelistLinksFacts.
Import FreelistLinks.

Lemma get_insert_eq (m : gmap Z Links) (a : Z) (v : Links) : get (<[a := v]> m) a = v.
Proof. unfold get. by rewrite lookup_insert_eq. Qed.

Lemma get_insert_ne (m : gmap Z Links) (a b : Z) (v : Links) :
  a <> b -> get (<[a := v]> m) b = get m b.
Proof. intros Hne. unfold get. by rewrite lookup_insert_ne. Qed.

Lemma get_set_next (m : gmap Z Links) (a v b : Z) :
  get (set_next m a v) b
  = if decide (b = a) then mkLinks (prev (get m a)) v else get m b.
Proof.
  unfold set_next. destruct (decide (b = a)) as [->|Hne].
  - apply get_insert_eq.
  - by apply get_insert_ne.
Qed.

Lemma get_set_prev (m : gmap Z Links) (a v b : Z) :
  get (set_prev m a v) b
  = if decide (b = a) then mkLinks v (next (get m a)) else get m b.
Proof.
  unfold set_prev. destruct (decide (b = a)) as [->|Hne].
  - apply get_insert_eq.
  - by apply get_insert_ne.
Qed.

(** A chain only depends on its own nodes. *)
Lemma is_chain_frame (m m' : gmap Z Links) (l : list Z) :
  forall from cur,
    (forall x, x ∈ l -> get m' x = get m x) ->
    is_chain m from cur l -> is_chain m' from cur l.
Proof.
  induction l as [|a l IH]; intros from cur Hsame; cbn; [done|].
  intros (-> & Hnz & Hprev & Hrest).
  rewrite (Hsame a) by (by left). repeat split; [done..|].
  apply IH; [|done]. intros x Hx. apply Hsame. by right.
Qed.

Lemma is_chain_nonzero (m : gmap Z Links) (l : list Z) :
  forall from cur, is_chain m from cur l -> 0 ∉ l.
Proof.
  induction l as [|a l IH]; intros from cur; cbn; [intros _; apply not_elem_of_nil|].
  intros (-> & Hnz & _ & Hrest). apply not_elem_of_cons. split; [done|]. eauto.
Qed.

(** Following [next] visits the chain, and enough steps reach its end. *)
Lemma walk_is_chain (m : gmap Z Links) (l : list Z) :
  forall from cur (fuel : nat),
    is_chain m from cur l -> (length l < fuel)%nat -> walk fuel m cur = l.
Proof.
  induction l as [|a l IH]; intros from cur fuel; cbn [is_chain length].
  - intros -> Hfuel. destruct fuel; [lia|done].
  - intros (-> & Hnz & _ & Hrest) Hfuel. destruct fuel as [|fuel]; [lia|].
    cbn [walk]. destruct (Z.eqb_spec a 0); [done|]. f_equal.
    eapply IH; [done|lia].
Qed.

Lemma insert_after_walk_perm (h : Z) (l : list Z) :
  CacheAllocator.insert_after_walk h l ≡ₚ h :: l.
Proof.
  induction l as [|a l IH]; cbn; [done|].
  destruct (h <=? a); [|done]. rewrite IH. apply Permutation_swap.
Qed.

Lemma unlink_sublist (h : Z) (l : list Z) : sublist (CacheAllocator.unlink h l) l.
Proof.
  induction l as [|a l IH]; cbn; [done|].
  destruct (a =? h); [by apply sublist_cons | by apply sublist_skip].
Qed.

(** [freelist_add] on the chain that starts after [from]. *)
Lemma freelist_add_from (m : gmap Z Links) (header : Z) (l : list Z) :
  forall (from : Z) (fuel : nat),
    header <> 0 -> NoDup (from :: l) -> header ∉ from :: l ->
    is_chain m from (next (get m from)) l -> (length l < fuel)%nat ->
    let m' := freelist_add_links fuel m from header in
    is_chain m' from (next (get m' from)) (CacheAllocator.insert_after_walk header l)
    /\ prev (get m' from) = prev (get m from)
    /\ forall x, x <> header -> x ∉ from :: l -> get m' x = get m x.
Proof.
  induction l as [|a l IH]; intros from fuel Hh Hnd Hnotin Hch Hfuel.
  - cbn [is_chain] in Hch. destruct fuel as [|fuel]; [cbn in Hfuel; lia|].
    apply not_elem_of_cons in Hnotin as [Hhf _].
    unfold freelist_add_links. cbn [find_prev]. rewrite !Hch. cbn [Z.eqb negb andb].
    cbn zeta. rewrite !Hch. cbn [Z.eqb negb]. rewrite get_set_next, decide_True by done.
    rewrite (get_insert_ne _ header from) by done.
    cbn [next prev CacheAllocator.insert_after_walk is_chain].
    split_and!; [done|done| | |done|].
    + rewrite get_set_next, decide_False, get_insert_eq by done. done.
    + rewrite get_set_next, decide_False, get_insert_eq by done. done.
    + intros x Hxh Hx. apply not_elem_of_cons in Hx as [Hxf _].
      rewrite get_set_next, decide_False, get_insert_ne by done. done.
  - cbn [is_chain] in Hch. destruct Hch as (Hnext & Hnz & Hprev & Hrest).
    destruct fuel as [|fuel]; [cbn in Hfuel; lia|]. cbn [length] in Hfuel.
    apply NoDup_cons in Hnd as [Hfl Hnd].
    apply not_elem_of_cons in Hfl as [Hfa Hfl].
    apply not_elem_of_cons in Hnotin as [Hhf Hnotin].
    pose proof Hnd as Hnd'. apply NoDup_cons in Hnd' as [Hal Hndl].
    pose proof Hnotin as Hnotin'. apply not_elem_of_cons in Hnotin' as [Hha Hhl].
    cbn [CacheAllocator.insert_after_walk].
    destruct (Z.leb_spec header a) as [Hle|Hgt].
    + assert (Hstep : freelist_add_links (S fuel) m from header = freelist_add_links fuel m a header).
      { unfold freelist_add_links. cbn [find_prev]. rewrite !Hnext.
        destruct (Z.eqb_spec a 0); [done|]. cbn [negb andb].
        destruct (Z.leb_spec header a); [done|lia]. }
      cbn zeta. rewrite Hstep.
      destruct (IH a fuel Hh Hnd Hnotin Hrest ltac:(lia)) as (Hch' & Hprev' & Hframe).
      assert (Hfrom : get (freelist_add_links fuel m a header) from = get m from).
      { apply Hframe; [done|]. apply not_elem_of_cons. done. }
      rewrite Hfrom, Hnext. cbn [is_chain]. repeat split; [done| |done|].
      * by rewrite Hprev'.
      * intros x Hxh Hx. apply not_elem_of_cons in Hx as [_ Hx]. by apply Hframe.
    + unfold freelist_add_links. cbn [find_prev]. rewrite !Hnext.
      destruct (Z.eqb_spec a 0); [done|]. cbn [negb andb].
      destruct (Z.leb_spec header a); [lia|]. cbn zeta. rewrite !Hnext.
      destruct (Z.eqb_spec a 0); [done|]. cbn [negb].
      set (m1 := <[header := mkLinks from a]> m).
      set (m2 := set_prev m1 a header).
      assert (Hg : forall x, x <> header -> x <> a -> x <> from ->
                get (set_next m2 from header) x = get m x).
      { intros x ? ? ?. rewrite get_set_next, decide_False by done.
        unfold m2. rewrite get_set_prev, decide_False by done.
        unfold m1. by rewrite get_insert_ne. }
      assert (Hgf : get (set_next m2 from header) from
                    = mkLinks (prev (get m from)) header).
      { rewrite get_set_next, decide_True by done. f_equal.
        unfold m2. rewrite get_set_prev, decide_False by done.
        unfold m1. by rewrite get_insert_ne. }
      assert (Hgh : get (set_next m2 from header) header = mkLinks from a).
      { rewrite get_set_next, decide_False by done.
        unfold m2. rewrite get_set_prev, decide_False by done.
        unfold m1. by rewrite get_insert_eq. }
      assert (Hga : get (set_next m2 from header) a
                    = mkLinks header (next (get m a))).
      { rewrite get_set_next, decide_False by done.
        unfold m2. rewrite get_set_prev, decide_True by done.
        unfold m1. by rewrite get_insert_ne. }
      rewrite Hgf. cbn [next prev is_chain]. rewrite Hgh, Hga. cbn [next prev].
      repeat split; [done..| |].
      * eapply is_chain_frame; [|exact Hrest]. intros x Hx.
        apply Hg; intros ->; done.
      * intros x Hxh Hx. apply not_elem_of_cons in Hx as [Hxf Hx].
        apply not_elem_of_cons in Hx as [Hxa _]. by apply Hg.
Qed.

(** [freelist_remove] of a node of the chain that starts after [from]. *)
Lemma freelist_remove_from {pw : PtrWidth} (m : gmap Z Links) (header : Z)
    (l : list Z) :
  forall (from : Z),
    from <> 0 -> NoDup (from :: l) -> header ∈ l ->
    is_chain m from (next (get m from)) l ->
    let m' := freelist_remove_links m header in
    is_chain m' from (next (get m' from)) (CacheAllocator.unlink header l)
    /\ prev (get m' from) = prev (get m from)
    /\ forall x, x ∉ from :: l -> get m' x = get m x.
Proof.
  induction l as [|a l IH]; intros from Hfz Hnd Hin Hch.
  - by apply elem_of_nil in Hin.
  - cbn [is_chain] in Hch. destruct Hch as (Hnext & Hnz & Hprev & Hrest).
    apply NoDup_cons in Hnd as [Hfl Hnd].
    apply not_elem_of_cons in Hfl as [Hfa Hfl].
    pose proof Hnd as Hnd'. apply NoDup_cons in Hnd' as [Hal Hndl].
    cbn [CacheAllocator.unlink].
    destruct (Z.eqb_spec a header) as [->|Hne].
    + clear Hin IH. cbn zeta. unfold freelist_remove_links. rewrite Hprev.
      set (n := next (get m header)) in *.
      set (m1 := set_next m from n).
      assert (Hzl := is_chain_nonzero _ _ _ _ Hrest).
      destruct l as [|b l].
      * cbn [is_chain] in Hrest. rewrite Hrest. cbn [Z.eqb negb].
        rewrite get_insert_ne by done. unfold m1.
        rewrite get_set_next, decide_True by done. cbn [next prev is_chain].
        repeat split; [done..|]. intros x Hx.
        apply not_elem_of_cons in Hx as [Hxf Hx].
        apply not_elem_of_cons in Hx as [Hxh _].
        rewrite get_insert_ne by done. unfold m1.
        by rewrite get_set_next, decide_False.
      * cbn [is_chain] in Hrest. destruct Hrest as (Hn & Hbz & Hbprev & Hrest).
        destruct (Z.eqb_spec n 0); [congruence|]. cbn [negb].
        apply not_elem_of_cons in Hfl as [Hfb Hfl].
        apply not_elem_of_cons in Hal as [Hhb Hhl].
        apply NoDup_cons in Hndl as [Hbl Hndl].
        assert (Hg : forall x, x <> header -> x <> b -> x <> from ->
                  get (<[header := mkLinks wiped_ptr wiped_ptr]>
                         (set_prev m1 n from)) x = get m x).
        { intros x ? ? ?. rewrite get_insert_ne by done.
          rewrite get_set_prev, decide_False by congruence.
          unfold m1. by rewrite get_set_next, decide_False. }
        assert (Hgf : get (<[header := mkLinks wiped_ptr wiped_ptr]>
                             (set_prev m1 n from)) from
                      = mkLinks (prev (get m from)) n).
        { rewrite get_insert_ne by done.
          rewrite get_set_prev, decide_False by congruence.
          unfold m1. by rewrite get_set_next, decide_True. }
        assert (Hgb : get (<[header := mkLinks wiped_ptr wiped_ptr]>
                             (set_prev m1 n from)) b
                      = mkLinks from (next (get m b))).
        { rewrite get_insert_ne by done.
          rewrite get_set_prev, decide_True by congruence. f_equal.
          unfold m1. rewrite get_set_next, decide_False by congruence.
          by rewrite Hn. }
        rewrite Hgf. cbn [next prev is_chain]. rewrite Hgb. cbn [next prev].
        repeat split; [done..| |].
        -- eapply is_chain_frame; [|exact Hrest]. intros x Hx.
           apply Hg; intros ->; done.
        -- intros x Hx. apply not_elem_of_cons in Hx as [Hxf Hx].
           apply not_elem_of_cons in Hx as [Hxh Hx].
           apply not_elem_of_cons in Hx as [Hxb _]. by apply Hg.
    + apply elem_of_cons in Hin as [->|Hin]; [done|].
      destruct (IH a Hnz Hnd Hin Hrest) as (Hch' & Hprev' & Hframe).
      cbn zeta in *.
      assert (Hfrom : get (freelist_remove_links m header) from = get m from).
      { apply Hframe. apply not_elem_of_cons. done. }
      rewrite Hfrom, Hnext. cbn [is_chain]. repeat split; [done| |done|].
      * by rewrite Hprev'.
      * intros x Hx. apply not_elem_of_cons in Hx as [_ Hx]. by apply Hframe.
Qed.

(** The walk from the sentinel visits the list. *)
Lemma walk_chain (m : gmap Z Links) (sentinel : Z) (l : list Z) (fuel : nat) :
  chain m sentinel l -> (length l < fuel)%nat ->
  walk fuel m (next (get m sentinel)) = l.
Proof. intros (_ & _ & Hch) Hfuel. by eapply walk_is_chain. Qed.

(** The assignments of [freelist_add] turn the list [l] into
    [insert_after_walk header l]. *)
Lemma freelist_add_chain (m : gmap Z Links) (sentinel header : Z) (l : list Z)
    (fuel : nat) :
  chain m sentinel l -> header <> 0 -> header ∉ sentinel :: l ->
  (length l < fuel)%nat ->
  chain (freelist_add_links fuel m sentinel header) sentinel
        (CacheAllocator.insert_after_walk header l).
Proof.
  intros (Hsz & Hnd & Hch) Hh Hnotin Hfuel.
  destruct (freelist_add_from m header l sentinel fuel Hh Hnd Hnotin Hch Hfuel)
    as (Hch' & _ & _).
  split; [done|]. split; [|done].
  apply NoDup_cons in Hnd as [Hsl Hnd].
  apply not_elem_of_cons in Hnotin as [Hhs Hhl].
  apply NoDup_cons. split.
  - rewrite insert_after_walk_perm. apply not_elem_of_cons. split; [congruence|done].
  - rewrite insert_after_walk_perm. by apply NoDup_cons.
Qed.

(** The pattern of the wipe on the two builds: 0xEEEEEEEE and
    0xEEEEEEEEEEEEEEEE. *)
Lemma wiped_ptr_builds :
  @wiped_ptr ilp32 = 4008636142 /\ @wiped_ptr lp64 = 17216961135462248174.
Proof. split; reflexivity. Qed.

(** The assignments of [freelist_remove] turn the list [l] into
    [unlink header l]. *)
Lemma freelist_remove_chain {pw : PtrWidth} (m : gmap Z Links)
    (sentinel header : Z) (l : list Z) :
  chain m sentinel l -> header ∈ l ->
  chain (freelist_remove_links m header) sentinel (CacheAllocator.unlink header l).
Proof.
  intros (Hsz & Hnd & Hch) Hin.
  destruct (freelist_remove_from m header l sentinel Hsz Hnd Hin Hch) as (Hch' & _ & _).
  split; [done|]. split; [|done].
  apply (sublist_NoDup _ (sentinel :: l) Hnd), sublist_skip, unlink_sublist.
Qed.

End FreelistLinksFacts.

(* ===================================================================== *)
(** * Properties of the cache allocator *)
(* ===================================================================== *)

Module CacheAllocatorFacts.
Import CacheAllocator.

(** ** Rejected pointers *)





(** ** The bitmap scan of [alloc_from_larger_class] *)

Lemma u32_testbit (x i : Z) :
  0 <= i -> Z.testbit (u32 x) i = Z.testbit x i && (i <? 32).
Proof.
  intros Hi. unfold u32. destruct (Z.ltb_spec i 32).
  - rewrite Z.mod_pow2_bits_low by lia. by rewrite andb_true_r.
  - rewrite Z.mod_pow2_bits_high by lia. by rewrite andb_false_r.
Qed.

Lemma bits_from_testbit (bm k i : Z) :
  0 <= k -> 0 <= i ->
  Z.testbit (bits_from bm k) i = Z.testbit bm i && (k <=? i) && (i <? 32).
Proof.
  intros Hk Hi. unfold bits_from.
  rewrite Z.land_spec, !u32_testbit, Z.shiftl_spec by lia.
  destruct (Z.leb_spec k i).
  - rewrite Z.bits_m1 by lia. by destruct (Z.testbit bm i), (i <? 32).
  - rewrite (Z.testbit_neg_r (-1)) by lia. by destruct (Z.testbit bm i), (i <? 32).
Qed.

Lemma bits_from_skip (bm k : Z) :
  0 <= k -> Z.testbit bm k = false -> bits_from bm k = bits_from bm (k + 1).
Proof.
  intros Hk Hbit. apply Z.bits_inj'. intros i Hi.
  rewrite !bits_from_testbit by lia.
  destruct (Z.eq_dec i k) as [->|Hne].
  - rewrite Hbit. done.
  - do 2 f_equal. destruct (Z.leb_spec k i), (Z.leb_spec (k + 1) i); lia || done.
Qed.

Lemma bits_from_end (bm k : Z) : 32 <= k -> bits_from bm k = 0.
Proof.
  intros Hk. apply Z.bits_inj'. intros i Hi.
  rewrite bits_from_testbit, Z.bits_0 by lia.
  destruct (Z.leb_spec k i), (Z.ltb_spec i 32); lia || by rewrite ?andb_false_r.
Qed.

(** An odd number shares only bit 0 with its negation. *)
Lemma land_odd_opp (q : Z) : Z.land (2 * q + 1) (- (2 * q + 1)) = 1.
Proof.
  replace (- (2 * q + 1)) with (2 * Z.lnot q + 1) by (unfold Z.lnot; lia).
  apply Z.bits_inj'. intros i Hi. rewrite Z.land_spec.
  destruct (Z.eq_dec i 0) as [->|Hne].
  - by rewrite !Z.testbit_odd_0.
  - assert (exists j, i = Z.succ j /\ 0 <= j) as (j & -> & Hj) by (exists (i - 1); lia).
    rewrite !Z.testbit_odd_succ, Z.lnot_spec by lia.
    change (Z.testbit 1 (Z.succ j)) with (Z.testbit (2 * 0 + 1) (Z.succ j)).
    rewrite Z.testbit_odd_succ, Z.bits_0 by lia. apply andb_negb_r.
Qed.

(** [LS1] of a 32-bit value whose lowest set bit is [k] is [2^k]. *)
Lemma LS1_lowest (x k : Z) :
  0 <= k < 32 -> 0 <= x < 2 ^ 32 ->
  Z.testbit x k = true -> (forall i, 0 <= i < k -> Z.testbit x i = false) ->
  LS1 x = 2 ^ k.
Proof.
  intros Hk Hx Hbit Hlow. unfold LS1.
  assert (Hsh : x = Z.shiftl (Z.shiftr x k) k).
  { apply Z.bits_inj'. intros i Hi. rewrite Z.shiftl_spec by lia.
    destruct (Z.lt_ge_cases i k).
    - rewrite (Z.testbit_neg_r (Z.shiftr x k)) by lia. apply Hlow. lia.
    - rewrite Z.shiftr_spec by lia. f_equal. lia. }
  assert (Hodd : Z.odd (Z.shiftr x k) = true).
  { rewrite <- Z.bit0_odd, Z.shiftr_spec by lia. done. }
  apply Z.odd_spec in Hodd as [q Hq].
  assert (Hland : Z.land x (- x) = 2 ^ k).
  { rewrite Hsh at 1 2. rewrite Hq.
    replace (- Z.shiftl (2 * q + 1) k) with (Z.shiftl (- (2 * q + 1)) k)
      by (rewrite !Z.shiftl_mul_pow2 by lia; lia).
    rewrite <- Z.shiftl_land, land_odd_opp, Z.shiftl_mul_pow2 by lia. lia. }
  rewrite <- Hland. apply Z.bits_inj'. intros i Hi.
  rewrite !Z.land_spec, u32_testbit by lia.
  destruct (Z.ltb_spec i 32); [by rewrite andb_true_r|].
  assert (Z.testbit x i = false) as ->; [|done].
  destruct (Z.eq_dec x 0) as [->|]; [apply Z.bits_0|].
  apply Z.bits_above_log2; [lia|].
  assert (Z.log2 x < 32) by (apply Z.log2_lt_pow2; lia). lia.
Qed.

Lemma bits_from_range (bm k : Z) : 0 <= k -> 0 <= bits_from bm k < 2 ^ 32.
Proof.
  intros Hk.
  assert (Hu : bits_from bm k = u32 (bits_from bm k)).
  { apply Z.bits_inj'. intros i Hi. rewrite u32_testbit, bits_from_testbit by lia.
    by destruct (Z.testbit bm i), (k <=? i), (i <? 32). }
  rewrite Hu. unfold u32. apply Z.mod_pos_bound. lia.
Qed.

Lemma bits_from_step (bm k : Z) :
  0 <= k < 32 -> Z.testbit bm k = true ->
  bits_from bm k <> 0
  /\ LS1 (bits_from bm k) = 2 ^ k
  /\ Z.land (bits_from bm k) (u32 (Z.lnot (2 ^ k))) = bits_from bm (k + 1).
Proof.
  intros Hk Hbit.
  assert (Hbk : Z.testbit (bits_from bm k) k = true).
  { rewrite bits_from_testbit, Hbit by lia.
    destruct (Z.leb_spec k k), (Z.ltb_spec k 32); lia || done. }
  split; [|split].
  - intros H0. rewrite H0, Z.bits_0 in Hbk. done.
  - apply LS1_lowest; [lia | apply bits_from_range; lia | done |].
    intros i Hi. rewrite bits_from_testbit by lia.
    destruct (Z.leb_spec k i); [lia|]. by rewrite andb_false_r.
  - apply Z.bits_inj'. intros i Hi.
    rewrite Z.land_spec, u32_testbit, Z.lnot_spec, Z.pow2_bits_eqb,
      !bits_from_testbit by lia.
    destruct (Z.eqb_spec k i) as [<-|Hne].
    + destruct (Z.leb_spec (k + 1) k); [lia|]. by rewrite !andb_false_r.
    + destruct (Z.leb_spec k i), (Z.leb_spec (k + 1) i), (Z.ltb_spec i 32);
        try lia; by rewrite ?andb_true_r, ?andb_false_r.
Qed.

Lemma size_class_of_pow2 (k : Z) : 0 <= k < 32 -> size_class_of (2 ^ k) = k.
Proof.
  intros Hk. unfold size_class_of, log2, u32.
  rewrite Z.mod_small; [apply Z.log2_pow2; lia|].
  split; [lia|]. apply Z.pow_lt_mono_r; lia.
Qed.

Lemma size_class_range (s : Z) : 0 <= size_class_of s < 32.
Proof.
  unfold size_class_of, log2, u32.
  assert (0 <= s mod 2 ^ 32 < 2 ^ 32) by (apply Z.mod_pos_bound; lia).
  split; [apply Z.log2_nonneg|].
  destruct (Z.eq_dec (s mod 2 ^ 32) 0) as [->|]; [done|].
  apply Z.log2_lt_pow2; lia.
Qed.

(** The loop visits the classes at or above [k] whose bit is set, lowest
    first, and 32 passes are enough for it. *)
Lemma larger_class_loop_spec (st : t) (bm size_pa : Z) (n : nat) :
  forall (k : Z) (fuel : nat),
    0 <= k -> k + Z.of_nat n = 32 -> (n <= fuel)%nat ->
    larger_class_loop fuel st (bits_from bm k) size_pa
    = first_success st size_pa
        (filter (fun c => Z.testbit bm c) (seqZ k (Z.of_nat n))).
Proof.
  induction n as [|n IH]; intros k fuel Hk Hn Hfuel.
  - rewrite bits_from_end by lia. cbn. by destruct fuel.
  - rewrite seqZ_cons by lia.
    replace (Z.pred (Z.of_nat (S n))) with (Z.of_nat n) by lia.
    replace (Z.succ k) with (k + 1) by lia.
    destruct (Z.testbit bm k) eqn:Hbit.
    + rewrite filter_cons_True by (by apply Is_true_true).
      destruct fuel as [|fuel]; [lia|].
      destruct (bits_from_step bm k ltac:(lia) Hbit) as (Hne & Hls & Hclear).
      cbn [larger_class_loop first_success].
      destruct (Z.eqb_spec (bits_from bm k) 0); [done|].
      rewrite Hls, Hclear, size_class_of_pow2 by lia.
      destruct (alloc_from_class st k size_pa); [done|].
      apply IH; lia.
    + rewrite filter_cons_False by (by apply Is_true_false).
      rewrite bits_from_skip by (lia || done). apply IH; lia.
Qed.

(** ** The strategies of [alloc], one by one *)

Lemma first_fit_first (st : t) (size_pa : Z) (l : list Z) (cur : Z) :
  first_fit st size_pa l = Some cur -> is_first_fit st size_pa l cur.
Proof.
  unfold first_fit, is_first_fit, no_fit, free_size.
  induction l as [|a l IH]; cbn [List.find]; [done|].
  destruct (Z.leb_spec size_pa (h_size_pa (read_header st a))) as [Hle|Hlt].
  - intros [= ->]. exists [], l. split; [done|]. split; [constructor|done].
  - intros Hf. destruct (IH Hf) as (before & after & -> & Hno & Hfit).
    exists (a :: before), after. split; [done|]. split; [|done].
    by constructor.
Qed.

Lemma first_fit_none (st : t) (size_pa : Z) (l : list Z) :
  first_fit st size_pa l = None -> no_fit st size_pa l.
Proof.
  unfold first_fit, no_fit, free_size.
  induction l as [|a l IH]; cbn [List.find]; [constructor|].
  destruct (Z.leb_spec size_pa (h_size_pa (read_header st a))) as [Hle|Hlt]; [done|].
  intros Hf. constructor; [done|by apply IH].
Qed.

Lemma unlink_removed_from (node : Z) (l : list Z) :
  removed_from node l (unlink node l).
Proof.
  induction l as [|a l IH]; cbn [unlink].
  - left. split; [apply not_elem_of_nil|done].
  - destruct (Z.eqb_spec a node) as [->|Hne].
    + right. exists [], l. split; [done|]. split; [apply not_elem_of_nil|done].
    + destruct IH as [[Hnot ->]|(before & after & -> & Hnot & ->)].
      * left. split; [|done]. apply not_elem_of_cons. split; [congruence|done].
      * right. exists (a :: before), after. split; [done|]. split; [|done].
        apply not_elem_of_cons. split; [congruence|done].
Qed.

Lemma insert_after_walk_inserted_in (node : Z) (l : list Z) :
  inserted_in node l (insert_after_walk node l).
Proof.
  induction l as [|a l IH]; cbn [insert_after_walk].
  - exists [], []. split; [done|]. split; [done|]. split; [constructor|done].
  - destruct (Z.leb_spec node a) as [Hle|Hlt].
    + destruct IH as (before & after & Hl & Hl' & Hall & Hnext).
      exists (a :: before), after. rewrite Hl', Hl at 1.
      split; [done|]. split; [done|]. split; [by constructor|done].
    + exists [], (a :: l). split; [done|]. split; [done|]. split; [constructor|lia].
Qed.

Lemma size_class_of_is_class (s : Z) :
  0 < s < 2 ^ 32 -> is_class_of s (size_class_of s).
Proof.
  intros Hs. unfold is_class_of, size_class_of, log2, u32.
  rewrite Z.mod_small by lia. split; [apply Z.log2_nonneg|].
  pose proof (Z.log2_spec s ltac:(lia)) as Hl.
  replace (Z.log2 s + 1) with (Z.succ (Z.log2 s)) by lia. exact Hl.
Qed.

Lemma size_pa_of_positive (size : Z) : 0 <= size -> 0 < size_pa_of size.
Proof.
  intros Hs. unfold size_pa_of, round_up, BUF_ALIGN, KiB.
  assert (1 <= ((if size =? 0 then 1 else size) + 4 * 1024 - 1) / (4 * 1024)); [|lia].
  apply Z.div_le_lower_bound; [lia|]. destruct (Z.eqb_spec size 0); lia.
Qed.

Lemma alloc_from_class_none (st : t) (c size_pa : Z) :
  alloc_from_class st c size_pa = None -> no_fit st size_pa (freelists st c).
Proof.
  unfold alloc_from_class.
  destruct (first_fit st size_pa (freelists st c)) as [cur|] eqn:Hf; [done|].
  intros _. by apply first_fit_none.
Qed.

(** [alloc_from_class] is the first fit with the split. *)
Lemma alloc_from_class_served (st : t) (c size_pa p : Z) (st' : t) :
  sizes_fit_uint st -> 0 < size_pa ->
  alloc_from_class st c size_pa = Some (p, st') ->
  served_from_class st size_pa c p st'.
Proof.
  intros Hu Hpos. unfold alloc_from_class.
  destruct (first_fit st size_pa (freelists st c)) as [cur|] eqn:Hf; [|done].
  pose proof (first_fit_first _ _ _ _ Hf) as Hfirst.
  assert (Hin : cur ∈ freelists st c).
  { destruct Hfirst as (before & after & -> & _).
    apply elem_of_app. right. by left. }
  assert (Hle : size_pa <= free_size st cur)
    by (by destruct Hfirst as (? & ? & _ & _ & ?)).
  pose proof (Hu c cur Hin) as Hlt.
  change (h_size_pa (read_header st cur)) with (free_size st cur).
  intros [= <- <-]. split; [exact Hfirst|]. split.
  { by destruct (free_size st cur - size_pa =? 0). }
  exists (fun k => unlink cur (freelists st k)).
  split; [intros k; apply unlink_removed_from|]. split.
  - intros Heq. rewrite Heq, Z.sub_diag. done.
  - intros Hgt. destruct (Z.eqb_spec (free_size st cur - size_pa) 0) as [|Hne]; [lia|].
    exists (size_class_of (free_size st cur - size_pa)).
    split; [apply size_class_of_is_class; lia|]. split; [|split].
    + cbn [freelist_add freelists freelist_remove]. rewrite Z.eqb_refl.
      apply insert_after_walk_inserted_in.
    + intros k Hk. cbn [freelist_add freelists freelist_remove].
      by destruct (Z.eqb_spec k (size_class_of (free_size st cur - size_pa))).
    + unfold free_size at 1, read_header. cbn [freelist_add headers].
      by rewrite lookup_insert_eq.
Qed.

(** The walk over the classes from [k] on whose bit is set stops at the
    lowest of them in which [alloc_from_class] succeeds. *)
Lemma first_success_lowest (st : t) (bm size_pa : Z) (n : nat) :
  forall k, 0 <= k ->
    match first_success st size_pa
            (filter (fun c => Z.testbit bm c) (seqZ k (Z.of_nat n))) with
    | Some r =>
        exists c, k <= c < k + Z.of_nat n /\ Z.testbit bm c = true
          /\ alloc_from_class st c size_pa = Some r
          /\ forall j, k <= j < c -> Z.testbit bm j = true ->
               alloc_from_class st j size_pa = None
    | None =>
        forall j, k <= j < k + Z.of_nat n -> Z.testbit bm j = true ->
          alloc_from_class st j size_pa = None
    end.
Proof.
  induction n as [|n IH]; intros k Hk.
  - cbn. intros j Hj. lia.
  - rewrite seqZ_cons by lia.
    replace (Z.pred (Z.of_nat (S n))) with (Z.of_nat n) by lia.
    replace (Z.succ k) with (k + 1) by lia.
    specialize (IH (k + 1) ltac:(lia)).
    destruct (Z.testbit bm k) eqn:Hbit.
    + rewrite filter_cons_True by (by apply Is_true_true).
      cbn [first_success].
      destruct (alloc_from_class st k size_pa) as [r|] eqn:Hk1.
      * exists k. split; [lia|]. split; [done|]. split; [done|]. intros j Hj. lia.
      * destruct (first_success st size_pa _) as [r|].
        -- destruct IH as (c & Hc & Hbc & Hsome & Hbelow).
           exists c. split; [lia|]. split; [done|]. split; [done|].
           intros j Hj Hbj. destruct (Z.eq_dec j k) as [->|]; [done|].
           apply Hbelow; [lia|done].
        -- intros j Hj Hbj. destruct (Z.eq_dec j k) as [->|]; [done|].
           apply IH; [lia|done].
    + rewrite filter_cons_False by (by apply Is_true_false).
      destruct (first_success st size_pa _) as [r|].
      * destruct IH as (c & Hc & Hbc & Hsome & Hbelow).
        exists c. split; [lia|]. split; [done|]. split; [done|].
        intros j Hj Hbj. destruct (Z.eq_dec j k) as [->|]; [congruence|].
        apply Hbelow; [lia|done].
      * intros j Hj Hbj. destruct (Z.eq_dec j k) as [->|]; [congruence|].
        apply IH; [lia|done].
Qed.

Lemma alloc_from_larger_class_bits (st : t) (k size_pa : Z) :
  alloc_from_larger_class st k size_pa
  = larger_class_loop 32 st (bits_from (bitmap st) k) size_pa.
Proof. reflexivity. Qed.

Lemma alloc_from_larger_class_classes (st : t) (k size_pa : Z) :
  0 <= k <= 32 ->
  alloc_from_larger_class st k size_pa
  = first_success st size_pa
      (filter (fun c => Z.testbit (bitmap st) c) (seqZ k (Z.of_nat (Z.to_nat (32 - k))))).
Proof.
  intros Hk. rewrite alloc_from_larger_class_bits.
  apply larger_class_loop_spec; lia.
Qed.

(** C4: for every request whose rounded size fits an [uint] (the size
    class is computed from that cast), on an allocator whose listed sizes do
    as well, [alloc] returns the first success of, in this order: first fit
    in the freelist of the ideal class, the first fitting node being removed
    and any strictly larger remainder split off and put into the list of its
    own class; the bump of the arena's untouched tail; first fit, with the
    same splitting, in the lowest class strictly above the ideal one whose
    bitmap bit is set and whose list has a fit; and failure otherwise.
    ([alloc_from_larger_class] also looks at the ideal class again when its
    bit is set: that search has just failed on the same lists.) *)
Theorem alloc_strategy_order (st : t) (size : Z) :
  0 <= size -> size_pa_of size < 2 ^ 32 -> sizes_fit_uint st ->
  exists ideal,
    is_class_of (size_pa_of size) ideal
    /\ strategies_in_order st (size_pa_of size) ideal (alloc st size).
Proof.
  intros Hsize Hlt Hu.
  pose proof (size_pa_of_positive size Hsize) as Hpos.
  exists (size_class_of (size_pa_of size)).
  split; [apply size_class_of_is_class; lia|].
  unfold alloc. change (round_up (if size =? 0 then 1 else size) BUF_ALIGN)
    with (size_pa_of size).
  set (size_pa := size_pa_of size) in *.
  set (ideal := size_class_of size_pa).
  pose proof (size_class_range size_pa) as Hrange. fold ideal in Hrange.
  destruct (alloc_from_class st ideal size_pa) as [[p st']|] eqn:Hideal.
  { left. by apply alloc_from_class_served. }
  pose proof (alloc_from_class_none _ _ _ Hideal) as Hno.
  destruct (pool_alloc (pool st) size_pa) as [[p pl]|] eqn:Hpool.
  { right. left. split; [done|]. unfold pool_alloc in Hpool.
    destruct (Z.leb_spec (da_pos (pool st) + size_pa) (da_max_size (pool st)));
      [|done].
    injection Hpool as <- <-. by repeat split. }
  assert (Htail : ~ fits_tail st size_pa).
  { unfold fits_tail, pool_alloc in *.
    destruct (Z.leb_spec (da_pos (pool st) + size_pa) (da_max_size (pool st)));
      [done|lia]. }
  rewrite alloc_from_larger_class_classes by lia.
  pose proof (first_success_lowest st (bitmap st) size_pa (Z.to_nat (32 - ideal))
                ideal ltac:(lia)) as Hscan.
  destruct (first_success st size_pa _) as [[p st']|].
  - destruct Hscan as (c & Hc & Hbit & Hsome & Hbelow).
    right. right. split; [done|]. split; [done|].
    assert (c <> ideal) by (intros ->; congruence).
    exists c. split; [lia|]. split; [done|]. split.
    + intros k Hk Hbk. apply alloc_from_class_none, Hbelow; [lia|done].
    + by apply alloc_from_class_served.
  - split; [done|]. split; [done|].
    intros k Hk Hbk. apply alloc_from_class_none, Hscan; [lia|done].
Qed.

End CacheAllocatorFacts.

(* ===================================================================== *)
(** * The invariant of the cache allocator *)
(* ===================================================================== *)

Module CacheAllocatorInv.
Import CacheAllocator.

(** ** The per-class lists *)

Lemma elem_of_unlink (h x : Z) (l : list Z) : x ∈ unlink h l -> x ∈ l.
Proof.
  induction l as [|a l IH]; cbn; [done|].
  destruct (Z.eqb_spec a h); rewrite ?elem_of_cons; intuition.
Qed.

Lemma elem_of_unlink_ne (h x : Z) (l : list Z) : x ∈ l -> x <> h -> x ∈ unlink h l.
Proof.
  induction l as [|a l IH]; cbn; [done|].
  destruct (Z.eqb_spec a h); rewrite !elem_of_cons; intuition congruence.
Qed.

Lemma unlink_sorted (h : Z) (l : list Z) :
  StronglySorted Z.gt l -> StronglySorted Z.gt (unlink h l).
Proof.
  induction 1 as [|a l Hs IH Hall]; cbn; [constructor|].
  destruct (Z.eqb_spec a h); [done|]. constructor; [done|].
  rewrite Forall_forall in *. intros x Hx. by apply Hall, (elem_of_unlink h).
Qed.

Lemma not_elem_of_unlink (h : Z) (l : list Z) :
  StronglySorted Z.gt l -> h ∉ unlink h l.
Proof.
  induction 1 as [|a l Hs IH Hall]; cbn; [by apply not_elem_of_nil|].
  destruct (Z.eqb_spec a h) as [->|Hne].
  - rewrite Forall_forall in Hall. intros Hin. specialize (Hall h Hin). lia.
  - rewrite elem_of_cons. intuition.
Qed.

Lemma elem_of_insert_after_walk (h x : Z) (l : list Z) :
  x ∈ insert_after_walk h l <-> x = h \/ x ∈ l.
Proof.
  induction l as [|a l IH]; cbn.
  - rewrite list_elem_of_singleton, elem_of_nil. tauto.
  - destruct (h <=? a); rewrite !elem_of_cons; rewrite ?IH; tauto.
Qed.

(** Inserting an address that is not yet listed keeps the list strictly
    decreasing. *)
Lemma insert_after_walk_sorted (h : Z) (l : list Z) :
  StronglySorted Z.gt l -> h ∉ l -> StronglySorted Z.gt (insert_after_walk h l).
Proof.
  induction 1 as [|a l Hs IH Hall]; intros Hnotin; cbn.
  - repeat constructor.
  - apply not_elem_of_cons in Hnotin as [Hne Hnotin].
    rewrite Forall_forall in Hall.
    destruct (Z.leb_spec h a).
    + constructor; [by apply IH|]. rewrite Forall_forall. intros x Hx.
      apply elem_of_insert_after_walk in Hx as [->|Hx]; [lia|by apply Hall].
    + constructor; [by constructor; [|rewrite Forall_forall]|].
      rewrite Forall_forall. intros x Hx.
      apply elem_of_cons in Hx as [->|Hx]; [lia|]. specialize (Hall x Hx). lia.
Qed.

Lemma sorted_NoDup (l : list Z) : StronglySorted Z.gt l -> NoDup l.
Proof.
  induction 1 as [|a l Hs IH Hall]; constructor; [|done].
  rewrite Forall_forall in Hall. intros Hin. specialize (Hall a Hin). lia.
Qed.

(** ** Tags in memory *)

Lemma is_valid_tag_true (e i m s : Z) :
  is_valid_tag e i m s = true <-> i = e /\ m = MAGIC.
Proof.
  unfold is_valid_tag.
  destruct (Z.eqb_spec i e), (Z.eqb_spec m MAGIC); cbn; intuition congruence.
Qed.

Lemma read_header_add (st : t) (p s a : Z) :
  read_header (freelist_add st p s) a
  = if decide (a = p) then mkHeader s HEADER_ID MAGIC else read_header st a.
Proof.
  unfold read_header, freelist_add; cbn [headers].
  destruct (decide (a = p)) as [->|Hne].
  - by rewrite lookup_insert_eq.
  - by rewrite lookup_insert_ne.
Qed.

Lemma read_footer_add (st : t) (p s e : Z) :
  read_footer (freelist_add st p s) e
  = if decide (e = p + s) then mkFooter MAGIC FOOTER_ID s else read_footer st e.
Proof.
  unfold read_footer, freelist_add; cbn [footers].
  destruct (decide (e = p + s)) as [->|Hne].
  - by rewrite lookup_insert_eq.
  - by rewrite lookup_insert_ne.
Qed.

Lemma read_header_remove (st : t) (h a : Z) :
  read_header (freelist_remove st h) a
  = if decide (a = h) then wiped_header else read_header st a.
Proof.
  unfold read_header, freelist_remove; cbn [headers].
  destruct (decide (a = h)) as [->|Hne].
  - by rewrite lookup_insert_eq.
  - by rewrite lookup_insert_ne.
Qed.

Lemma read_footer_remove (st : t) (h e : Z) :
  read_footer (freelist_remove st h) e
  = if decide (e = h + free_size st h) then wiped_footer else read_footer st e.
Proof.
  unfold read_footer, freelist_remove, free_size; cbn [footers].
  destruct (decide (e = h + h_size_pa (read_header st h))) as [->|Hne].
  - by rewrite lookup_insert_eq.
  - by rewrite lookup_insert_ne.
Qed.

Lemma freelists_add (st : t) (p s c : Z) :
  freelists (freelist_add st p s) c
  = if decide (c = size_class_of s)
    then insert_after_walk p (freelists st (size_class_of s))
    else freelists st c.
Proof.
  unfold freelist_add; cbn [freelists].
  destruct (Z.eqb_spec c (size_class_of s)), (decide (c = size_class_of s)); done.
Qed.

Lemma freelists_remove (st : t) (h c : Z) :
  freelists (freelist_remove st h) c = unlink h (freelists st c).
Proof. done. Qed.

Lemma pool_add (st : t) (p s : Z) : pool (freelist_add st p s) = pool st.
Proof. done. Qed.

Lemma pool_remove (st : t) (h : Z) : pool (freelist_remove st h) = pool st.
Proof. done. Qed.

Lemma disjoint_sym (r1 r2 : region) : disjoint r1 r2 -> disjoint r2 r1.
Proof. unfold disjoint. tauto. Qed.


Lemma wiped_not_header : WIPED <> HEADER_ID.
Proof. done. Qed.

Lemma wiped_not_footer : WIPED <> FOOTER_ID.
Proof. done. Qed.

Lemma free_size_remove (st : t) (h x : Z) :
  x <> h -> free_size (freelist_remove st h) x = free_size st x.
Proof.
  intros Hne. unfold free_size. rewrite read_header_remove.
  by destruct (decide (x = h)).
Qed.

Lemma free_size_add (st : t) (p s x : Z) :
  x <> p -> free_size (freelist_add st p s) x = free_size st x.
Proof.
  intros Hne. unfold free_size. rewrite read_header_add.
  by destruct (decide (x = p)).
Qed.

(** Two listed regions with the same end are the same region, and a listed
    region does not end where a region of [R] ends. *)
Lemma disjoint_ends (a s a' s' : Z) :
  0 < s -> 0 < s' -> disjoint (a, s) (a', s') -> a + s <> a' + s'.
Proof. unfold disjoint; cbn. lia. Qed.

Lemma disjoint_starts (a s a' s' : Z) :
  0 < s -> 0 < s' -> disjoint (a, s) (a', s') -> a <> a'.
Proof. unfold disjoint; cbn. lia. Qed.

(** Taking a listed region off its list moves it to [R]. *)
Lemma remove_inv (st : t) (R : list region) (c a : Z) :
  Inv st R -> a ∈ freelists st c ->
  Inv (freelist_remove st a) ((a, free_size st a) :: R).
Proof.
  intros HI Ha.
  destruct (inv_free _ _ HI c a Ha) as (Hid & Hmg & Hft & Hpos & Hal & Hcl & Hlo & Hhi).
  assert (Hin' : forall c' x, x ∈ freelists (freelist_remove st a) c' ->
                   x ∈ freelists st c' /\ x <> a).
  { intros c' x Hx. rewrite freelists_remove in Hx. split.
    - by eapply elem_of_unlink.
    - intros ->. revert Hx. apply not_elem_of_unlink, (inv_sorted _ _ HI). }
  assert (Hend : forall c' x, x ∈ freelists st c' -> x <> a ->
                   x + free_size st x <> a + free_size st a).
  { intros c' x Hx Hne.
    destruct (inv_free _ _ HI c' x Hx) as (_ & _ & _ & Hposx & _).
    apply disjoint_ends; [done..|]. by eapply (inv_free_free _ _ HI). }
  constructor.
  - rewrite pool_remove. apply (inv_pos _ _ HI).
  - constructor; [|apply (inv_res_nodup _ _ HI)].
    intros Hin. pose proof (inv_free_res _ _ HI c a _ Ha Hin) as Hd.
    unfold disjoint in Hd; cbn in Hd. lia.
  - intros p s Hps. rewrite pool_remove.
    apply elem_of_cons in Hps as [[= -> ->]|Hps]; [done|].
    by apply (inv_res _ _ HI).
  - intros r1 r2 H1 H2 Hne.
    apply elem_of_cons in H1 as [->|H1]; apply elem_of_cons in H2 as [->|H2].
    + done.
    + by eapply (inv_free_res _ _ HI).
    + by eapply disjoint_sym, (inv_free_res _ _ HI).
    + by apply (inv_res_disj _ _ HI).
  - intros c' x Hx. apply Hin' in Hx as [Hx Hne].
    destruct (inv_free _ _ HI c' x Hx) as (Hidx & Hmgx & Hftx & Hrest).
    rewrite free_size_remove, pool_remove by done.
    rewrite read_header_remove, read_footer_remove.
    destruct (decide (x = a)); [done|].
    destruct (decide (x + free_size st x = a + free_size st a)) as [Heq|_];
      [by apply (Hend c' x) in Heq|done].
  - intros c'. rewrite freelists_remove. apply unlink_sorted, (inv_sorted _ _ HI).
  - intros x. rewrite read_header_remove. destruct (decide (x = a)) as [->|Hne].
    + cbn. intros Hw. by apply wiped_not_header in Hw.
    + intros Hidx Hmgx. rewrite free_size_remove, freelists_remove by done.
      apply elem_of_unlink_ne; [|done]. by apply (inv_hdr _ _ HI).
  - intros e. rewrite read_footer_remove.
    destruct (decide (e = a + free_size st a)) as [->|Hne].
    + cbn. intros Hw. by apply wiped_not_footer in Hw.
    + intros Hidf Hmgf.
      destruct (inv_ftr _ _ HI e Hidf Hmgf) as [Hin Hsz].
      assert (Hxa : e - f_size_pa (read_footer st e) <> a).
      { intros Heq. rewrite Heq in Hsz. lia. }
      rewrite free_size_remove, freelists_remove by done.
      split; [|done]. by apply elem_of_unlink_ne.
  - intros c' x r Hx Hr. apply Hin' in Hx as [Hx Hne].
    rewrite free_size_remove by done.
    apply elem_of_cons in Hr as [->|Hr].
    + by eapply (inv_free_free _ _ HI).
    + by eapply (inv_free_res _ _ HI).
  - intros c1 c2 x y Hx Hy Hne.
    apply Hin' in Hx as [Hx Hxa]. apply Hin' in Hy as [Hy Hya].
    rewrite !free_size_remove by done. by eapply (inv_free_free _ _ HI).
Qed.


Lemma elem_of_freelists_add (st : t) (p s c x : Z) :
  x ∈ freelists (freelist_add st p s) c
  <-> (x = p /\ c = size_class_of s) \/ x ∈ freelists st c.
Proof.
  rewrite freelists_add. destruct (decide (c = size_class_of s)) as [->|Hne].
  - rewrite elem_of_insert_after_walk. tauto.
  - tauto.
Qed.

(** Putting a region of [R] on the list of its class. *)
Lemma add_inv (st : t) (R : list region) (p s : Z) :
  Inv st ((p, s) :: R) -> Inv (freelist_add st p s) R.
Proof.
  intros HI.
  destruct (inv_res _ _ HI p s ltac:(by left)) as (Hpos & Hal & Hlo & Hhi).
  pose proof (inv_res_nodup _ _ HI) as Hnd. apply NoDup_cons in Hnd as [HpR HndR].
  assert (Hold : forall c x, x ∈ freelists st c ->
            x <> p /\ x + free_size st x <> p + s).
  { intros c x Hx.
    destruct (inv_free _ _ HI c x Hx) as (_ & _ & _ & Hposx & _).
    pose proof (inv_free_res _ _ HI c x (p, s) Hx ltac:(by left)) as Hd.
    unfold disjoint in Hd; cbn in Hd. lia. }
  assert (Hsz : free_size (freelist_add st p s) p = s).
  { unfold free_size. rewrite read_header_add. by rewrite decide_True. }
  constructor.
  - apply (inv_pos _ _ HI).
  - done.
  - intros q sq Hq. rewrite pool_add. apply (inv_res _ _ HI). by right.
  - intros r1 r2 H1 H2. apply (inv_res_disj _ _ HI); by right.
  - intros c x Hx. rewrite pool_add.
    apply elem_of_freelists_add in Hx as [[-> ->]|Hx].
    + rewrite Hsz, read_header_add, read_footer_add, !decide_True by done. done.
    + destruct (Hold c x Hx) as [Hne Hend].
      rewrite free_size_add, read_header_add, read_footer_add by done.
      rewrite !decide_False by done. by apply (inv_free _ _ HI).
  - intros c. rewrite freelists_add. destruct (decide (c = size_class_of s)) as [->|_].
    + apply insert_after_walk_sorted; [apply (inv_sorted _ _ HI)|].
      intros Hin. by destruct (Hold _ _ Hin).
    + apply (inv_sorted _ _ HI).
  - intros x. rewrite read_header_add. destruct (decide (x = p)) as [->|Hne].
    + intros _ _. rewrite Hsz. apply elem_of_freelists_add. by left.
    + intros Hidx Hmgx. rewrite free_size_add by done.
      apply elem_of_freelists_add. right. by apply (inv_hdr _ _ HI).
  - intros e. rewrite read_footer_add. destruct (decide (e = p + s)) as [->|Hne].
    + intros _ _. cbn [f_size_pa]. replace (p + s - s) with p by lia.
      split; [|done]. apply elem_of_freelists_add. by left.
    + intros Hidf Hmgf. destruct (inv_ftr _ _ HI e Hidf Hmgf) as [Hin Hszf].
      destruct (Hold _ _ Hin) as [Hxp _].
      rewrite free_size_add by done. split; [|done].
      apply elem_of_freelists_add. by right.
  - intros c x r Hx Hr.
    apply elem_of_freelists_add in Hx as [[-> ->]|Hx].
    + rewrite Hsz. apply (inv_res_disj _ _ HI); [by left|by right|].
      intros <-. done.
    + destruct (Hold c x Hx) as [Hne _]. rewrite free_size_add by done.
      eapply (inv_free_res _ _ HI); [done|by right].
  - intros c1 c2 x y Hx Hy Hne.
    apply elem_of_freelists_add in Hx as [[-> ->]|Hx];
      apply elem_of_freelists_add in Hy as [[-> ->]|Hy].
    + done.
    + destruct (Hold c2 y Hy) as [Hyp _]. rewrite Hsz, free_size_add by done.
      eapply disjoint_sym, (inv_free_res _ _ HI); [done|by left].
    + destruct (Hold c1 x Hx) as [Hxp _]. rewrite Hsz, free_size_add by done.
      eapply (inv_free_res _ _ HI); [done|by left].
    + destruct (Hold c1 x Hx) as [Hxp _]. destruct (Hold c2 y Hy) as [Hyp _].
      rewrite !free_size_add by done. by eapply (inv_free_free _ _ HI).
Qed.

(** [R] matters only up to the order of its regions. *)
Lemma Inv_perm (st : t) (R R' : list region) : R ≡ₚ R' -> Inv st R -> Inv st R'.
Proof.
  intros HP HI. constructor.
  - apply (inv_pos _ _ HI).
  - rewrite <- HP. apply (inv_res_nodup _ _ HI).
  - intros p s Hps. rewrite <- HP in Hps. by apply (inv_res _ _ HI).
  - intros r1 r2 H1 H2. rewrite <- HP in H1, H2. by apply (inv_res_disj _ _ HI).
  - apply (inv_free _ _ HI).
  - apply (inv_sorted _ _ HI).
  - apply (inv_hdr _ _ HI).
  - apply (inv_ftr _ _ HI).
  - intros c a r Ha Hr. rewrite <- HP in Hr. by eapply (inv_free_res _ _ HI).
  - apply (inv_free_free _ _ HI).
Qed.

(** Two adjacent regions of [R] count as one, and back. *)
Lemma Inv_merge (st : t) (R : list region) (p s1 s2 : Z) :
  Inv st ((p, s1) :: (p + s1, s2) :: R) -> Inv st ((p, s1 + s2) :: R).
Proof.
  intros HI.
  destruct (inv_res _ _ HI p s1 ltac:(by left)) as (Hpos1 & Hal1 & Hlo1 & Hhi1).
  destruct (inv_res _ _ HI (p + s1) s2 ltac:(right; by left))
    as (Hpos2 & Hal2 & Hlo2 & Hhi2).
  pose proof (inv_res_nodup _ _ HI) as Hnd.
  apply NoDup_cons in Hnd as [Hn1 Hnd]. apply NoDup_cons in Hnd as [Hn2 Hnd].
  assert (Hother : forall r, r ∈ R -> disjoint (p, s1 + s2) r).
  { intros r Hr.
    assert (Hne1 : (p, s1) <> r) by (intros <-; apply Hn1; by right).
    assert (Hne2 : (p + s1, s2) <> r) by (by intros <-).
    pose proof (inv_res_disj _ _ HI (p, s1) r ltac:(by left)
                  ltac:(right; by right) Hne1) as Hd1.
    pose proof (inv_res_disj _ _ HI (p + s1, s2) r ltac:(right; by left)
                  ltac:(right; by right) Hne2) as Hd2.
    destruct r as [q sq]. destruct (inv_res _ _ HI q sq ltac:(right; by right)) as (? & _).
    unfold disjoint in *; cbn in *. lia. }
  constructor.
  - apply (inv_pos _ _ HI).
  - constructor; [|done]. intros Hin. apply Hother in Hin.
    unfold disjoint in Hin; cbn in Hin. lia.
  - intros q sq Hq. apply elem_of_cons in Hq as [[= -> ->]|Hq].
    + repeat split; [lia | by apply Z.divide_add_r | lia | lia].
    + apply (inv_res _ _ HI). right. by right.
  - intros r1 r2 H1 H2 Hne.
    apply elem_of_cons in H1 as [->|H1]; apply elem_of_cons in H2 as [->|H2].
    + done.
    + by apply Hother.
    + by apply disjoint_sym, Hother.
    + apply (inv_res_disj _ _ HI); [right; by right..|done].
  - apply (inv_free _ _ HI).
  - apply (inv_sorted _ _ HI).
  - apply (inv_hdr _ _ HI).
  - apply (inv_ftr _ _ HI).
  - intros c a r Ha Hr. apply elem_of_cons in Hr as [->|Hr].
    + pose proof (inv_free_res _ _ HI c a (p, s1) Ha ltac:(by left)) as Hd1.
      pose proof (inv_free_res _ _ HI c a (p + s1, s2) Ha ltac:(right; by left)) as Hd2.
      destruct (inv_free _ _ HI c a Ha) as (_ & _ & _ & ? & _).
      unfold disjoint in *; cbn in *. lia.
    + eapply (inv_free_res _ _ HI); [done|]. right. by right.
  - apply (inv_free_free _ _ HI).
Qed.

Lemma Inv_split (st : t) (R : list region) (p s1 s2 : Z) :
  0 < s1 -> 0 < s2 -> aligned s1 -> aligned s2 ->
  Inv st ((p, s1 + s2) :: R) -> Inv st ((p + s1, s2) :: (p, s1) :: R).
Proof.
  intros Hpos1 Hpos2 Hal1 Hal2 HI.
  destruct (inv_res _ _ HI p (s1 + s2) ltac:(by left)) as (_ & _ & Hlo & Hhi).
  pose proof (inv_res_nodup _ _ HI) as Hnd. apply NoDup_cons in Hnd as [Hn Hnd].
  assert (Hother : forall r, r ∈ R -> disjoint (p, s1 + s2) r).
  { intros r Hr. apply (inv_res_disj _ _ HI); [by left|by right|by intros <-]. }
  assert (H1 : forall r, r ∈ R -> disjoint (p, s1) r).
  { intros r Hr. apply Hother in Hr. unfold disjoint in *; cbn in *. lia. }
  assert (H2 : forall r, r ∈ R -> disjoint (p + s1, s2) r).
  { intros r Hr. apply Hother in Hr. unfold disjoint in *; cbn in *. lia. }
  assert (Hposr : forall q sq, (q, sq) ∈ R -> 0 < sq).
  { intros q sq Hq. apply (inv_res _ _ HI q sq). by right. }
  constructor.
  - apply (inv_pos _ _ HI).
  - constructor; [|constructor; [|done]].
    + rewrite not_elem_of_cons. split; [intros [= ? ?]; lia|].
      intros Hin. pose proof (H2 _ Hin) as Hd. unfold disjoint in Hd; cbn in Hd. lia.
    + intros Hin. pose proof (H1 _ Hin) as Hd. unfold disjoint in Hd; cbn in Hd. lia.
  - intros q sq Hq. apply elem_of_cons in Hq as [[= -> ->]|Hq];
      [|apply elem_of_cons in Hq as [[= -> ->]|Hq]].
    + repeat split; [done | done | lia | lia].
    + repeat split; [done | done | lia | lia].
    + apply (inv_res _ _ HI). by right.
  - intros r1 r2 Hr1 Hr2 Hne.
    apply elem_of_cons in Hr1 as [->|Hr1]; [|apply elem_of_cons in Hr1 as [->|Hr1]];
      (apply elem_of_cons in Hr2 as [->|Hr2]; [|apply elem_of_cons in Hr2 as [->|Hr2]]);
      try done; try (unfold disjoint; cbn; lia);
      try (by apply H1); try (by apply H2);
      try (by apply disjoint_sym, H1); try (by apply disjoint_sym, H2).
    apply (inv_res_disj _ _ HI); [by right|by right|done].
  - apply (inv_free _ _ HI).
  - apply (inv_sorted _ _ HI).
  - apply (inv_hdr _ _ HI).
  - apply (inv_ftr _ _ HI).
  - intros c a r Ha Hr.
    pose proof (inv_free_res _ _ HI c a (p, s1 + s2) Ha ltac:(by left)) as Hd.
    apply elem_of_cons in Hr as [->|Hr]; [|apply elem_of_cons in Hr as [->|Hr]].
    + unfold disjoint in *; cbn in *. lia.
    + unfold disjoint in *; cbn in *. lia.
    + eapply (inv_free_res _ _ HI); [done|by right].
  - apply (inv_free_free _ _ HI).
Qed.


(** ** The operations keep the invariant *)

Lemma round_up_aligned (n : Z) : aligned (round_up n BUF_ALIGN).
Proof. unfold aligned, round_up. apply Z.divide_factor_r. Qed.

Lemma round_up_pos (n : Z) : 0 < n -> 0 < round_up n BUF_ALIGN.
Proof.
  intros Hn. unfold round_up, BUF_ALIGN, KiB.
  assert (1 <= (n + 4 * 1024 - 1) / (4 * 1024)); [|lia].
  apply Z.div_le_lower_bound; lia.
Qed.

Lemma round_up_id (s : Z) : aligned s -> round_up s BUF_ALIGN = s.
Proof.
  intros [k ->]. unfold round_up, BUF_ALIGN, KiB.
  replace (k * (4 * 1024) + 4 * 1024 - 1) with (4 * 1024 - 1 + k * (4 * 1024)) by lia.
  rewrite Z.div_add by lia. rewrite (Z.div_small (4 * 1024 - 1)) by lia. lia.
Qed.

Lemma size_pa_of_ok (size : Z) :
  0 <= size -> 0 < size_pa_of size /\ aligned (size_pa_of size).
Proof.
  intros Hs. unfold size_pa_of. split; [|apply round_up_aligned].
  apply round_up_pos. destruct (Z.eqb_spec size 0); lia.
Qed.

Lemma Inv_init (base : Z) : Inv (init base) [].
Proof.
  constructor; cbn; try done.
  - constructor.
  - intros p s Hin. by apply elem_of_nil in Hin.
  - intros r1 r2 Hin. by apply elem_of_nil in Hin.
  - intros c a Hin. by apply elem_of_nil in Hin.
  - intros c. constructor.
  - intros c a r Hin. by apply elem_of_nil in Hin.
  - intros c c' a a' Hin. by apply elem_of_nil in Hin.
Qed.

Lemma first_fit_Some (st : t) (size_pa : Z) (l : list Z) (cur : Z) :
  first_fit st size_pa l = Some cur -> cur ∈ l /\ size_pa <= free_size st cur.
Proof.
  unfold first_fit. intros Hf. apply find_some in Hf as [Hin Hle].
  split; [by apply list_elem_of_In|]. unfold free_size. lia.
Qed.

Lemma first_fit_exists (st : t) (size_pa : Z) (l : list Z) (a : Z) :
  a ∈ l -> size_pa <= free_size st a -> is_Some (first_fit st size_pa l).
Proof.
  intros Hin Hle. unfold first_fit.
  destruct (List.find _ l) eqn:Hf; [done|].
  apply list_elem_of_In in Hin. pose proof (find_none _ _ Hf a Hin) as Hno.
  cbn in Hno. unfold free_size in Hle. lia.
Qed.

Lemma alloc_from_class_inv (st : t) (R : list region) (c size_pa p : Z) (st' : t) :
  Inv st R -> 0 < size_pa -> aligned size_pa ->
  alloc_from_class st c size_pa = Some (p, st') ->
  Inv st' ((p, size_pa) :: R).
Proof.
  intros HI Hpos Hal. unfold alloc_from_class.
  destruct (first_fit st size_pa (freelists st c)) as [cur|] eqn:Hf; [|done].
  apply first_fit_Some in Hf as [Hin Hle]. intros [= <- <-].
  pose proof (remove_inv st R c cur HI Hin) as HI1.
  destruct (inv_free _ _ HI c cur Hin) as (_ & _ & _ & _ & Hals & _).
  fold (free_size st cur).
  destruct (Z.eqb_spec (free_size st cur - size_pa) 0) as [Heq|Hne].
  - by replace size_pa with (free_size st cur) by lia.
  - apply add_inv.
    apply (Inv_split _ _ cur size_pa (free_size st cur - size_pa));
      [done | lia | done | by apply Z.divide_sub_r |].
    by replace (size_pa + (free_size st cur - size_pa)) with (free_size st cur) by lia.
Qed.

Lemma pool_alloc_inv (st : t) (R : list region) (s p : Z) (pl : Pool) :
  Inv st R -> 0 < s -> aligned s ->
  pool_alloc (pool st) s = Some (p, pl) ->
  Inv (with_pool st pl) ((p, s) :: R).
Proof.
  intros HI Hpos Hal. unfold pool_alloc.
  destruct (Z.leb_spec (da_pos (pool st) + s) (da_max_size (pool st))); [|done].
  intros [= <- <-]. pose proof (inv_pos _ _ HI) as Hp.
  assert (Hnew : forall q sq, (q, sq) ∈ R ->
            disjoint (da_base (pool st) + da_pos (pool st), s) (q, sq)).
  { intros q sq Hq. destruct (inv_res _ _ HI q sq Hq) as (? & _ & ? & ?).
    unfold disjoint; cbn. lia. }
  constructor; cbn [with_pool pool da_pos da_base da_max_size].
  - lia.
  - constructor; [|apply (inv_res_nodup _ _ HI)].
    intros Hin. destruct (inv_res _ _ HI _ _ Hin) as (? & _ & ? & ?). lia.
  - intros q sq Hq. apply elem_of_cons in Hq as [[= -> ->]|Hq].
    + repeat split; [done | done | lia | lia].
    + destruct (inv_res _ _ HI q sq Hq) as (? & ? & ? & ?). repeat split; [done..|lia].
  - intros r1 r2 H1 H2 Hne.
    apply elem_of_cons in H1 as [->|H1]; apply elem_of_cons in H2 as [->|H2].
    + done.
    + destruct r2. by apply Hnew.
    + destruct r1. by apply disjoint_sym, Hnew.
    + by apply (inv_res_disj _ _ HI).
  - intros c a Ha.
    destruct (inv_free _ _ HI c a Ha) as (? & ? & ? & ? & ? & ? & ? & ?).
    repeat split; [done..|]. change (free_size (with_pool st _) a) with (free_size st a). lia.
  - apply (inv_sorted _ _ HI).
  - apply (inv_hdr _ _ HI).
  - apply (inv_ftr _ _ HI).
  - intros c a r Ha Hr. change (free_size (with_pool st _) a) with (free_size st a).
    apply elem_of_cons in Hr as [->|Hr]; [|by eapply (inv_free_res _ _ HI)].
    destruct (inv_free _ _ HI c a Ha) as (_ & _ & _ & ? & _ & _ & ? & ?).
    unfold disjoint; cbn. lia.
  - apply (inv_free_free _ _ HI).
Qed.

Lemma larger_class_loop_inv (fuel : nat) (st : t) (R : list region)
    (classes_left size_pa p : Z) (st' : t) :
  Inv st R -> 0 < size_pa -> aligned size_pa ->
  larger_class_loop fuel st classes_left size_pa = Some (p, st') ->
  Inv st' ((p, size_pa) :: R).
Proof.
  intros HI Hpos Hal. revert classes_left.
  induction fuel as [|fuel IH]; intros classes_left; cbn [larger_class_loop]; [done|].
  destruct (classes_left =? 0); [done|].
  destruct (alloc_from_class st _ size_pa) as [[q stq]|] eqn:Hc.
  - intros [= <- <-]. by eapply alloc_from_class_inv.
  - apply IH.
Qed.

Lemma alloc_inv (st : t) (R : list region) (size p : Z) (st' : t) :
  Inv st R -> 0 <= size -> alloc st size = Some (p, st') ->
  Inv st' ((p, size_pa_of size) :: R).
Proof.
  intros HI Hsize. destruct (size_pa_of_ok size Hsize) as [Hpos Hal].
  unfold alloc. fold (size_pa_of size).
  destruct (alloc_from_class st _ (size_pa_of size)) as [[q stq]|] eqn:Hc.
  { intros [= <- <-]. by eapply alloc_from_class_inv. }
  destruct (pool_alloc (pool st) (size_pa_of size)) as [[q pl]|] eqn:Hp.
  { intros [= <- <-]. by eapply pool_alloc_inv. }
  unfold alloc_from_larger_class. by apply larger_class_loop_inv.
Qed.

(** The two halves of [coalesce_and_free]. *)
Lemma expand_prev_inv (st : t) (R : list region) (p s : Z) :
  Inv st ((p, s) :: R) ->
  Inv (expand_prev st p s).1.1
      (((expand_prev st p s).1.2, (expand_prev st p s).2) :: R).
Proof.
  intros HI. unfold expand_prev.
  destruct (negb (p =? da_base (pool st))); [|done].
  destruct (is_valid_tag _ _ _ _) eqn:Hv; [|done].
  apply is_valid_tag_true in Hv as [Hid Hmg]. cbn [fst snd].
  destruct (inv_ftr _ _ HI p Hid Hmg) as [Hin Hsz].
  set (fs := f_size_pa (read_footer st p)) in *.
  pose proof (remove_inv _ _ _ _ HI Hin) as HI1. rewrite Hsz in HI1.
  replace (s + fs) with (fs + s) by lia. apply Inv_merge.
  by replace (p - fs + fs) with p by lia.
Qed.

Lemma expand_next_inv (st : t) (R : list region) (p s : Z) :
  Inv st ((p, s) :: R) ->
  Inv (expand_next st p s).1 ((p, (expand_next st p s).2) :: R).
Proof.
  intros HI. unfold expand_next.
  destruct (_ <? _); [|done].
  destruct (is_valid_tag _ _ _ _) eqn:Hv; [|done].
  apply is_valid_tag_true in Hv as [Hid Hmg]. cbn [fst snd].
  pose proof (inv_hdr _ _ HI (p + s) Hid Hmg) as Hin.
  pose proof (remove_inv _ _ _ _ HI Hin) as HI1.
  apply Inv_merge. eapply Inv_perm; [|exact HI1]. apply Permutation_swap.
Qed.

Lemma coalesce_and_free_inv (st : t) (R : list region) (p s : Z) :
  Inv st ((p, s) :: R) -> Inv (coalesce_and_free st p s) R.
Proof.
  intros HI. unfold coalesce_and_free.
  pose proof (expand_prev_inv st R p s HI) as HI1.
  destruct (expand_prev st p s) as [[st1 p1] s1]. cbn [fst snd] in HI1.
  pose proof (expand_next_inv st1 R p1 s1 HI1) as HI2.
  destruct (expand_next st1 p1 s1) as [st2 s2]. cbn [fst snd] in HI2.
  by apply add_inv.
Qed.

(** A region of [R] passes the range check of [free]. *)
Lemma free_live (st : t) (R : list region) (p size : Z) :
  Inv st ((p, round_up size BUF_ALIGN) :: R) ->
  free st p size = (coalesce_and_free st p (round_up size BUF_ALIGN), []).
Proof.
  intros HI. unfold free.
  destruct (inv_res _ _ HI p _ ltac:(by left)) as (Hpos & _ & Hlo & Hhi).
  pose proof (inv_pos _ _ HI) as Hp.
  assert (pool_contains (pool st) p = true) as ->.
  { unfold pool_contains. apply andb_true_iff. lia. }
  assert (pool_contains (pool st) (p + round_up size BUF_ALIGN - 1) = true) as ->.
  { unfold pool_contains. apply andb_true_iff. lia. }
  done.
Qed.

Lemma free_inv (st : t) (R : list region) (p size : Z) :
  Inv st ((p, round_up size BUF_ALIGN) :: R) -> Inv (free st p size).1 R.
Proof.
  intros HI. rewrite (free_live _ _ _ _ HI). by apply coalesce_and_free_inv.
Qed.

Lemma reachable_Inv (base : Z) (st : t) (live : list region) :
  reachable base st live -> Inv st live.
Proof.
  induction 1 as [|st live size p st' _ IH Hsize Halloc|st live1 live2 p size _ IH].
  - apply Inv_init.
  - by eapply alloc_inv.
  - apply free_inv. eapply Inv_perm; [|exact IH].
    symmetry. apply Permutation_middle.
Qed.


(** ** Order of the freelists *)

Lemma one_page_reachable : reachable 1048576 one_page [(1048576, 4096)].
Proof.
  apply (reach_alloc 1048576 (init 1048576) [] 4096 1048576 one_page);
    [apply reach_init | lia | vm_compute; reflexivity].
Qed.

Lemma two_pages_reachable :
  reachable 1048576 two_pages [(1052672, 4096); (1048576, 4096)].
Proof.
  apply (reach_alloc 1048576 one_page _ 4096 1052672 two_pages);
    [apply one_page_reachable | lia | vm_compute; reflexivity].
Qed.

Lemma three_pages_reachable :
  reachable 1048576 three_pages
    [(1056768, 4096); (1052672, 4096); (1048576, 4096)].
Proof.
  apply (reach_alloc 1048576 two_pages _ 4096 1056768 three_pages);
    [apply two_pages_reachable | lia | vm_compute; reflexivity].
Qed.

Lemma first_and_third_freed_reachable :
  reachable 1048576 first_and_third_freed [(1052672, 4096)].
Proof.
  apply (reach_free 1048576 first_freed [] [(1052672, 4096)] 1056768 4096).
  apply (reach_free 1048576 three_pages
           [(1056768, 4096); (1052672, 4096)] [] 1048576 4096).
  apply three_pages_reachable.
Qed.

(** C1, as stated, fails: after the first and the third of three buffers
    are freed, the list of class 12 holds the third before the first. *)
Lemma freelist_ascending_counterexample :
  ~ (forall base st live c,
       reachable base st live -> StronglySorted Z.lt (freelists st c)).
Proof.
  intros Hclaim.
  specialize (Hclaim _ _ _ 12 first_and_third_freed_reachable).
  assert (Hl : freelists first_and_third_freed 12 = [1056768; 1048576])
    by (vm_compute; reflexivity).
  rewrite Hl in Hclaim. apply StronglySorted_inv in Hclaim as [_ Hall].
  apply Forall_cons in Hall as [Hlt _]. lia.
Qed.

(** C1, amended: after any sequence of [alloc] and [free] calls in which
    every [free] gives back a region that [alloc] returned and that is
    still out, walking the list of any size class from its sentinel visits
    the headers in strictly decreasing address order. *)
Theorem freelists_decreasing (base : Z) (st : t) (live : list region) (c : Z) :
  reachable base st live -> StronglySorted Z.gt (freelists st c).
Proof. intros Hr. apply (inv_sorted _ _ (reachable_Inv _ _ _ Hr)). Qed.

Lemma freelists_decreasing_witness :
  StronglySorted Z.gt (freelists first_and_third_freed 12)
  /\ freelists first_and_third_freed 12 = [1056768; 1048576].
Proof.
  split; [|vm_compute; reflexivity].
  apply (freelists_decreasing 1048576 _ [(1052672, 4096)]).
  apply first_and_third_freed_reachable.
Defined.


(** ** Coalescing *)

Lemma expand_prev_alone (st : t) (R : list region) (p s : Z) :
  Inv st R ->
  (forall c x, x ∈ freelists st c -> x + free_size st x <> p) ->
  expand_prev st p s = (st, p, s).
Proof.
  intros HI Hno. unfold expand_prev.
  destruct (negb (p =? da_base (pool st))); [|done].
  destruct (is_valid_tag _ _ _ _) eqn:Hv; [|done].
  apply is_valid_tag_true in Hv as [Hid Hmg].
  destruct (inv_ftr _ _ HI p Hid Hmg) as [Hin Hsz].
  exfalso. apply (Hno _ _ Hin). rewrite Hsz. lia.
Qed.

Lemma expand_next_alone (st : t) (R : list region) (p s : Z) :
  Inv st R ->
  (forall c, p + s ∉ freelists st c) ->
  expand_next st p s = (st, s).
Proof.
  intros HI Hno. unfold expand_next.
  destruct (_ <? _); [|done].
  destruct (is_valid_tag _ _ _ _) eqn:Hv; [|done].
  apply is_valid_tag_true in Hv as [Hid Hmg].
  exfalso. by apply (Hno _ (inv_hdr _ _ HI (p + s) Hid Hmg)).
Qed.

Lemma expand_prev_merges (st : t) (R : list region) (c x p s : Z) :
  Inv st R -> x ∈ freelists st c -> x + free_size st x = p ->
  expand_prev st p s = (freelist_remove st x, x, s + free_size st x).
Proof.
  intros HI Hx Hend. unfold expand_prev.
  destruct (inv_free _ _ HI c x Hx) as (_ & _ & Hft & Hpos & _ & _ & Hlo & _).
  destruct (Z.eqb_spec p (da_base (pool st))); [lia|]. cbn [negb].
  rewrite <- Hend, Hft. cbn [f_id f_magic f_size_pa].
  assert (is_valid_tag FOOTER_ID FOOTER_ID MAGIC (free_size st x) = true) as ->
    by (by apply is_valid_tag_true).
  by replace (x + free_size st x - free_size st x) with x by lia.
Qed.

Lemma expand_next_merges (st : t) (R : list region) (c p s : Z) :
  Inv st R -> p + s ∈ freelists st c ->
  expand_next st p s = (freelist_remove st (p + s), s + free_size st (p + s)).
Proof.
  intros HI Hx. unfold expand_next.
  destruct (inv_free _ _ HI c _ Hx) as (Hid & Hmg & _ & Hpos & _ & _ & _ & Hhi).
  unfold da_cur_size.
  destruct (Z.ltb_spec (p + s) (da_base (pool st) + da_pos (pool st))); [|lia].
  rewrite Hid, Hmg.
  assert (is_valid_tag HEADER_ID HEADER_ID MAGIC (h_size_pa (read_header st (p + s)))
          = true) as -> by (by apply is_valid_tag_true).
  done.
Qed.

(** A region that is out has no listed region at its start or inside it. *)
Lemma live_start_not_listed (st : t) (R : list region) (p s c : Z) :
  Inv st R -> (p, s) ∈ R -> p ∉ freelists st c.
Proof.
  intros HI Hin Hp.
  destruct (inv_res _ _ HI p s Hin) as (Hpos & _).
  destruct (inv_free _ _ HI c p Hp) as (_ & _ & _ & Hposf & _).
  pose proof (inv_free_res _ _ HI c p (p, s) Hp Hin) as Hd.
  unfold disjoint in Hd; cbn in Hd. lia.
Qed.

Lemma live_end_not_listed (st : t) (R : list region) (p s c x : Z) :
  Inv st R -> (p, s) ∈ R -> x ∈ freelists st c -> x + free_size st x <> p + s.
Proof.
  intros HI Hin Hx.
  destruct (inv_res _ _ HI p s Hin) as (Hpos & _).
  destruct (inv_free _ _ HI c x Hx) as (_ & _ & _ & Hposf & _).
  pose proof (inv_free_res _ _ HI c x (p, s) Hx Hin) as Hd.
  unfold disjoint in Hd; cbn in Hd. lia.
Qed.

(** A request for exactly the size of a listed entry is served by the
    first-fit search in the list of that entry, the ideal class. *)
Lemma alloc_exact_fit (st : t) (R : list region) (a S : Z) :
  Inv st R -> a ∈ freelists st (size_class_of S) -> free_size st a = S ->
  exists p st', alloc_from_class st (size_class_of S) S = Some (p, st')
                /\ alloc st S = Some (p, st').
Proof.
  intros HI Ha Hsz.
  destruct (inv_free _ _ HI _ a Ha) as (_ & _ & _ & Hpos & Hal & _).
  rewrite Hsz in Hpos, Hal.
  assert (Hfit : is_Some (alloc_from_class st (size_class_of S) S)).
  { unfold alloc_from_class.
    destruct (first_fit_exists st S _ a Ha ltac:(lia)) as [cur ->]. done. }
  destruct Hfit as [[p st'] Hfit]. exists p, st'. split; [done|].
  unfold alloc. destruct (Z.eqb_spec S 0); [lia|].
  by rewrite (round_up_id S Hal), Hfit.
Qed.

(** What is left to show once the merged entry is known. *)
Lemma merged_entry_served (st' : t) (R : list region) (a s1 s2 : Z) :
  Inv st' R -> a ∈ freelists st' (size_class_of (s1 + s2)) ->
  free_size st' a = s1 + s2 ->
  coalesced_and_served st' a s1 s2.
Proof.
  intros HI Ha Hsz. split.
  - exists a. split; [done|]. split; [lia|]. split; [lia|].
    intros c x Hx Hne. rewrite <- Hsz. by eapply (inv_free_free _ _ HI).
  - by eapply alloc_exact_fit.
Qed.

Lemma free_size_add_eq (st : t) (p s : Z) : free_size (freelist_add st p s) p = s.
Proof. unfold free_size. rewrite read_header_add. by rewrite decide_True. Qed.

(** Freeing the lower region first, then the upper one. *)
Lemma free_lower_then_upper (st : t) (R : list region) (a s1 s2 n1 n2 : Z) :
  Inv st ((a, s1) :: (a + s1, s2) :: R) ->
  round_up n1 BUF_ALIGN = s1 -> round_up n2 BUF_ALIGN = s2 ->
  no_free_neighbour st a (s1 + s2) ->
  let st' := (free (free st a n1).1 (a + s1) n2).1 in
  Inv st' R /\ a ∈ freelists st' (size_class_of (s1 + s2))
  /\ free_size st' a = s1 + s2.
Proof.
  intros HI Hn1 Hn2 Hno st'. subst st'.
  assert (HIA : Inv (free st a n1).1 ((a + s1, s2) :: R))
    by (apply free_inv; by rewrite Hn1).
  assert (HIB : Inv (free (free st a n1).1 (a + s1) n2).1 R)
    by (apply free_inv; by rewrite Hn2).
  split; [done|]. clear HIB.
  assert (HstA : (free st a n1).1 = freelist_add st a s1).
  { rewrite (free_live st ((a + s1, s2) :: R)) by (by rewrite Hn1).
    rewrite Hn1. cbn [fst]. unfold coalesce_and_free.
    rewrite (expand_prev_alone st _ a s1 HI) by (intros c x Hx; by apply (Hno c x)).
    rewrite (expand_next_alone st _ a s1 HI); [done|].
    intros c. eapply live_start_not_listed; [exact HI|]. right. by left. }
  rewrite HstA in *.
  rewrite (free_live _ R) by (by rewrite Hn2). rewrite Hn2. cbn [fst].
  unfold coalesce_and_free.
  assert (Ha : a ∈ freelists (freelist_add st a s1) (size_class_of s1))
    by (apply elem_of_freelists_add; by left).
  rewrite (expand_prev_merges _ _ _ a (a + s1) s2 HIA Ha)
    by (by rewrite free_size_add_eq).
  rewrite free_size_add_eq.
  pose proof (remove_inv _ _ _ _ HIA Ha) as HI1.
  rewrite (expand_next_alone _ _ a (s2 + s1) HI1).
  - replace (s2 + s1) with (s1 + s2) by lia. split.
    + apply elem_of_freelists_add. by left.
    + apply free_size_add_eq.
  - intros c Hin. rewrite freelists_remove in Hin. apply elem_of_unlink in Hin.
    apply elem_of_freelists_add in Hin as [[Heq _]|Hin].
    + destruct (inv_res _ _ HI a s1 ltac:(by left)) as (? & _).
      destruct (inv_res _ _ HI (a + s1) s2 ltac:(right; by left)) as (? & _). lia.
    + destruct (Hno c _ Hin) as [_ Hne]. lia.
Qed.

(** Freeing the upper region first, then the lower one. *)
Lemma free_upper_then_lower (st : t) (R : list region) (a s1 s2 n1 n2 : Z) :
  Inv st ((a, s1) :: (a + s1, s2) :: R) ->
  round_up n1 BUF_ALIGN = s1 -> round_up n2 BUF_ALIGN = s2 ->
  no_free_neighbour st a (s1 + s2) ->
  let st' := (free (free st (a + s1) n2).1 a n1).1 in
  Inv st' R /\ a ∈ freelists st' (size_class_of (s1 + s2))
  /\ free_size st' a = s1 + s2.
Proof.
  intros HI Hn1 Hn2 Hno st'. subst st'.
  assert (HI' : Inv st ((a + s1, s2) :: (a, s1) :: R))
    by (eapply Inv_perm; [|exact HI]; apply Permutation_swap).
  assert (HIB : Inv (free st (a + s1) n2).1 ((a, s1) :: R))
    by (apply free_inv; by rewrite Hn2).
  assert (HIA : Inv (free (free st (a + s1) n2).1 a n1).1 R)
    by (apply free_inv; by rewrite Hn1).
  split; [done|]. clear HIA.
  destruct (inv_res _ _ HI a s1 ltac:(by left)) as (Hpos1 & _).
  destruct (inv_res _ _ HI (a + s1) s2 ltac:(right; by left)) as (Hpos2 & _).
  assert (HstB : (free st (a + s1) n2).1 = freelist_add st (a + s1) s2).
  { rewrite (free_live st ((a, s1) :: R)) by (by rewrite Hn2).
    rewrite Hn2. cbn [fst]. unfold coalesce_and_free.
    rewrite (expand_prev_alone st _ (a + s1) s2 HI).
    - rewrite (expand_next_alone st _ (a + s1) s2 HI); [done|].
      intros c Hin. destruct (Hno c _ Hin) as [_ Hne]. lia.
    - intros c x Hx. eapply live_end_not_listed; [exact HI| |done]. by left. }
  rewrite HstB in *.
  rewrite (free_live _ R) by (by rewrite Hn1). rewrite Hn1. cbn [fst].
  unfold coalesce_and_free.
  rewrite (expand_prev_alone _ _ a s1 HIB).
  - assert (Hb : a + s1 ∈ freelists (freelist_add st (a + s1) s2) (size_class_of s2))
      by (apply elem_of_freelists_add; by left).
    rewrite (expand_next_merges _ _ _ a s1 HIB Hb), free_size_add_eq.
    split.
    + apply elem_of_freelists_add. by left.
    + apply free_size_add_eq.
  - intros c x Hx. apply elem_of_freelists_add in Hx as [[-> _]|Hx].
    + rewrite free_size_add_eq. lia.
    + assert (x <> a + s1)
        by (intros ->; revert Hx; eapply live_start_not_listed; [exact HI|]; right; by left).
      rewrite free_size_add by done. by apply (Hno c x).
Qed.

(** C3, amended: two address-adjacent regions that are out, with no free
    region just before the first or just after the second, are freed in
    either order.  Then exactly one listed entry covers them, it starts at
    the first region and its size is the sum of the two; and a request for
    that combined size is served by the first-fit search of [alloc] in the
    list of the entry's own class, before the bump and the larger classes
    are tried. *)
Theorem adjacent_frees_coalesce (base : Z) (st : t) (live : list region)
    (a s1 s2 n1 n2 : Z) (st' : t) :
  reachable base st live ->
  (a, s1) ∈ live -> (a + s1, s2) ∈ live ->
  round_up n1 BUF_ALIGN = s1 -> round_up n2 BUF_ALIGN = s2 ->
  no_free_neighbour st a (s1 + s2) ->
  freed_both st a s1 n1 n2 st' ->
  coalesced_and_served st' a s1 s2
  /\ a ∈ freelists st' (size_class_of (s1 + s2))
  /\ free_size st' a = s1 + s2.
Proof.
  intros Hr Hin1 Hin2 Hn1 Hn2 Hno Hfreed.
  pose proof (reachable_Inv _ _ _ Hr) as HI.
  destruct (inv_res _ _ HI a s1 Hin1) as (Hpos1 & _).
  apply elem_of_Permutation in Hin1 as [k Hk].
  rewrite Hk in Hin2. apply elem_of_cons in Hin2 as [[= ? ?]|Hin2]; [lia|].
  apply elem_of_Permutation in Hin2 as [R HR].
  assert (HI2 : Inv st ((a, s1) :: (a + s1, s2) :: R)).
  { eapply Inv_perm; [|exact HI]. rewrite Hk. by constructor. }
  destruct Hfreed as [-> | ->].
  - destruct (free_lower_then_upper st R a s1 s2 n1 n2 HI2 Hn1 Hn2 Hno)
      as (HI' & Ha & Hsz).
    split; [by eapply merged_entry_served|done].
  - destruct (free_upper_then_lower st R a s1 s2 n1 n2 HI2 Hn1 Hn2 Hno)
      as (HI' & Ha & Hsz).
    split; [by eapply merged_entry_served|done].
Qed.


Lemma two_after_free_neighbour_reachable :
  reachable 1048576 two_after_free_neighbour
    [(1064960, 67092480); (1060864, 4096); (1056768, 4096)].
Proof.
  apply (reach_free 1048576 arena_full
           [(1064960, 67092480); (1060864, 4096); (1056768, 4096)] []
           1048576 8192).
  apply (reach_alloc 1048576 two_quanta_two _ 67092480 1064960 arena_full);
    [|lia|vm_compute; reflexivity].
  apply (reach_alloc 1048576 two_quanta_one _ 4096 1060864 two_quanta_two);
    [|lia|vm_compute; reflexivity].
  apply (reach_alloc 1048576 two_quanta _ 4096 1056768 two_quanta_one);
    [|lia|vm_compute; reflexivity].
  apply (reach_alloc 1048576 (init 1048576) [] 8192 1048576 two_quanta);
    [apply reach_init|lia|vm_compute; reflexivity].
Qed.

(** C3, as stated, fails: the two one-quantum regions at 1056768 and 1060864
    follow a free region of two quanta, in a full arena.  Freeing both merges
    all three into one entry of four quanta (class 14), and a request for the
    combined two quanta finds the list of its class (13) empty. *)
Lemma coalesce_counterexample :
  ~ (forall base st live a s1 s2 n1 n2 st',
       reachable base st live ->
       (a, s1) ∈ live -> (a + s1, s2) ∈ live ->
       round_up n1 BUF_ALIGN = s1 -> round_up n2 BUF_ALIGN = s2 ->
       freed_both st a s1 n1 n2 st' ->
       coalesced_and_served st' a s1 s2).
Proof.
  intros Hclaim.
  specialize (Hclaim 1048576 two_after_free_neighbour
                [(1064960, 67092480); (1060864, 4096); (1056768, 4096)]
                1056768 4096 4096 4096 4096
                (free (free two_after_free_neighbour 1056768 4096).1
                      (1056768 + 4096) 4096).1
                two_after_free_neighbour_reachable).
  destruct Hclaim as [_ (p & st'' & Hfit & _)].
  - right. right. by left.
  - right. by left.
  - reflexivity.
  - reflexivity.
  - left. reflexivity.
  - vm_compute in Hfit. discriminate.
Qed.

(** There the request is served by the split of the larger class: the
    first-fit search of class 13 and the bump both fail, and the entry of
    class 14 is split. *)
Example coalesce_counterexample_served_by_split :
  let st' := (free (free two_after_free_neighbour 1056768 4096).1 1060864 4096).1 in
  freelists st' 14 = [1048576] /\ free_size st' 1048576 = 16384
  /\ freelists st' 13 = []
  /\ alloc_from_class st' 13 8192 = None
  /\ pool_alloc (pool st') 8192 = None
  /\ fst <$> alloc_from_larger_class st' 13 8192 = Some 1048576
  /\ fst <$> alloc st' 8192 = Some 1048576.
Proof. vm_compute. done. Qed.

Lemma adjacent_frees_coalesce_witness :
  free_size (free (free three_pages 1048576 4096).1 1052672 4096).1 1048576 = 8192.
Proof.
  refine (proj2 (proj2 (adjacent_frees_coalesce 1048576 three_pages
            [(1056768, 4096); (1052672, 4096); (1048576, 4096)]
            1048576 4096 4096 4096 4096
            (free (free three_pages 1048576 4096).1 (1048576 + 4096) 4096).1
            three_pages_reachable _ _ _ _ _ _))).
  - right. right. by left.
  - right. by left.
  - reflexivity.
  - reflexivity.
  - intros c x Hx. vm_compute in Hx. by apply elem_of_nil in Hx.
  - left. reflexivity.
Defined.

End CacheAllocatorInv.

(* ===================================================================== *)
(** * Properties of the buffer entry points *)
(* ===================================================================== *)

Module FileCacheFacts.
Import FileCache.

Section Facade.

Context {C : Type} `{Cache C} {pw : PtrWidth}.

(** C10: releasing the null buffer answers ERR_OK at once: the state is the
    same and no call is made (no registry lookup, no cache lookup, no free,
    no statistics). *)
Theorem file_buf_free_null (st : t C) :
  file_buf_free st 0 = (ERR_OK, st, []).
Proof. reflexivity. Qed.

Lemma elem_of_map_EWarn (p sz : Z) (ws : list string) :
  EFree p sz ∈ map EWarn ws -> False.
Proof.
  induction ws as [|w ws IH]; cbn; intros Hin.
  - by apply elem_of_nil in Hin.
  - apply elem_of_cons in Hin as [?|?]; [done|auto].
Qed.

(** What decides the release: [file_buf_free] calls the allocator's [free]
    exactly when [find_and_remove] answers fully_released = true and
    [retrieve] finds no entry under the owner recorded for the buffer,
    whichever buffer an entry under that owner holds (the comparison with
    [buf] is only a [debug_assert]); the call is then [free(exact_buf, size)]
    on the allocator, and in every other case the allocator is left as it
    was. *)
Lemma file_buf_free_decides_by_owner (st : t C) (b : Z) :
  b <> 0 ->
  let res := (ExtantBufMgr.find_and_remove (extant_bufs st) b).1.1 in
  let out := file_buf_free st b in
  let released_and_not_cached :=
    exists xbuf sz fn,
      res = Some (true, xbuf, sz, fn) /\ cache_peek (file_cache st) fn = None in
  (frees_memory out.2 <-> released_and_not_cached)
  /\ (forall xbuf sz fn,
        res = Some (true, xbuf, sz, fn) -> cache_peek (file_cache st) fn = None ->
        EFree xbuf sz ∈ out.2
        /\ cache_allocator out.1.2
           = (CacheAllocator.free (cache_allocator st) xbuf sz).1)
  /\ (~ released_and_not_cached -> cache_allocator out.1.2 = cache_allocator st).
Proof.
  intros Hb. cbn zeta. unfold file_buf_free.
  destruct (Z.eqb_spec b 0) as [|_]; [done|].
  destruct (ExtantBufMgr.find_and_remove (extant_bufs st) b) as [[res e] ws].
  cbn [fst snd].
  assert (Hno : forall evs : list event,
    (forall p sz, EFree p sz ∈ evs -> False) ->
    frees_memory ([EFindAndRemove b] ++ map EWarn ws ++ evs
                  ++ [EStat "stats_buf_free"; EStat "trace_notify_free"]) -> False).
  { intros evs Hevs (p & sz & Hin).
    rewrite !elem_of_app in Hin. destruct Hin as [Hin|[Hin|[Hin|Hin]]].
    - by apply list_elem_of_singleton in Hin.
    - by apply elem_of_map_EWarn in Hin.
    - eauto.
    - apply elem_of_cons in Hin as [?|Hin]; [done|].
      by apply list_elem_of_singleton in Hin. }
  destruct res as [[[[[] xbuf] sz] fn]|]; cbn [with_extant file_cache cache_allocator].
  - destruct (cache_peek (file_cache st) fn) as [[bc szc]|] eqn:Hpeek.
    + cbn [fst snd]. split; [split|split].
      * intros Hfree. exfalso. revert Hfree. apply Hno. intros p s Hin.
        apply elem_of_cons in Hin as [?|Hin]; [done|].
        destruct (bc =? b); [by apply elem_of_nil in Hin|].
        by apply list_elem_of_singleton in Hin.
      * intros (? & ? & ? & [= <- <- <-] & Hn). congruence.
      * intros ? ? ? [= <- <- <-] Hn. congruence.
      * done.
    + destruct (CacheAllocator.free (cache_allocator st) xbuf sz) as [a ws'] eqn:Hfr.
      cbn [fst snd with_allocator cache_allocator].
      assert (Hin : EFree xbuf sz ∈
        [EFindAndRemove b] ++ map EWarn ws
          ++ ([ERetrieve fn; EFree xbuf sz] ++ map EWarn ws')
          ++ [EStat "stats_buf_free"; EStat "trace_notify_free"]).
      { rewrite !elem_of_app. right. right. left. left.
        apply elem_of_cons. right. by apply list_elem_of_singleton. }
      split; [split|split].
      * intros _.  by exists xbuf, sz, fn.
      * intros _. exists xbuf, sz. exact Hin.
      * intros x1 s1 f1 [= <- <- <-] _. split; [exact Hin | by rewrite Hfr].
      * intros Hnot. exfalso. apply Hnot. exists xbuf, sz, fn. split; [reflexivity|assumption].
  - cbn [fst snd]. split; [split|split].
    + intros Hfree. exfalso. revert Hfree. apply Hno. intros p s Hin.
      by apply elem_of_nil in Hin.
    + intros (? & ? & ? & [=] & _).
    + intros ? ? ? [=].
    + done.
  - cbn [fst snd]. split; [split|split].
    + intros Hfree. exfalso. revert Hfree. apply Hno. intros p s Hin.
      by apply elem_of_nil in Hin.
    + intros (? & ? & ? & [=] & _).
    + intros ? ? ? [=].
    + done.
Qed.

(** While the allocator cannot serve [size], the cache has nothing to evict
    and the stale locals name no arena memory, a pass of the loop changes
    nothing, so the loop is still running after any number of passes. *)
Lemma file_buf_alloc_loop_stuck (uninit : Z * Z) (size : Z) (st : t C) (ws : list string) :
  CacheAllocator.alloc (cache_allocator st) size = None ->
  cache_remove_least_valuable (file_cache st) = (None, file_cache st) ->
  CacheAllocator.free (cache_allocator st) uninit.1 uninit.2 = (cache_allocator st, ws) ->
  forall fuel attempts,
    (file_buf_alloc_loop fuel uninit size st attempts).1 = None.
Proof.
  intros Halloc Hevict Hfree. induction fuel as [|fuel IH]; intros attempts; [done|].
  cbn [file_buf_alloc_loop]. rewrite Halloc, Hevict.
  destruct uninit as [p sz]. cbn [fst snd] in Hfree. rewrite Hfree.
  replace (with_cache (with_allocator st (cache_allocator st)) (file_cache st))
    with st by (by destruct st).
  specialize (IH (u32 (attempts + 1))).
  destruct (file_buf_alloc_loop fuel (p, sz) size st (u32 (attempts + 1))) as [r evs].
  done.
Qed.

Lemma file_buf_alloc_loop_warns (uninit : Z * Z) (size : Z) (st : t C) (ws : list string) :
  CacheAllocator.alloc (cache_allocator st) size = None ->
  cache_remove_least_valuable (file_cache st) = (None, file_cache st) ->
  CacheAllocator.free (cache_allocator st) uninit.1 uninit.2 = (cache_allocator st, ws) ->
  forall (fuel : nat) attempts,
    0 <= attempts <= 51 -> 52 - attempts <= Z.of_nat fuel ->
    EWarn "possible infinite loop: failed to make room in cache"
      ∈ (file_buf_alloc_loop fuel uninit size st attempts).2.
Proof.
  intros Halloc Hevict Hfree. induction fuel as [|fuel IH]; intros attempts Ha Hf; [lia|].
  cbn [file_buf_alloc_loop]. rewrite Halloc, Hevict.
  destruct uninit as [p sz]. cbn [fst snd] in Hfree. rewrite Hfree.
  replace (with_cache (with_allocator st (cache_allocator st)) (file_cache st))
    with st by (by destruct st).
  specialize (IH (u32 (attempts + 1))).
  destruct (file_buf_alloc_loop fuel (p, sz) size st (u32 (attempts + 1))) as [r evs].
  cbn [fst snd] in *. rewrite !elem_of_app. do 4 right.
  destruct (Z.ltb_spec 50 attempts).
  - left. by apply list_elem_of_singleton.
  - right. apply IH; unfold u32; rewrite Z.mod_small; lia.
Qed.

End Facade.

(** ** Concrete runs, on the map cache *)

(** C2, the failing input: a request for one byte more than the arena holds,
    with an empty cache.  Whatever the number of passes allowed, the loop of
    [file_buf_alloc] has not returned: each pass fails to allocate, finds
    nothing to evict (the TEST on [removed] fails), and from the 52nd pass on
    only adds the warning about a possible infinite loop. *)
Theorem file_buf_alloc_unbounded (fuel : nat) :
  let out := file_buf_alloc fuel (0, 0) start (CacheAllocator.MAX_CACHE_SIZE + 1) 7 false in
  out.1 = None
  /\ ((52 <= fuel)%nat ->
      EWarn "possible infinite loop: failed to make room in cache" ∈ out.2).
Proof.
  cbn zeta. unfold file_buf_alloc.
  pose proof (file_buf_alloc_loop_stuck (0, 0) (CacheAllocator.MAX_CACHE_SIZE + 1) start
                ["invalid pointer"%string] eq_refl eq_refl eq_refl fuel 0) as Hstuck.
  pose proof (file_buf_alloc_loop_warns (0, 0) (CacheAllocator.MAX_CACHE_SIZE + 1) start
                ["invalid pointer"%string] eq_refl eq_refl eq_refl fuel 0) as Hwarn.
  destruct (file_buf_alloc_loop fuel (0, 0) (CacheAllocator.MAX_CACHE_SIZE + 1) start 0)
    as [[r|] evs]; [done|].
  split; [done|]. intros Hfuel. apply Hwarn; lia.
Qed.


(** In [loaded_twice] the second buffer is registered under owner 7 with one
    reference, and the cache holds the first buffer under 7. *)
Example loaded_twice_registry :
  ExtantBufMgr.extant_bufs (extant_bufs loaded_twice)
  = [ExtantBufMgr.mkExtantBuf 1048576 100 7 1 1;
     ExtantBufMgr.mkExtantBuf 1052672 100 7 1 2]
  /\ cache_peek (file_cache loaded_twice) 7 = Some (1048576, 100).
Proof. split; vm_compute; reflexivity. Qed.

(** C7, the failing input: the second buffer of [loaded_twice] is released.
    [find_and_remove] answers fully_released = true for it and the cache does
    not hold it (the entry under owner 7 is the first buffer), so the claim
    has it freed.  [file_buf_free] finds an entry under the owner, fails
    its own [debug_assert(buf_in_cache == buf)] and goes on without calling
    the allocator's [free]: the allocator is as it was, the registry has
    dropped the buffer, and the memory is neither held, cached nor free. *)
Theorem file_buf_free_leaks_second_buffer {pw : PtrWidth} :
  let b := 1052672 in
  let out := file_buf_free loaded_twice b in
  (ExtantBufMgr.find_and_remove (extant_bufs loaded_twice) b).1.1
    = Some (true, b, 100, 7)
  /\ ~ cache_holds (file_cache loaded_twice) 7 b
  /\ out.2 = [EFindAndRemove b; ERetrieve 7;
              EWarn "debug_assert: buf_in_cache == buf";
              EStat "stats_buf_free"; EStat "trace_notify_free"]
  /\ ~ frees_memory out.2
  /\ cache_allocator out.1.2 = cache_allocator loaded_twice
  /\ ExtantBufMgr.display_all_remaining (extant_bufs out.1.2) = [(1048576, 100, 7)]
  /\ (forall c, b ∉ CacheAllocator.freelists (cache_allocator out.1.2) c)
  /\ ~ frees_exactly_when_not_held loaded_twice b.
Proof.
  cbn zeta.
  assert (Hheld : ~ cache_holds (file_cache loaded_twice) 7 1052672).
  { intros [sz Hheld]. vm_compute in Hheld. done. }
  assert (Hfound :
    (ExtantBufMgr.find_and_remove (extant_bufs loaded_twice) 1052672).1.1
    = Some (true, 1052672, 100, 7))
    by (destruct pw as [pb [-> | ->]]; vm_compute; reflexivity).
  assert (Hout : (file_buf_free loaded_twice 1052672).2
         = [EFindAndRemove 1052672; ERetrieve 7;
            EWarn "debug_assert: buf_in_cache == buf";
            EStat "stats_buf_free"; EStat "trace_notify_free"])
    by (destruct pw as [pb [-> | ->]]; vm_compute; reflexivity).
  assert (Hnone : ~ frees_memory (file_buf_free loaded_twice 1052672).2).
  { intros (p & sz & Hin). rewrite Hout in Hin.
    repeat (apply elem_of_cons in Hin as [Hin|Hin]; [done|]).
    by apply elem_of_nil in Hin. }
  split; [exact Hfound|]. split; [exact Hheld|]. split; [exact Hout|].
  split; [exact Hnone|].
  split; [destruct pw as [pb [-> | ->]]; vm_compute; reflexivity|].
  split; [destruct pw as [pb [-> | ->]]; vm_compute; reflexivity|].
  split.
  - intros c Hin.
    destruct pw as [pb [-> | ->]]; vm_compute in Hin; by apply elem_of_nil in Hin.
  - intros Hclaim. apply Hnone.
    apply (Hclaim true 1052672 100 7 Hfound). by split.
Qed.

End FileCacheFacts.

(* ===================================================================== *)
(** * What the cache allocator keeps over its calls *)
(* ===================================================================== *)

Module CacheAllocatorSafety.
Import CacheAllocator CacheAllocatorFacts CacheAllocatorInv.

(** ** The arena does not move *)

Lemma alloc_from_class_pool (st : t) (c s p : Z) (st' : t) :
  alloc_from_class st c s = Some (p, st') -> pool st' = pool st.
Proof.
  unfold alloc_from_class. destruct (first_fit _ _ _) as [cur|]; [|done].
  intros [= _ <-]. by destruct (_ =? 0).
Qed.

Lemma larger_class_loop_pool (fuel : nat) (st : t) (cl s p : Z) (st' : t) :
  larger_class_loop fuel st cl s = Some (p, st') -> pool st' = pool st.
Proof.
  revert cl. induction fuel as [|fuel IH]; intros cl; cbn [larger_class_loop]; [done|].
  destruct (cl =? 0); [done|].
  destruct (alloc_from_class st _ s) as [[q stq]|] eqn:Hc.
  - intros [= <- <-]. by eapply alloc_from_class_pool.
  - apply IH.
Qed.

Lemma expand_prev_pool (st : t) (p s : Z) : pool (expand_prev st p s).1.1 = pool st.
Proof.
  unfold expand_prev. destruct (negb _); [|done]. by destruct (is_valid_tag _ _ _ _).
Qed.

Lemma expand_next_pool (st : t) (p s : Z) : pool (expand_next st p s).1 = pool st.
Proof.
  unfold expand_next. destruct (_ <? _); [|done]. by destruct (is_valid_tag _ _ _ _).
Qed.

Lemma coalesce_and_free_pool (st : t) (p s : Z) :
  pool (coalesce_and_free st p s) = pool st.
Proof.
  unfold coalesce_and_free.
  pose proof (expand_prev_pool st p s) as H1.
  destruct (expand_prev st p s) as [[st1 p1] s1]. cbn [fst] in H1.
  pose proof (expand_next_pool st1 p1 s1) as H2.
  destruct (expand_next st1 p1 s1) as [st2 s2]. cbn [fst] in H2.
  rewrite pool_add. congruence.
Qed.

Lemma free_pool (st : t) (p size : Z) : pool (free st p size).1 = pool st.
Proof.
  unfold free. destruct (_ || _); [done|]. apply coalesce_and_free_pool.
Qed.

Lemma alloc_arena (st : t) (size p : Z) (st' : t) :
  alloc st size = Some (p, st') ->
  da_base (pool st') = da_base (pool st)
  /\ da_max_size (pool st') = da_max_size (pool st).
Proof.
  unfold alloc.
  destruct (alloc_from_class st _ _) as [[q stq]|] eqn:Hc.
  { intros [= <- <-]. by rewrite (alloc_from_class_pool _ _ _ _ _ Hc). }
  destruct (pool_alloc (pool st) _) as [[q pl]|] eqn:Hp.
  { intros [= <- <-]. unfold pool_alloc in Hp.
    destruct (_ <=? _); [|done]. by injection Hp as <- <-. }
  unfold alloc_from_larger_class. intros Hl.
  by rewrite (larger_class_loop_pool _ _ _ _ _ _ Hl).
Qed.

Lemma reachable_arena (base : Z) (st : t) (live : list region) :
  reachable base st live ->
  da_base (pool st) = base /\ da_max_size (pool st) = MAX_CACHE_SIZE.
Proof.
  induction 1 as [|st live size p st' _ IH Hsize Halloc|st live1 live2 p size _ IH].
  - done.
  - destruct (alloc_arena _ _ _ _ Halloc) as [-> ->]. done.
  - by rewrite free_pool.
Qed.

(** The sizes on the freelists are at most the arena's. *)
Lemma reachable_sizes_fit_uint (base : Z) (st : t) (live : list region) :
  reachable base st live -> sizes_fit_uint st.
Proof.
  intros Hr k a Hin.
  pose proof (reachable_Inv _ _ _ Hr) as HI.
  destruct (reachable_arena _ _ _ Hr) as [_ Hmax].
  destruct (inv_free _ _ HI k a Hin) as (_ & _ & _ & _ & _ & _ & Hlo & Hhi).
  pose proof (inv_pos _ _ HI) as Hpos. rewrite Hmax in Hpos.
  unfold MAX_CACHE_SIZE, MiB in Hpos. lia.
Qed.

(** The arena is full and its first two quanta are free (class 13): a
    request for one quantum finds the list of its class (12) empty and no
    room at the tail, and is served by the split of the node of class 13. *)
Lemma alloc_strategy_order_witness :
  exists ideal,
    is_class_of (size_pa_of 4096) ideal
    /\ strategies_in_order two_after_free_neighbour (size_pa_of 4096) ideal
         (alloc two_after_free_neighbour 4096).
Proof.
  apply alloc_strategy_order.
  - lia.
  - vm_compute. reflexivity.
  - apply (reachable_sizes_fit_uint 1048576 _ _ two_after_free_neighbour_reachable).
Defined.

Lemma round_up_ge (n : Z) : n <= round_up n BUF_ALIGN.
Proof.
  unfold round_up, BUF_ALIGN, KiB.
  pose proof (Z.div_mod (n + 4 * 1024 - 1) (4 * 1024) ltac:(lia)) as Hdm.
  pose proof (Z.mod_pos_bound (n + 4 * 1024 - 1) (4 * 1024) ltac:(lia)). lia.
Qed.

(** ** Sums over the lists *)

Lemma unlink_notin (h : Z) (l : list Z) : h ∉ l -> unlink h l = l.
Proof.
  induction l as [|a l IH]; cbn; [done|].
  intros Hn. apply not_elem_of_cons in Hn as [Hne Hn].
  destruct (Z.eqb_spec a h); [congruence|]. by rewrite IH.
Qed.

Lemma sum_ext (f g : Z -> Z) (l : list Z) :
  (forall x, x ∈ l -> f x = g x) ->
  foldr Z.add 0 (f <$> l) = foldr Z.add 0 (g <$> l).
Proof.
  induction l as [|a l IH]; intros Hfg; cbn; [done|].
  rewrite (Hfg a) by (by left). rewrite IH; [done|]. intros x Hx. apply Hfg. by right.
Qed.

Lemma sum_unlink (f : Z -> Z) (a : Z) (l : list Z) :
  a ∈ l -> foldr Z.add 0 (f <$> unlink a l) = foldr Z.add 0 (f <$> l) - f a.
Proof.
  induction l as [|b l IH]; intros Hin; [by apply elem_of_nil in Hin|].
  cbn. destruct (Z.eqb_spec b a) as [->|Hne]; [lia|].
  apply elem_of_cons in Hin as [->|Hin]; [done|]. cbn. rewrite IH by done. lia.
Qed.

Lemma sum_insert_after_walk (f : Z -> Z) (h : Z) (l : list Z) :
  foldr Z.add 0 (f <$> insert_after_walk h l) = f h + foldr Z.add 0 (f <$> l).
Proof.
  induction l as [|a l IH]; cbn; [done|].
  destruct (h <=? a); cbn; [rewrite IH|]; lia.
Qed.

Lemma sum_update (g g' : Z -> Z) (c0 d : Z) (l : list Z) :
  NoDup l -> c0 ∈ l ->
  (forall c, c ∈ l -> c <> c0 -> g' c = g c) -> g' c0 = g c0 + d ->
  foldr Z.add 0 (g' <$> l) = foldr Z.add 0 (g <$> l) + d.
Proof.
  intros Hnd Hin Hother Hc0. induction Hnd as [|a l Ha Hnd IH]; [by apply elem_of_nil in Hin|].
  cbn. apply elem_of_cons in Hin as [<-|Hin].
  - rewrite Hc0. rewrite (sum_ext g' g l); [lia|].
    intros x Hx. apply Hother; [by right|]. by intros ->.
  - rewrite IH; [|done|intros c Hc; apply Hother; by right].
    rewrite (Hother a); [lia|by left|]. by intros ->.
Qed.

Lemma sum_perm (l l' : list Z) :
  l ≡ₚ l' -> foldr Z.add 0 l = foldr Z.add 0 l'.
Proof. induction 1; cbn; lia. Qed.

Lemma class_in_range (c : Z) : 0 <= c < 32 -> c ∈ seqZ 0 32.
Proof. intros Hc. apply elem_of_seqZ. lia. Qed.

Lemma listed_class (st : t) (R : list region) (c a : Z) :
  Inv st R -> a ∈ freelists st c -> 0 <= c < 32.
Proof.
  intros HI Ha. destruct (inv_free _ _ HI c a Ha) as (_ & _ & _ & _ & _ & <- & _).
  apply size_class_range.
Qed.

Lemma listed_one_class (st : t) (R : list region) (c c' a : Z) :
  Inv st R -> a ∈ freelists st c -> a ∈ freelists st c' -> c' = c.
Proof.
  intros HI Ha Ha'.
  destruct (inv_free _ _ HI c a Ha) as (_ & _ & _ & _ & _ & Hc & _).
  destruct (inv_free _ _ HI c' a Ha') as (_ & _ & _ & _ & _ & Hc' & _).
  congruence.
Qed.

Lemma listed_bytes_remove (st : t) (R : list region) (c a : Z) :
  Inv st R -> a ∈ freelists st c ->
  listed_bytes (freelist_remove st a) = listed_bytes st - free_size st a.
Proof.
  intros HI Ha. unfold listed_bytes.
  replace (foldr Z.add 0 _ - free_size st a)
    with (foldr Z.add 0
            ((fun c => foldr Z.add 0 (free_size st <$> freelists st c)) <$> seqZ 0 32)
          + - free_size st a) by lia.
  apply (sum_update _ _ c).
  - apply NoDup_seqZ.
  - apply class_in_range. by eapply listed_class.
  - intros c' _ Hne. rewrite freelists_remove.
    assert (Hn : a ∉ freelists st c').
    { intros Ha'. apply Hne. by eapply listed_one_class. }
    rewrite unlink_notin by done. apply sum_ext.
    intros x Hx. apply free_size_remove. by intros ->.
  - rewrite freelists_remove.
    rewrite (sum_ext (free_size (freelist_remove st a)) (free_size st)).
    + rewrite sum_unlink by done. lia.
    + intros x Hx. apply free_size_remove. intros ->.
      revert Hx. apply not_elem_of_unlink, (inv_sorted _ _ HI).
Qed.

Lemma listed_bytes_add (st : t) (R : list region) (p s : Z) :
  Inv st ((p, s) :: R) ->
  listed_bytes (freelist_add st p s) = listed_bytes st + s.
Proof.
  intros HI. unfold listed_bytes.
  assert (Hold : forall c x, x ∈ freelists st c -> x <> p).
  { intros c x Hx ->. revert Hx. eapply live_start_not_listed; [exact HI|by left]. }
  apply (sum_update _ _ (size_class_of s)).
  - apply NoDup_seqZ.
  - apply class_in_range, size_class_range.
  - intros c' _ Hne. rewrite freelists_add, decide_False by done.
    apply sum_ext. intros x Hx. apply free_size_add. by eapply Hold.
  - rewrite freelists_add, decide_True by done.
    rewrite sum_insert_after_walk, free_size_add_eq.
    rewrite (sum_ext (free_size (freelist_add st p s)) (free_size st)); [lia|].
    intros x Hx. apply free_size_add. by eapply Hold.
Qed.

(** ** The bitmap *)

Lemma testbit_BIT (k c : Z) : 0 <= k -> Z.testbit (BIT k) c = (k =? c).
Proof. intros Hk. unfold BIT. rewrite Z.shiftl_1_l. by apply Z.pow2_bits_eqb. Qed.

Lemma add_bitmap (st : t) (p s : Z) :
  bitmap_exact st -> bitmap_exact (freelist_add st p s).
Proof.
  intros HB c. pose proof (size_class_range s) as Hk.
  change (bitmap (freelist_add st p s))
    with (Z.lor (bitmap st) (BIT (size_class_of s))).
  rewrite freelists_add, Z.lor_spec, testbit_BIT by lia.
  destruct (decide (c = size_class_of s)) as [->|Hne].
  - rewrite Z.eqb_refl, orb_true_r. split; [|done]. intros _ Hnil.
    assert (Hin : p ∈ insert_after_walk p (freelists st (size_class_of s)))
      by (apply elem_of_insert_after_walk; by left).
    rewrite Hnil in Hin. by apply elem_of_nil in Hin.
  - destruct (Z.eqb_spec (size_class_of s) c); [congruence|].
    rewrite orb_false_r. apply HB.
Qed.

Lemma remove_bitmap (st : t) (R : list region) (c a : Z) :
  Inv st R -> a ∈ freelists st c ->
  bitmap_exact st -> bitmap_exact (freelist_remove st a).
Proof.
  intros HI Ha HB c'.
  destruct (inv_free _ _ HI c a Ha) as (_ & _ & _ & _ & _ & Hcl & _).
  pose proof (listed_class _ _ _ _ HI Ha) as Hk.
  rewrite freelists_remove.
  change (bitmap (freelist_remove st a))
    with (match unlink a (freelists st (size_class_of (free_size st a))) with
          | [] => Z.land (bitmap st) (Z.lnot (BIT (size_class_of (free_size st a))))
          | _ => bitmap st
          end).
  rewrite Hcl.
  destruct (decide (c' = c)) as [->|Hne].
  - destruct (unlink a (freelists st c)) eqn:Hu.
    + rewrite Z.land_spec, Z.lnot_spec, testbit_BIT, Z.eqb_refl by lia.
      cbn. rewrite andb_false_r. split; [intros [=]|]. intros Hnn. by destruct Hnn.
    + split; [done|]. intros _. apply HB. intros Hnil.
      rewrite Hnil in Ha. by apply elem_of_nil in Ha.
  - assert (Hn : a ∉ freelists st c').
    { intros Ha'. apply Hne. by eapply listed_one_class. }
    rewrite (unlink_notin a (freelists st c')) by done.
    destruct (unlink a (freelists st c)); [|apply HB].
    destruct (decide (0 <= c')).
    + rewrite Z.land_spec, Z.lnot_spec, testbit_BIT by lia.
      destruct (Z.eqb_spec c c'); [congruence|]. cbn. rewrite andb_true_r. apply HB.
    + rewrite Z.testbit_neg_r by lia. rewrite <- (HB c').
      by rewrite Z.testbit_neg_r by lia.
Qed.

(** ** The four properties through the list operations *)

Lemma region_bytes_cons (p s : Z) (R : list region) :
  region_bytes ((p, s) :: R) = s + region_bytes R.
Proof. done. Qed.

Lemma remove_kept (st : t) (R : list region) (c a : Z) :
  Inv st R -> Kept st R -> a ∈ freelists st c ->
  Kept (freelist_remove st a) ((a, free_size st a) :: R).
Proof.
  intros HI [HB HC (Hpos & HR & HL) Hbytes] Ha.
  assert (Hin' : forall c' x, x ∈ freelists (freelist_remove st a) c' ->
                   x ∈ freelists st c' /\ x <> a).
  { intros c' x Hx. rewrite freelists_remove in Hx. split.
    - by eapply elem_of_unlink.
    - intros ->. revert Hx. apply not_elem_of_unlink, (inv_sorted _ _ HI). }
  constructor.
  - by eapply remove_bitmap.
  - intros c1 c2 x y Hx Hy.
    apply Hin' in Hx as [Hx Hxa]. apply Hin' in Hy as [Hy _].
    rewrite free_size_remove by done. by eapply HC.
  - split; [exact Hpos|]. split.
    + intros p s Hps. apply elem_of_cons in Hps as [[= -> ->]|Hps];
        [exact (HL _ _ Ha) | exact (HR _ _ Hps)].
    + intros c' x Hx. apply Hin' in Hx as [Hx _]. exact (HL _ _ Hx).
  - rewrite (listed_bytes_remove _ _ _ _ HI Ha), region_bytes_cons.
    change (pool (freelist_remove st a)) with (pool st). lia.
Qed.

Lemma add_kept (st : t) (R : list region) (p s : Z) :
  Inv st ((p, s) :: R) -> Kept st ((p, s) :: R) ->
  no_free_neighbour st p s ->
  Kept (freelist_add st p s) R.
Proof.
  intros HI [HB HC (Hpos & HR & HL) Hbytes] Hno.
  destruct (inv_res _ _ HI p s ltac:(by left)) as (Hs & _).
  assert (Hold : forall c x, x ∈ freelists st c -> x <> p).
  { intros c x Hx ->. revert Hx. eapply live_start_not_listed; [exact HI|by left]. }
  constructor.
  - by apply add_bitmap.
  - intros c1 c2 x y Hx Hy.
    apply elem_of_freelists_add in Hx as [[-> ->]|Hx];
      apply elem_of_freelists_add in Hy as [[-> ->]|Hy].
    + rewrite free_size_add_eq. lia.
    + rewrite free_size_add_eq. intros <-. by destruct (Hno _ _ Hy).
    + rewrite free_size_add by (by eapply Hold). by destruct (Hno _ _ Hx).
    + rewrite free_size_add by (by eapply Hold). by eapply HC.
  - split; [exact Hpos|]. split.
    + intros q sq Hq. apply (HR q sq). by right.
    + intros c x Hx. apply elem_of_freelists_add in Hx as [[-> _]|Hx];
        [|exact (HL _ _ Hx)].
      apply (HR p s). by left.
  - rewrite (listed_bytes_add _ _ _ _ HI).
    change (pool (freelist_add st p s)) with (pool st).
    rewrite region_bytes_cons in Hbytes. lia.
Qed.

Lemma Kept_perm (st : t) (R R' : list region) : R ≡ₚ R' -> Kept st R -> Kept st R'.
Proof.
  intros HP [HB HC (Hpos & HR & HL) Hbytes]. constructor; [done|done| |].
  - split; [done|]. split; [|done]. intros p s Hps. rewrite <- HP in Hps. eauto.
  - rewrite <- Hbytes. f_equal. unfold region_bytes. apply sum_perm.
    by rewrite HP.
Qed.

Lemma Kept_merge (st : t) (R : list region) (p s1 s2 : Z) :
  Kept st ((p, s1) :: (p + s1, s2) :: R) -> Kept st ((p, s1 + s2) :: R).
Proof.
  intros [HB HC (Hpos & HR & HL) Hbytes]. constructor; [done|done| |].
  - split; [done|]. split; [|done]. intros q sq Hq.
    apply elem_of_cons in Hq as [[= -> ->]|Hq].
    + apply HR with s1. by left.
    + apply HR with sq. right. by right.
  - rewrite !region_bytes_cons in *. lia.
Qed.

Lemma Kept_split (st : t) (R : list region) (p s1 s2 : Z) :
  aligned s1 ->
  Kept st ((p, s1 + s2) :: R) -> Kept st ((p + s1, s2) :: (p, s1) :: R).
Proof.
  intros Hal [HB HC (Hpos & HR & HL) Hbytes]. constructor; [done|done| |].
  - split; [done|]. split; [|done]. intros q sq Hq.
    pose proof (HR p (s1 + s2) ltac:(by left)) as Hp.
    apply elem_of_cons in Hq as [[= -> ->]|Hq];
      [|apply elem_of_cons in Hq as [[= -> ->]|Hq]].
    + replace (p + s1 - da_base (pool st)) with (p - da_base (pool st) + s1) by lia.
      by apply Z.divide_add_r.
    + done.
    + apply HR with sq. by right.
  - rewrite !region_bytes_cons in *. lia.
Qed.

Lemma Kept_init (base : Z) : Kept (init base) [].
Proof.
  constructor.
  - intros c. cbn. rewrite Z.bits_0. done.
  - intros c c' x y Hx. by apply elem_of_nil in Hx.
  - split; [apply Z.divide_0_r|]. split.
    + intros p s Hin. by apply elem_of_nil in Hin.
    + intros c a Hin. by apply elem_of_nil in Hin.
  - vm_compute. reflexivity.
Qed.

(** ** The four properties through [alloc] and [free] *)

Lemma alloc_from_class_kept (st : t) (R : list region) (c size_pa p : Z) (st' : t) :
  Inv st R -> Kept st R -> 0 < size_pa -> aligned size_pa ->
  alloc_from_class st c size_pa = Some (p, st') ->
  Kept st' ((p, size_pa) :: R).
Proof.
  intros HI HK Hpos Hal. unfold alloc_from_class.
  destruct (first_fit st size_pa (freelists st c)) as [cur|] eqn:Hf; [|done].
  apply first_fit_Some in Hf as [Hin Hle]. intros [= <- <-].
  pose proof (remove_inv st R c cur HI Hin) as HI1.
  pose proof (remove_kept st R c cur HI HK Hin) as HK1.
  destruct (inv_free _ _ HI c cur Hin) as (_ & _ & _ & _ & Hals & _).
  fold (free_size st cur).
  destruct (Z.eqb_spec (free_size st cur - size_pa) 0) as [Heq|Hne].
  - by replace size_pa with (free_size st cur) by lia.
  - set (rem := free_size st cur - size_pa).
    assert (HI2 : Inv (freelist_remove st cur)
                    ((cur + size_pa, rem) :: (cur, size_pa) :: R)).
    { apply Inv_split; [done | unfold rem; lia | done
                        | by apply Z.divide_sub_r |].
      by replace (size_pa + rem) with (free_size st cur) by (unfold rem; lia). }
    apply add_kept; [done| |].
    + apply Kept_split; [done|].
      by replace (size_pa + rem) with (free_size st cur) by (unfold rem; lia).
    + intros c' x Hx.
      pose proof Hx as Hx0. rewrite freelists_remove in Hx0.
      apply elem_of_unlink in Hx0.
      assert (Hxc : x <> cur).
      { intros ->. revert Hx. rewrite freelists_remove.
        apply not_elem_of_unlink, (inv_sorted _ _ HI). }
      rewrite free_size_remove by done. split.
      * destruct (inv_free _ _ HI c' x Hx0) as (_ & _ & _ & Hposx & _).
        pose proof (inv_free_free _ _ HI c' c x cur Hx0 Hin Hxc) as Hd.
        unfold disjoint in Hd; cbn in Hd. unfold rem. lia.
      * pose proof (kept_coalesced _ _ HK c c' cur x Hin Hx0). unfold rem. lia.
Qed.

Lemma pool_alloc_kept (st : t) (R : list region) (s p : Z) (pl : Pool) :
  Kept st R -> aligned s ->
  pool_alloc (pool st) s = Some (p, pl) ->
  Kept (with_pool st pl) ((p, s) :: R).
Proof.
  intros [HB HC (Hpos & HR & HL) Hbytes] Hal. unfold pool_alloc.
  destruct (Z.leb_spec (da_pos (pool st) + s) (da_max_size (pool st))); [|done].
  intros [= <- <-]. constructor.
  - done.
  - done.
  - cbn [with_pool pool da_pos da_base]. split; [by apply Z.divide_add_r|]. split; [|done].
    intros q sq Hq. apply elem_of_cons in Hq as [[= -> ->]|Hq]; [|exact (HR _ _ Hq)].
    cbn [with_pool pool da_base].
    by replace (da_base (pool st) + da_pos (pool st) - da_base (pool st))
      with (da_pos (pool st)) by lia.
  - rewrite region_bytes_cons. cbn [with_pool pool da_pos].
    change (listed_bytes (with_pool st _)) with (listed_bytes st). lia.
Qed.

Lemma larger_class_loop_kept (fuel : nat) (st : t) (R : list region)
    (classes_left size_pa p : Z) (st' : t) :
  Inv st R -> Kept st R -> 0 < size_pa -> aligned size_pa ->
  larger_class_loop fuel st classes_left size_pa = Some (p, st') ->
  Kept st' ((p, size_pa) :: R).
Proof.
  intros HI HK Hpos Hal. revert classes_left.
  induction fuel as [|fuel IH]; intros classes_left; cbn [larger_class_loop]; [done|].
  destruct (classes_left =? 0); [done|].
  destruct (alloc_from_class st _ size_pa) as [[q stq]|] eqn:Hc.
  - intros [= <- <-]. by eapply alloc_from_class_kept.
  - apply IH.
Qed.

Lemma alloc_kept (st : t) (R : list region) (size p : Z) (st' : t) :
  Inv st R -> Kept st R -> 0 <= size -> alloc st size = Some (p, st') ->
  Kept st' ((p, size_pa_of size) :: R).
Proof.
  intros HI HK Hsize. destruct (size_pa_of_ok size Hsize) as [Hpos Hal].
  unfold alloc. fold (size_pa_of size).
  destruct (alloc_from_class st _ (size_pa_of size)) as [[q stq]|] eqn:Hc.
  { intros [= <- <-]. by eapply alloc_from_class_kept. }
  destruct (pool_alloc (pool st) (size_pa_of size)) as [[q pl]|] eqn:Hp.
  { intros [= <- <-]. by eapply pool_alloc_kept. }
  unfold alloc_from_larger_class. by apply larger_class_loop_kept.
Qed.

(** After the first half of [coalesce_and_free] no listed region ends where
    the region under way starts. *)
Lemma expand_prev_kept (st : t) (R : list region) (p s : Z) :
  Inv st ((p, s) :: R) -> Kept st ((p, s) :: R) ->
  Kept (expand_prev st p s).1.1
       (((expand_prev st p s).1.2, (expand_prev st p s).2) :: R)
  /\ forall c x, x ∈ freelists (expand_prev st p s).1.1 c ->
       x + free_size (expand_prev st p s).1.1 x <> (expand_prev st p s).1.2.
Proof.
  intros HI HK. unfold expand_prev.
  assert (Hnone : is_valid_tag FOOTER_ID (f_id (read_footer st p))
                    (f_magic (read_footer st p)) (f_size_pa (read_footer st p)) = false ->
                  forall c x, x ∈ freelists st c -> x + free_size st x <> p).
  { intros Hv c x Hx Hend.
    destruct (inv_free _ _ HI c x Hx) as (_ & _ & Hft & _).
    rewrite Hend in Hft. rewrite Hft in Hv. cbn in Hv.
    assert (is_valid_tag FOOTER_ID FOOTER_ID MAGIC (free_size st x) = true)
      by (by apply is_valid_tag_true).
    congruence. }
  destruct (Z.eqb_spec p (da_base (pool st))) as [Hbase|Hbase]; cbn [negb].
  { cbn [fst snd]. split; [done|]. intros c x Hx Hend.
    destruct (inv_free _ _ HI c x Hx) as (_ & _ & _ & Hposx & _ & _ & Hlo & _). lia. }
  destruct (is_valid_tag _ _ _ _) eqn:Hv; cbn [fst snd]; [|split; [done|by apply Hnone]].
  apply is_valid_tag_true in Hv as [Hid Hmg].
  destruct (inv_ftr _ _ HI p Hid Hmg) as [Hin Hsz].
  set (fs := f_size_pa (read_footer st p)) in *.
  pose proof (remove_kept _ _ _ _ HI HK Hin) as HK1. rewrite Hsz in HK1.
  split.
  - replace (s + fs) with (fs + s) by lia. apply Kept_merge.
    by replace (p - fs + fs) with p by lia.
  - intros c x Hx.
    pose proof Hx as Hx0. rewrite freelists_remove in Hx0. apply elem_of_unlink in Hx0.
    assert (Hxc : x <> p - fs).
    { intros ->. revert Hx. rewrite freelists_remove.
      apply not_elem_of_unlink, (inv_sorted _ _ HI). }
    rewrite free_size_remove by done.
    exact (kept_coalesced _ _ HK c _ x (p - fs) Hx0 Hin).
Qed.

(** After the second half no listed region touches the region under way. *)
Lemma expand_next_kept (st : t) (R : list region) (p s : Z) :
  Inv st ((p, s) :: R) -> Kept st ((p, s) :: R) ->
  (forall c x, x ∈ freelists st c -> x + free_size st x <> p) ->
  Kept (expand_next st p s).1 ((p, (expand_next st p s).2) :: R)
  /\ no_free_neighbour (expand_next st p s).1 p (expand_next st p s).2.
Proof.
  intros HI HK Hprev. unfold expand_next, da_cur_size.
  destruct (Z.ltb_spec (p + s) (da_base (pool st) + da_pos (pool st))) as [Hlt|Hge];
    cbn [fst snd].
  2:{ split; [done|]. intros c x Hx. split; [by eapply Hprev|]. intros ->.
      destruct (inv_free _ _ HI c _ Hx) as (_ & _ & _ & Hposx & _ & _ & _ & Hhi). lia. }
  destruct (is_valid_tag _ _ _ _) eqn:Hv; cbn [fst snd].
  2:{ split; [done|]. intros c x Hx. split; [by eapply Hprev|]. intros ->.
      destruct (inv_free _ _ HI c _ Hx) as (Hid & Hmg & _).
      rewrite Hid, Hmg in Hv.
      assert (is_valid_tag HEADER_ID HEADER_ID MAGIC (h_size_pa (read_header st (p + s)))
              = true) by (by apply is_valid_tag_true).
      congruence. }
  apply is_valid_tag_true in Hv as [Hid Hmg].
  pose proof (inv_hdr _ _ HI (p + s) Hid Hmg) as Hin.
  fold (free_size st (p + s)) in *.
  pose proof (remove_kept _ _ _ _ HI HK Hin) as HK1.
  split.
  - apply Kept_merge. eapply Kept_perm; [|exact HK1]. apply Permutation_swap.
  - intros c x Hx.
    pose proof Hx as Hx0. rewrite freelists_remove in Hx0. apply elem_of_unlink in Hx0.
    assert (Hxc : x <> p + s).
    { intros ->. revert Hx. rewrite freelists_remove.
      apply not_elem_of_unlink, (inv_sorted _ _ HI). }
    rewrite free_size_remove by done. split; [by eapply Hprev|].
    pose proof (kept_coalesced _ _ HK _ c (p + s) x Hin Hx0). lia.
Qed.

Lemma coalesce_and_free_kept (st : t) (R : list region) (p s : Z) :
  Inv st ((p, s) :: R) -> Kept st ((p, s) :: R) ->
  Kept (coalesce_and_free st p s) R.
Proof.
  intros HI HK. unfold coalesce_and_free.
  pose proof (expand_prev_inv st R p s HI) as HI1.
  destruct (expand_prev_kept st R p s HI HK) as [HK1 Hprev].
  destruct (expand_prev st p s) as [[st1 p1] s1]. cbn [fst snd] in *.
  pose proof (expand_next_inv st1 R p1 s1 HI1) as HI2.
  destruct (expand_next_kept st1 R p1 s1 HI1 HK1 Hprev) as [HK2 Hno].
  destruct (expand_next st1 p1 s1) as [st2 s2]. cbn [fst snd] in *.
  by apply add_kept.
Qed.

Lemma free_kept (st : t) (R : list region) (p size : Z) :
  Inv st ((p, round_up size BUF_ALIGN) :: R) ->
  Kept st ((p, round_up size BUF_ALIGN) :: R) ->
  Kept (free st p size).1 R.
Proof.
  intros HI HK. rewrite (free_live _ _ _ _ HI). by apply coalesce_and_free_kept.
Qed.

Lemma reachable_Kept (base : Z) (st : t) (live : list region) :
  reachable base st live -> Kept st live.
Proof.
  induction 1 as [|st live size p st' Hr IH Hsize Halloc|st live1 live2 p size Hr IH].
  - apply Kept_init.
  - eapply alloc_kept; [by eapply reachable_Inv|done..].
  - pose proof (reachable_Inv _ _ _ Hr) as HI.
    assert (HP : (p, round_up size BUF_ALIGN) :: live1 ++ live2
                 ≡ₚ live1 ++ (p, round_up size BUF_ALIGN) :: live2)
      by apply Permutation_middle.
    apply free_kept.
    + eapply Inv_perm; [|exact HI]. by symmetry.
    + eapply Kept_perm; [|exact IH]. by symmetry.
Qed.

(** ** When [alloc] fails *)

Lemma size_class_le (s s' : Z) :
  0 < s -> s <= s' -> s' < 2 ^ 32 -> size_class_of s <= size_class_of s'.
Proof.
  intros Hs Hle Hb. unfold size_class_of, log2, u32.
  rewrite !Z.mod_small by lia. by apply Z.log2_le_mono.
Qed.

Lemma first_success_None (st : t) (s : Z) (l : list Z) :
  first_success st s l = None ->
  forall c, c ∈ l -> first_fit st s (freelists st c) = None.
Proof.
  induction l as [|c0 l IH]; intros Hn c Hc; [by apply elem_of_nil in Hc|].
  cbn [first_success] in Hn.
  destruct (alloc_from_class st c0 s) as [r|] eqn:Hf; [done|].
  apply elem_of_cons in Hc as [->|Hc]; [|by apply IH].
  unfold alloc_from_class in Hf. by destruct (first_fit st s (freelists st c0)).
Qed.

Lemma alloc_from_class_fits (st : t) (c s p : Z) (st' : t) :
  alloc_from_class st c s = Some (p, st') -> fits_listed st s.
Proof.
  unfold alloc_from_class.
  destruct (first_fit st s (freelists st c)) as [cur|] eqn:Hf; [|done].
  intros _. apply first_fit_Some in Hf as [Hin Hle]. by exists c, cur.
Qed.

Lemma larger_class_loop_fits (fuel : nat) (st : t) (cl s p : Z) (st' : t) :
  larger_class_loop fuel st cl s = Some (p, st') -> fits_listed st s.
Proof.
  revert cl. induction fuel as [|fuel IH]; intros cl; cbn [larger_class_loop]; [done|].
  destruct (cl =? 0); [done|].
  destruct (alloc_from_class st _ s) as [[q stq]|] eqn:Hc.
  - intros _. by eapply alloc_from_class_fits.
  - apply IH.
Qed.

Lemma alloc_from_larger_class_loop (st : t) (k s : Z) :
  alloc_from_larger_class st k s
  = larger_class_loop 32 st (bits_from (bitmap st) k) s.
Proof. reflexivity. Qed.

(** The scan of the bitmap tries every class from [k] on whose bit is set. *)
Lemma alloc_from_larger_class_scan (st : t) (k s : Z) :
  0 <= k < 32 ->
  alloc_from_larger_class st k s
  = first_success st s
      (filter (fun c => Z.testbit (bitmap st) c)
         (seqZ k (Z.of_nat (Z.to_nat (32 - k))))).
Proof.
  intros Hk. rewrite alloc_from_larger_class_loop.
  apply (larger_class_loop_spec st (bitmap st) s (Z.to_nat (32 - k)) k 32%nat); lia.
Qed.

Lemma alloc_from_larger_class_None (st : t) (k s c : Z) :
  alloc_from_larger_class st k s = None ->
  0 <= k -> k <= c < 32 -> Z.testbit (bitmap st) c = true ->
  first_fit st s (freelists st c) = None.
Proof.
  intros Hl Hk Hc Hbit. rewrite alloc_from_larger_class_scan in Hl by lia.
  apply (first_success_None _ _ _ Hl).
  apply list_elem_of_filter. split; [by apply Is_true_true|].
  apply elem_of_seqZ. lia.
Qed.

(** With the bitmap exact, a failed [alloc] has looked at every list that
    could hold a fit. *)
Lemma alloc_None_no_fit (st : t) (R : list region) (size : Z) :
  Inv st R -> bitmap_exact st -> da_max_size (pool st) = MAX_CACHE_SIZE ->
  0 <= size -> alloc st size = None ->
  ~ fits_listed st (size_pa_of size) /\ ~ fits_tail st (size_pa_of size).
Proof.
  intros HI HB Hmax Hsize Halloc. destruct (size_pa_of_ok size Hsize) as [Hpos Hal].
  assert (Hparts : pool_alloc (pool st) (size_pa_of size) = None
                   /\ alloc_from_larger_class st (size_class_of (size_pa_of size))
                        (size_pa_of size) = None).
  { unfold alloc in Halloc. fold (size_pa_of size) in Halloc.
    destruct (alloc_from_class st _ (size_pa_of size)); [done|].
    by destruct (pool_alloc (pool st) (size_pa_of size)) as [[q pl]|]. }
  destruct Hparts as [Hp Hl]. split.
  - intros (c & a & Ha & Hle).
    destruct (inv_free _ _ HI c a Ha) as (_ & _ & _ & Hposa & _ & Hcl & Hlo & Hhi).
    pose proof (inv_pos _ _ HI) as Hp'. rewrite Hmax in Hp'.
    assert (Hbound : free_size st a < 2 ^ 32).
    { assert (MAX_CACHE_SIZE = 67108864) by reflexivity. lia. }
    pose proof (size_class_le _ _ Hpos Hle Hbound) as Hcls. rewrite Hcl in Hcls.
    pose proof (listed_class _ _ _ _ HI Ha) as Hcr.
    pose proof (size_class_range (size_pa_of size)) as Hir.
    assert (Hbit : Z.testbit (bitmap st) c = true).
    { apply HB. intros Hnil. rewrite Hnil in Ha. by apply elem_of_nil in Ha. }
    pose proof (alloc_from_larger_class_None _ _ _ c Hl ltac:(lia) ltac:(lia) Hbit)
      as Hnone.
    destruct (first_fit_exists st _ _ a Ha Hle) as [cur Hcur]. congruence.
  - unfold fits_tail. unfold pool_alloc in Hp.
    destruct (Z.leb_spec (da_pos (pool st) + size_pa_of size) (da_max_size (pool st)));
      [done|lia].
Qed.

(** ** What [free] leaves on the lists *)

Lemma expand_prev_size (st : t) (R : list region) (p s : Z) :
  Inv st ((p, s) :: R) -> s <= (expand_prev st p s).2.
Proof.
  intros HI. unfold expand_prev.
  destruct (negb _); cbn [snd]; [|lia].
  destruct (is_valid_tag _ _ _ _) eqn:Hv; cbn [snd]; [|lia].
  apply is_valid_tag_true in Hv as [Hid Hmg].
  destruct (inv_ftr _ _ HI p Hid Hmg) as [Hin Hsz].
  destruct (inv_free _ _ HI _ _ Hin) as (_ & _ & _ & Hpos & _). lia.
Qed.

Lemma expand_next_size (st : t) (R : list region) (p s : Z) :
  Inv st ((p, s) :: R) -> s <= (expand_next st p s).2.
Proof.
  intros HI. unfold expand_next.
  destruct (_ <? _); cbn [snd]; [|lia].
  destruct (is_valid_tag _ _ _ _) eqn:Hv; cbn [snd]; [|lia].
  apply is_valid_tag_true in Hv as [Hid Hmg].
  pose proof (inv_hdr _ _ HI (p + s) Hid Hmg) as Hin.
  destruct (inv_free _ _ HI _ _ Hin) as (_ & _ & _ & Hpos & _).
  unfold free_size in Hpos. lia.
Qed.

(** The entry that [coalesce_and_free] lists has room for the region. *)
Lemma coalesce_and_free_fits (st : t) (R : list region) (p s : Z) :
  Inv st ((p, s) :: R) -> fits_listed (coalesce_and_free st p s) s.
Proof.
  intros HI. unfold coalesce_and_free.
  pose proof (expand_prev_inv st R p s HI) as HI1.
  pose proof (expand_prev_size st R p s HI) as Hs1.
  destruct (expand_prev st p s) as [[st1 p1] s1]. cbn [fst snd] in *.
  pose proof (expand_next_size st1 R p1 s1 HI1) as Hs2.
  destruct (expand_next st1 p1 s1) as [st2 s2]. cbn [fst snd] in *.
  exists (size_class_of s2), p1. split.
  - apply elem_of_freelists_add. by left.
  - rewrite free_size_add_eq. lia.
Qed.

(** ** The properties, over every sequence of calls *)

(** X1: for a request whose rounded size is below 2^32 (the rounding does
    not wrap and the size fits the [uint] of [size_class_of]), the region
    that [alloc] returns has room for the request, lies inside the arena and
    shares no byte with a region that is still out (the self test's "must
    not already have been allocated"). *)
Theorem alloc_region_fresh (base : Z) (st : t) (live : list region)
    (size p : Z) (st' : t) :
  reachable base st live -> 0 <= size -> size_pa_of size < 2 ^ 32 ->
  alloc st size = Some (p, st') ->
  size <= size_pa_of size
  /\ base <= p /\ p + size_pa_of size <= base + MAX_CACHE_SIZE
  /\ forall r, r ∈ live -> disjoint (p, size_pa_of size) r.
Proof.
  intros Hr Hsize _ Halloc.
  pose proof (reach_alloc _ _ _ _ _ _ Hr Hsize Halloc) as Hr'.
  pose proof (reachable_Inv _ _ _ Hr') as HI.
  destruct (reachable_arena _ _ _ Hr') as [Hbase Hmax].
  destruct (inv_res _ _ HI p _ ltac:(by left)) as (_ & _ & Hlo & Hhi).
  pose proof (inv_pos _ _ HI) as Hpos.
  split; [|split; [lia|split; [lia|]]].
  - unfold size_pa_of. pose proof (round_up_ge (if size =? 0 then 1 else size)).
    destruct (Z.eqb_spec size 0); lia.
  - intros r Hin. apply (inv_res_disj _ _ HI); [by left|by right|].
    intros <-. pose proof (inv_res_nodup _ _ HI) as Hnd.
    by apply NoDup_cons in Hnd as [? _].
Qed.

Lemma alloc_region_fresh_witness :
  disjoint (1056768, size_pa_of 100) (1052672, 4096).
Proof.
  refine (proj2 (proj2 (proj2
    (alloc_region_fresh 1048576 first_and_third_freed [(1052672, 4096)] 100
       1056768
       (state_of (alloc first_and_third_freed 100) first_and_third_freed)
       first_and_third_freed_reachable _ _ _))) (1052672, 4096) _).
  - lia.
  - vm_compute. reflexivity.
  - vm_compute. reflexivity.
  - by left.
Defined.

(** X2: bit [c] of the bitmap is set exactly when the freelist of class
    [c] is not empty. *)
Theorem bitmap_tracks_lists (base : Z) (st : t) (live : list region) (c : Z) :
  reachable base st live ->
  (Z.testbit (bitmap st) c = true <-> freelists st c <> []).
Proof. intros Hr. apply (kept_bitmap _ _ (reachable_Kept _ _ _ Hr)). Qed.

Lemma bitmap_tracks_lists_witness :
  Z.testbit (bitmap first_and_third_freed) 12 = true
  <-> freelists first_and_third_freed 12 <> [].
Proof.
  apply (bitmap_tracks_lists 1048576 _ [(1052672, 4096)]).
  apply first_and_third_freed_reachable.
Defined.

(** X3: for a request whose rounded size is below 2^32 (the rounding does
    not wrap and the size fits the [uint] of [size_class_of]), [alloc]
    returns null exactly when no listed region has room for the rounded
    request and the untouched tail of the arena has not either: the search
    of the ideal class and the scan of the bitmap miss no fit. *)
Theorem alloc_fails_iff (base : Z) (st : t) (live : list region) (size : Z) :
  reachable base st live -> 0 <= size -> size_pa_of size < 2 ^ 32 ->
  (alloc st size = None
   <-> ~ fits_listed st (size_pa_of size) /\ ~ fits_tail st (size_pa_of size)).
Proof.
  intros Hr Hsize _. split.
  - apply (alloc_None_no_fit st live); [by eapply reachable_Inv | | |done].
    + apply (kept_bitmap _ _ (reachable_Kept _ _ _ Hr)).
    + apply (reachable_arena _ _ _ Hr).
  - intros [Hnl Hnt]. unfold alloc. fold (size_pa_of size).
    destruct (alloc_from_class st _ (size_pa_of size)) as [[q stq]|] eqn:Hc.
    { exfalso. apply Hnl. by eapply alloc_from_class_fits. }
    destruct (pool_alloc (pool st) (size_pa_of size)) as [[q pl]|] eqn:Hp.
    { exfalso. apply Hnt. unfold fits_tail. unfold pool_alloc in Hp.
      destruct (Z.leb_spec (da_pos (pool st) + size_pa_of size) (da_max_size (pool st)));
        [done|discriminate]. }
    unfold alloc_from_larger_class.
    destruct (larger_class_loop 32 st _ (size_pa_of size)) as [[q stq]|] eqn:Hl; [|done].
    exfalso. apply Hnl. by eapply larger_class_loop_fits.
Qed.

Lemma alloc_fails_iff_witness :
  ~ fits_listed two_after_free_neighbour (size_pa_of 16384).
Proof.
  refine (proj1 (proj1 (alloc_fails_iff 1048576 two_after_free_neighbour _ 16384
                          two_after_free_neighbour_reachable _ _) _)).
  - lia.
  - vm_compute. reflexivity.
  - vm_compute. reflexivity.
Defined.

(** X4: "free: immediately coalesce" - no listed region ends where
    another listed region starts. *)
Theorem free_regions_coalesced (base : Z) (st : t) (live : list region)
    (c c' x y : Z) :
  reachable base st live ->
  x ∈ freelists st c -> y ∈ freelists st c' -> x + free_size st x <> y.
Proof. intros Hr. apply (kept_coalesced _ _ (reachable_Kept _ _ _ Hr)). Qed.

Lemma free_regions_coalesced_witness :
  1048576 + free_size first_and_third_freed 1048576 <> 1056768.
Proof.
  apply (free_regions_coalesced 1048576 _ [(1052672, 4096)] 12 12).
  - apply first_and_third_freed_reachable.
  - vm_compute. right. by left.
  - vm_compute. by left.
Defined.

(** X5: every address that [alloc] returns is a whole number of quanta
    (BUF_ALIGN, one page) away from the base of the arena. *)
Theorem alloc_page_aligned (base : Z) (st : t) (live : list region)
    (size p : Z) (st' : t) :
  reachable base st live -> 0 <= size ->
  alloc st size = Some (p, st') ->
  (BUF_ALIGN | p - base).
Proof.
  intros Hr Hsize Halloc.
  pose proof (reach_alloc _ _ _ _ _ _ Hr Hsize Halloc) as Hr'.
  destruct (reachable_arena _ _ _ Hr') as [Hbase _].
  destruct (kept_aligned _ _ (reachable_Kept _ _ _ Hr')) as (_ & HR & _).
  rewrite <- Hbase. apply (HR p (size_pa_of size)). by left.
Qed.

Lemma alloc_page_aligned_witness : (BUF_ALIGN | 1056768 - 1048576).
Proof.
  apply (alloc_page_aligned 1048576 first_and_third_freed [(1052672, 4096)] 100 1056768
           (state_of (alloc first_and_third_freed 100) first_and_third_freed)
           first_and_third_freed_reachable).
  - lia.
  - vm_compute. reflexivity.
Defined.

(** X6: the bytes on the freelists and the bytes of the regions that are
    out add up to the part of the arena below the bump cursor: no byte is
    lost, none is counted twice. *)
Theorem arena_accounted (base : Z) (st : t) (live : list region) :
  reachable base st live ->
  listed_bytes st + region_bytes live = da_pos (pool st).
Proof. intros Hr. apply (kept_bytes _ _ (reachable_Kept _ _ _ Hr)). Qed.

Lemma arena_accounted_witness :
  listed_bytes first_and_third_freed + region_bytes [(1052672, 4096)]
  = da_pos (pool first_and_third_freed).
Proof. apply (arena_accounted 1048576), first_and_third_freed_reachable. Defined.

Lemma alloc_after_free (base : Z) (st : t) (live1 live2 : list region)
    (p size size' : Z) :
  reachable base st (live1 ++ (p, round_up size BUF_ALIGN) :: live2) ->
  0 <= size' -> size_pa_of size' <= round_up size BUF_ALIGN ->
  is_Some (alloc (free st p size).1 size').
Proof.
  intros Hr Hsize' Hle.
  pose proof (reach_free _ _ _ _ _ _ Hr) as Hr'.
  pose proof (reachable_Inv _ _ _ Hr) as HI.
  assert (HI0 : Inv st ((p, round_up size BUF_ALIGN) :: live1 ++ live2)).
  { eapply Inv_perm; [|exact HI]. symmetry. apply Permutation_middle. }
  destruct (alloc (free st p size).1 size') as [r|] eqn:Halloc; [done|].
  exfalso.
  destruct (alloc_None_no_fit _ _ size' (reachable_Inv _ _ _ Hr')
              (kept_bitmap _ _ (reachable_Kept _ _ _ Hr'))
              (proj2 (reachable_arena _ _ _ Hr')) Hsize' Halloc) as [Hnl _].
  apply Hnl. rewrite (free_live _ _ _ _ HI0). cbn [fst].
  destruct (coalesce_and_free_fits _ _ _ _ HI0) as (c & a & Ha & Hfit).
  exists c, a. split; [done|lia].
Qed.

(** X7: after a region is freed, a request of at most its rounded size
    succeeds. *)
Theorem free_makes_room (base : Z) (st : t) (live1 live2 : list region)
    (p size size' : Z) :
  reachable base st (live1 ++ (p, round_up size BUF_ALIGN) :: live2) ->
  0 <= size' -> size_pa_of size' <= round_up size BUF_ALIGN ->
  is_Some (alloc (free st p size).1 size').
Proof. apply alloc_after_free. Qed.

Lemma free_makes_room_witness :
  is_Some (alloc (free three_pages 1048576 4096).1 100).
Proof.
  apply (free_makes_room 1048576 three_pages
           [(1056768, 4096); (1052672, 4096)] [] 1048576 4096 100).
  - apply three_pages_reachable.
  - lia.
  - vm_compute. discriminate.
Defined.

(** X8: after [reset] the next request is served from the base of the
    arena, with the freelists and the bitmap empty, whatever was allocated
    before. *)
Theorem reset_restarts (base : Z) (st : t) (live : list region) (size : Z) :
  reachable base st live -> 0 <= size -> size_pa_of size <= MAX_CACHE_SIZE ->
  exists st',
    alloc (reset st) size = Some (base, st')
    /\ da_pos (pool st') = size_pa_of size
    /\ bitmap st' = 0 /\ forall c, freelists st' c = [].
Proof.
  intros Hr Hsize Hfit. destruct (reachable_arena _ _ _ Hr) as [Hbase Hmax].
  assert (Hp : pool_alloc (pool (reset st)) (size_pa_of size)
               = Some (base, mkPool base MAX_CACHE_SIZE (size_pa_of size))).
  { unfold pool_alloc, reset. cbn [pool pool_free_all da_pos da_max_size da_base].
    rewrite Hmax, Hbase.
    destruct (Z.leb_spec (0 + size_pa_of size) MAX_CACHE_SIZE); [|lia].
    by rewrite Z.add_0_r, Z.add_0_l. }
  assert (Hc : forall c s, alloc_from_class (reset st) c s = None) by reflexivity.
  exists (with_pool (reset st) (mkPool base MAX_CACHE_SIZE (size_pa_of size))).
  split; [|done].
  unfold alloc. fold (size_pa_of size). by rewrite Hc, Hp.
Qed.

Lemma reset_restarts_witness :
  exists st',
    alloc (reset first_and_third_freed) 100 = Some (1048576, st')
    /\ da_pos (pool st') = size_pa_of 100
    /\ bitmap st' = 0 /\ forall c, freelists st' c = [].
Proof.
  apply (reset_restarts 1048576 _ [(1052672, 4096)]).
  - apply first_and_third_freed_reachable.
  - lia.
  - vm_compute. discriminate.
Defined.

End CacheAllocatorSafety.

(* ===================================================================== *)
(** * The life of a block in the ring *)
(* ===================================================================== *)

Module BlockMgrLife.
Import BlockMgr BlockMgrFacts.

Local Open Scope nat_scope.

(** ** Shape of the ring *)

Lemma fmap_insert_same {A B : Type} `{Inhabited A} (f : A -> B) (l : list A)
    (j : nat) (x : A) :
  f x = f (l !!! j) -> f <$> <[j := x]> l = f <$> l.
Proof.
  intros Hf. destruct (decide (j < length l)) as [Hlt|Hge].
  - rewrite list_fmap_insert. apply list_insert_id.
    rewrite list_lookup_fmap, (list_lookup_lookup_total_lt l j Hlt). cbn. by rewrite Hf.
  - by rewrite list_insert_ge by lia.
Qed.

Lemma alloc_blocks (bm : t) (i : BlockId) :
  blocks (alloc bm i).1.2 = blocks bm
  \/ exists j o ws,
       alloc_scan MAX_BLOCKS (blocks bm) (oldest_block bm) = (Some j, o, ws)
       /\ blocks (alloc bm i).1.2
          = <[j := mkBlock i (mem (blocks bm !!! j)) BS_PENDING
                     (refs (blocks bm !!! j))]> (blocks bm).
Proof.
  unfold alloc.
  destruct (alloc_scan MAX_BLOCKS (blocks bm) (oldest_block bm)) as [[[j|] o] ws] eqn:Hs.
  - right. by exists j, o, ws.
  - by left.
Qed.

Lemma step_mem (bm : t) (o : op) : mem <$> blocks (step bm o) = mem <$> blocks bm.
Proof.
  destruct o as [i|i|i|i|fn]; cbn [step].
  - destruct (alloc_blocks bm i) as [->|(j & o & ws & _ & ->)]; [done|].
    by apply fmap_insert_same.
  - unfold mark_completed. destruct (find_id (blocks bm) i) as [j|]; [|done].
    cbn [fst blocks]. by apply fmap_insert_same.
  - unfold find. destruct (find_id (blocks bm) i) as [j|]; [|done].
    case_bool_decide; [|done]. cbn [fst snd blocks]. by apply fmap_insert_same.
  - unfold release. destruct (find_id (blocks bm) i) as [j|]; [|done].
    cbn [fst blocks]. by apply fmap_insert_same.
  - unfold invalidate. cbn [fst blocks]. rewrite <- list_fmap_compose.
    apply list_fmap_ext. intros k b _. cbn. by destruct (atom_fn (id b) =? fn)%Z.
Qed.

Lemma alloc_scan_cursor (n : nat) (bl : list Block) (o : nat) :
  o < MAX_BLOCKS -> (alloc_scan n bl o).1.2 < MAX_BLOCKS.
Proof.
  revert o. induction n as [|n IH]; intros o Ho; cbn [alloc_scan]; [done|].
  assert (Ho' : (o + 1) mod MAX_BLOCKS < MAX_BLOCKS) by (by apply Nat.mod_upper_bound).
  destruct (reusable (bl !!! o)); [done|].
  specialize (IH _ Ho').
  by destruct (alloc_scan n bl ((o + 1) mod MAX_BLOCKS)) as [[r o2] ws].
Qed.

Lemma alloc_scan_index (n : nat) (bl : list Block) (o j o' : nat) (ws : list string) :
  o < MAX_BLOCKS -> alloc_scan n bl o = (Some j, o', ws) -> j < MAX_BLOCKS.
Proof.
  revert o o' ws. induction n as [|n IH]; intros o o' ws Ho; cbn [alloc_scan]; [done|].
  assert (Ho' : (o + 1) mod MAX_BLOCKS < MAX_BLOCKS) by (by apply Nat.mod_upper_bound).
  destruct (reusable (bl !!! o)).
  - by intros [= <- _ _].
  - destruct (alloc_scan n bl ((o + 1) mod MAX_BLOCKS)) as [[r o2] ws2] eqn:Hs.
    intros [= -> _ _]. eauto.
Qed.

Lemma step_wf (bm : t) (o : op) : wf bm -> wf (step bm o).
Proof.
  intros [Hlen Ho]. destruct o as [i|i|i|i|fn]; cbn [step].
  - unfold alloc. pose proof (alloc_scan_cursor MAX_BLOCKS (blocks bm) _ Ho) as Hc.
    destruct (alloc_scan MAX_BLOCKS (blocks bm) (oldest_block bm)) as [[[j|] o] ws];
      cbn [fst snd] in *; split; cbn [blocks oldest_block]; by rewrite ?length_insert.
  - unfold mark_completed. destruct (find_id (blocks bm) i) as [j|]; [|done].
    split; cbn [fst blocks oldest_block]; by rewrite ?length_insert.
  - unfold find. destruct (find_id (blocks bm) i) as [j|]; [|done].
    case_bool_decide; [|done].
    split; cbn [fst snd blocks oldest_block]; by rewrite ?length_insert.
  - unfold release. destruct (find_id (blocks bm) i) as [j|]; [|done].
    split; cbn [fst blocks oldest_block]; by rewrite ?length_insert.
  - split; cbn [invalidate fst blocks oldest_block]; by rewrite ?length_fmap.
Qed.

(** X9: the memory of a slot is set when the block manager is built and
    never changes: whatever is done to the ring, slot [k] keeps the address
    it had. *)
Theorem slot_memory_fixed (bm : t) (ops : list op) :
  mem <$> blocks (run bm ops) = mem <$> blocks bm.
Proof.
  revert bm. induction ops as [|o ops IH]; intros bm; [done|].
  cbn [run foldl]. change (mem <$> blocks (run (step bm o) ops) = mem <$> blocks bm).
  by rewrite IH, step_mem.
Qed.

(** X10: the ring keeps its 32 slots and the cursor [oldest_block] stays
    inside it. *)
Theorem ring_stays_well_formed (bm : t) (ops : list op) :
  wf bm -> wf (run bm ops).
Proof.
  revert bm. induction ops as [|o ops IH]; intros bm Hwf; [done|].
  cbn [run foldl]. apply IH. by apply step_wf.
Qed.

Lemma ring_stays_well_formed_witness :
  wf (run (init 4096 65536)
        [OAlloc (mkBlockId 1 0); OMarkCompleted (mkBlockId 1 0);
         OFind (mkBlockId 1 0); OInvalidate 1; OAlloc (mkBlockId 2 7)]).
Proof.
  apply ring_stays_well_formed. split; vm_compute; [reflexivity|lia].
Defined.

(** ** From [alloc] to [release] *)

Lemma find_id_at (bl : list Block) (i : BlockId) (j : nat) (b : Block) :
  bl !! j = Some b -> block_eq (id b) i = true ->
  (forall x bx, bl !! x = Some bx -> x < j -> block_eq (id bx) i = false) ->
  find_id bl i = Some j.
Proof.
  intros Hb Hi Hfirst. unfold find_id.
  assert (Hf : list_find (fun b => block_eq (id b) i) bl = Some (j, b)).
  { apply list_find_Some. split; [done|]. split; [by apply Is_true_true|].
    intros x bx Hx Hlt HP. apply Is_true_true in HP.
    by rewrite (Hfirst x bx Hx Hlt) in HP. }
  by rewrite Hf.
Qed.

Lemma find_id_fresh (bl : list Block) (i : BlockId) :
  (forall b, b ∈ bl -> block_eq (id b) i = false) -> find_id bl i = None.
Proof.
  intros Hfresh. unfold find_id.
  destruct (list_find _ bl) as [[j b]|] eqn:Hf; [|done].
  apply list_find_Some in Hf as (Hb & HP & _). apply Is_true_true in HP.
  apply list_elem_of_lookup_2 in Hb. by rewrite (Hfresh b Hb) in HP.
Qed.

(** The slot that holds a fresh id after [alloc] is the one every search
    for that id reaches. *)
Lemma find_id_insert_fresh (bl : list Block) (i : BlockId) (j : nat) (b : Block) :
  j < length bl -> id b = i ->
  (forall b0, b0 ∈ bl -> block_eq (id b0) i = false) ->
  find_id (<[j := b]> bl) i = Some j.
Proof.
  intros Hj Hid Hfresh. apply (find_id_at _ _ _ b).
  - by apply list_lookup_insert_eq.
  - rewrite Hid. apply block_eq_refl.
  - intros x bx Hx Hlt. rewrite list_lookup_insert_ne in Hx by lia.
    apply Hfresh. by eapply list_elem_of_lookup_2.
Qed.

Lemma find_id_insert_same (bl : list Block) (i : BlockId) (j : nat) (b : Block) :
  find_id bl i = Some j -> id b = id (bl !!! j) ->
  find_id (<[j := b]> bl) i = Some j.
Proof.
  intros Hf Hid. apply find_id_Some in Hf as (b0 & Hb0 & Hi & Hfirst).
  rewrite (list_lookup_total_correct _ _ _ Hb0) in Hid.
  apply (find_id_at _ _ _ b).
  - apply list_lookup_insert_eq. by eapply lookup_lt_Some.
  - by rewrite Hid.
  - intros x bx Hx Hlt. rewrite list_lookup_insert_ne in Hx by lia. eauto.
Qed.

Lemma alloc_Some (bm : t) (i : BlockId) (m : Z) (bm' : t) (ws : list string) :
  wf bm -> alloc bm i = (Some m, bm', ws) ->
  exists j b,
    (j < length (blocks bm)) /\ blocks bm !! j = Some b /\ reusable b = true
    /\ m = mem b
    /\ blocks bm' = <[j := mkBlock i (mem b) BS_PENDING (refs b)]> (blocks bm).
Proof.
  intros [Hlen Ho]. unfold alloc.
  destruct (alloc_scan MAX_BLOCKS (blocks bm) (oldest_block bm)) as [[[j|] o] ws0] eqn:Hs;
    [|done].
  intros [= <- <- _].
  pose proof (alloc_scan_index _ _ _ _ _ _ Ho Hs) as Hj.
  pose proof (alloc_scan_reusable _ _ _ _ _ _ Hs) as Hre.
  assert (Hlt : j < length (blocks bm)) by (by rewrite Hlen).
  exists j, (blocks bm !!! j). split; [done|]. split; [|done].
  by apply list_lookup_lookup_total_lt.
Qed.

(** X11: a block that has been allocated and not yet marked complete
    cannot be found: [find] answers null, warns that the block is still in
    progress and changes nothing. *)
Theorem find_pending_block (bm : t) (i : BlockId) (m : Z) (bm' : t) (ws : list string) :
  wf bm -> fresh_id bm i -> alloc bm i = (Some m, bm', ws) ->
  find bm' i = (None, bm', ["block referenced while still in progress"%string]).
Proof.
  intros Hwf Hfresh Halloc.
  destruct (alloc_Some _ _ _ _ _ Hwf Halloc) as (j & b & Hj & Hb & Hre & -> & Hbl).
  unfold find. rewrite Hbl.
  rewrite (find_id_insert_fresh _ i j) by done.
  rewrite list_lookup_total_insert_eq by done. cbn [status].
  by rewrite bool_decide_eq_false_2.
Qed.

Lemma find_pending_block_witness :
  let bm' := (alloc (init 4096 65536) (mkBlockId 1 0)).1.2 in
  find bm' (mkBlockId 1 0)
  = (None, bm', ["block referenced while still in progress"%string]).
Proof.
  intros bm'.
  apply (find_pending_block (init 4096 65536) (mkBlockId 1 0) 4096 bm' []).
  - split; vm_compute; [reflexivity|lia].
  - intros b Hb. vm_compute in Hb.
    repeat (apply elem_of_cons in Hb as [->|Hb]; [vm_compute; reflexivity|]).
    by apply elem_of_nil in Hb.
  - vm_compute. reflexivity.
Defined.

(** X12: the life of a block.  After [alloc] of an id that no slot
    carries, [mark_completed] finds the block Pending (no diagnostic), [find]
    then returns the very memory that [alloc] handed out and counts one
    reference, and [release] gives that reference back: the slot ends
    Complete with no reference, and none of the three calls reports
    anything. *)
Theorem block_lifecycle (bm : t) (i : BlockId) (m : Z) (bm1 : t) (ws : list string) :
  wf bm -> fresh_id bm i -> alloc bm i = (Some m, bm1, ws) ->
  exists j bm2 bm3 bm4,
    mark_completed bm1 i = (bm2, [])
    /\ find bm2 i = (Some m, bm3, [])
    /\ blocks bm3 !! j = Some (mkBlock i m BS_COMPLETE 1)
    /\ release bm3 i = (bm4, [])
    /\ blocks bm4 !! j = Some (mkBlock i m BS_COMPLETE 0).
Proof.
  intros Hwf Hfresh Halloc.
  destruct (alloc_Some _ _ _ _ _ Hwf Halloc) as (j & b & Hj & Hb & Hre & -> & Hbl).
  apply reusable_spec in Hre as [_ Hrefs].
  destruct b as [bi bmem bs br]. cbn [refs mem] in *. subst br.
  set (l1 := <[j := mkBlock i bmem BS_PENDING 0%Z]> (blocks bm)) in *.
  assert (Hf1 : find_id l1 i = Some j) by (by apply find_id_insert_fresh).
  assert (Hj1 : j < length l1) by (unfold l1; by rewrite length_insert).
  assert (Hl1 : l1 !!! j = mkBlock i bmem BS_PENDING 0%Z)
    by (by apply list_lookup_total_insert_eq).
  set (l2 := <[j := mkBlock i bmem BS_COMPLETE 0%Z]> l1).
  assert (Hf2 : find_id l2 i = Some j)
    by (apply find_id_insert_same; [done|by rewrite Hl1]).
  assert (Hj2 : j < length l2) by (unfold l2; by rewrite length_insert).
  assert (Hl2 : l2 !!! j = mkBlock i bmem BS_COMPLETE 0%Z)
    by (by apply list_lookup_total_insert_eq).
  set (l3 := <[j := mkBlock i bmem BS_COMPLETE 1%Z]> l2).
  assert (Hf3 : find_id l3 i = Some j)
    by (apply find_id_insert_same; [done|by rewrite Hl2]).
  assert (Hj3 : j < length l3) by (unfold l3; by rewrite length_insert).
  assert (Hl3 : l3 !!! j = mkBlock i bmem BS_COMPLETE 1%Z)
    by (by apply list_lookup_total_insert_eq).
  exists j, (mkBlockMgr l2 (oldest_block bm1)), (mkBlockMgr l3 (oldest_block bm1)),
    (mkBlockMgr (<[j := mkBlock i bmem BS_COMPLETE 0%Z]> l3) (oldest_block bm1)).
  split; [|split; [|split; [|split]]].
  - unfold mark_completed. rewrite Hbl, Hf1, Hl1. cbn [id mem status refs].
    by rewrite bool_decide_eq_true_2.
  - unfold find. cbn [blocks oldest_block]. rewrite Hf2, Hl2. cbn [id mem status refs].
    by rewrite bool_decide_eq_true_2.
  - cbn [blocks]. unfold l3. by rewrite list_lookup_insert_eq.
  - unfold release. cbn [blocks oldest_block]. rewrite Hf3, Hl3. done.
  - cbn [blocks]. by rewrite list_lookup_insert_eq.
Qed.

Lemma block_lifecycle_witness :
  exists j bm2 bm3 bm4,
    mark_completed (alloc (init 4096 65536) (mkBlockId 1 0)).1.2 (mkBlockId 1 0)
      = (bm2, [])
    /\ find bm2 (mkBlockId 1 0) = (Some 4096%Z, bm3, [])
    /\ blocks bm3 !! j = Some (mkBlock (mkBlockId 1 0) 4096 BS_COMPLETE 1)
    /\ release bm3 (mkBlockId 1 0) = (bm4, [])
    /\ blocks bm4 !! j = Some (mkBlock (mkBlockId 1 0) 4096 BS_COMPLETE 0).
Proof.
  apply (block_lifecycle (init 4096 65536) (mkBlockId 1 0) 4096 _ []).
  - split; vm_compute; [reflexivity|lia].
  - intros b Hb. vm_compute in Hb.
    repeat (apply elem_of_cons in Hb as [->|Hb]; [vm_compute; reflexivity|]).
    by apply elem_of_nil in Hb.
  - vm_compute. reflexivity.
Defined.

(** X13: [release] undoes [find]: after a [find] that returned the block,
    one [release] of the same id gives back the ring as it was. *)
Theorem find_release_round_trip (bm : t) (i : BlockId) (m : Z) (bm' : t)
    (ws : list string) :
  find bm i = (Some m, bm', ws) -> (release bm' i).1 = bm.
Proof.
  unfold find. destruct (find_id (blocks bm) i) as [j|] eqn:Hf; [|done].
  case_bool_decide as Hst; [|done]. intros [= _ <- _].
  pose proof Hf as Hf0. apply find_id_Some in Hf0 as (b & Hb & _).
  rewrite (list_lookup_total_correct _ _ _ Hb).
  unfold release. cbn [blocks oldest_block].
  rewrite (find_id_insert_same _ i j) by
    (done || by rewrite (list_lookup_total_correct _ _ _ Hb)).
  rewrite list_lookup_total_insert_eq by (by eapply lookup_lt_Some).
  cbn [fst id mem status refs]. rewrite list_insert_insert_eq.
  destruct bm as [bl o]. cbn [blocks oldest_block] in *. f_equal.
  apply list_insert_id. rewrite Hb. f_equal. destruct b as [bi bmem bs br].
  cbn. f_equal. lia.
Qed.

Lemma find_release_round_trip_witness :
  let bm := run (init 4096 65536)
              [OAlloc (mkBlockId 1 0); OMarkCompleted (mkBlockId 1 0)] in
  (release (find bm (mkBlockId 1 0)).1.2 (mkBlockId 1 0)).1 = bm.
Proof.
  intros bm.
  apply (find_release_round_trip bm (mkBlockId 1 0) 4096 _ []).
  vm_compute. reflexivity.
Defined.

(** ** Invalidation *)

Lemma invalidate_lookup (bm : t) (fn : Z) (j : nat) :
  blocks (invalidate bm fn).1 !! j
  = (fun b => if (atom_fn (id b) =? fn)%Z
              then mkBlock (id b) (mem b) BS_INVALID (refs b) else b)
      <$> blocks bm !! j.
Proof. unfold invalidate. cbn [fst blocks]. by rewrite list_lookup_fmap. Qed.

Lemma find_id_invalidate (bm : t) (fn : Z) (i : BlockId) :
  find_id (blocks (invalidate bm fn).1) i = find_id (blocks bm) i.
Proof.
  destruct (find_id (blocks bm) i) as [j|] eqn:Hf.
  - apply find_id_Some in Hf as (b & Hb & Hi & Hfirst).
    apply (find_id_at _ _ _ (if (atom_fn (id b) =? fn)%Z
                             then mkBlock (id b) (mem b) BS_INVALID (refs b) else b)).
    + by rewrite invalidate_lookup, Hb.
    + by destruct (atom_fn (id b) =? fn)%Z.
    + intros x bx Hx Hlt. rewrite invalidate_lookup in Hx.
      destruct (blocks bm !! x) as [bx0|] eqn:Hx0; [|done].
      cbn in Hx. injection Hx as <-.
      specialize (Hfirst x bx0 Hx0 Hlt). by destruct (atom_fn (id bx0) =? fn)%Z.
  - apply find_id_fresh. intros b Hb.
    unfold invalidate in Hb. cbn [fst blocks] in Hb.
    apply list_elem_of_fmap in Hb as (b0 & -> & Hb0).
    assert (Hno : block_eq (id b0) i = false).
    { apply not_true_is_false. intros Heq.
      apply list_elem_of_lookup_1 in Hb0 as [k Hk].
      unfold find_id in Hf.
      destruct (list_find (fun b => block_eq (id b) i) (blocks bm)) as [[? ?]|] eqn:Hlf;
        [done|].
      apply list_find_None in Hlf. rewrite Forall_forall in Hlf.
      apply (Hlf b0); [by eapply list_elem_of_lookup_2|by apply Is_true_true]. }
    by destruct (atom_fn (id b0) =? fn)%Z.
Qed.

Lemma find_after_invalidate (bm : t) (fn n : Z) :
  (find (invalidate bm fn).1 (mkBlockId fn n)).1 = (None, (invalidate bm fn).1).
Proof.
  unfold find.
  destruct (find_id (blocks (invalidate bm fn).1) (mkBlockId fn n)) as [j|] eqn:Hf;
    [|done].
  apply find_id_Some in Hf as (b & Hb & Hi & _).
  rewrite (list_lookup_total_correct _ _ _ Hb).
  rewrite invalidate_lookup in Hb.
  destruct (blocks bm !! j) as [b0|]; [|done]. cbn in Hb. injection Hb as <-.
  apply block_eq_true in Hi as [Hfn _]. cbn [atom_fn] in Hfn.
  destruct (Z.eqb_spec (atom_fn (id b0)) fn) as [Heq|Hne].
  - cbn [status]. by rewrite bool_decide_eq_false_2.
  - exfalso. apply Hne. by rewrite <- Hfn.
Qed.

(** X14: after [invalidate] of a file none of its blocks can be found:
    for every block number, [find] answers null and leaves the ring as it
    is, whatever state the blocks of that file were in. *)
Theorem invalidated_blocks_not_found (bm : t) (fn n : Z) :
  let bm' := (invalidate bm fn).1 in
  (find bm' (mkBlockId fn n)).1 = (None, bm').
Proof. apply find_after_invalidate. Qed.

(** X15: [invalidate] of one file leaves the blocks of every other file
    as they are: a [find] of such a block answers as it did before. *)
Theorem invalidate_other_file (bm : t) (fn : Z) (i : BlockId) :
  atom_fn i <> fn ->
  (find (invalidate bm fn).1 i).1.1 = (find bm i).1.1.
Proof.
  intros Hne. unfold find. rewrite find_id_invalidate.
  destruct (find_id (blocks bm) i) as [j|] eqn:Hf; [|done].
  apply find_id_Some in Hf as (b & Hb & Hi & _).
  assert (Hb' : blocks (invalidate bm fn).1 !! j = Some b).
  { rewrite invalidate_lookup, Hb. cbn.
    apply block_eq_true in Hi as [Hfn _].
    destruct (Z.eqb_spec (atom_fn (id b)) fn); [congruence|done]. }
  rewrite (list_lookup_total_correct _ _ _ Hb), (list_lookup_total_correct _ _ _ Hb').
  by case_bool_decide.
Qed.

Lemma invalidate_other_file_witness :
  let bm := run (init 4096 65536)
              [OAlloc (mkBlockId 1 0); OMarkCompleted (mkBlockId 1 0)] in
  (find (invalidate bm 2).1 (mkBlockId 1 0)).1.1 = (find bm (mkBlockId 1 0)).1.1.
Proof. intros bm. apply invalidate_other_file. cbn. lia. Defined.

(** ** Slots that are in use *)

Lemma alloc_keeps_busy_slot (bm : t) (i : BlockId) (j : nat) (b : Block) :
  blocks bm !! j = Some b -> reusable b = false ->
  blocks (alloc bm i).1.2 !! j = Some b.
Proof.
  intros Hb Hbusy. destruct (alloc_blocks bm i) as [->|(j0 & o & ws & Hs & ->)]; [done|].
  apply alloc_scan_reusable in Hs.
  rewrite list_lookup_insert_ne; [done|].
  intros ->. rewrite (list_lookup_total_correct _ _ _ Hb) in Hs. congruence.
Qed.

(** X16: [alloc] never recycles a slot that is in use.  A slot that is
    Pending (its IO is under way) or that still has references keeps its id,
    status and count through any number of [alloc] calls. *)
Theorem busy_slot_survives_allocs (bm : t) (j : nat) (b : Block) (ids : list BlockId) :
  blocks bm !! j = Some b ->
  status b = BS_PENDING \/ refs b <> 0%Z ->
  blocks (run bm (OAlloc <$> ids)) !! j = Some b.
Proof.
  intros Hb Hbusy.
  assert (Hre : reusable b = false).
  { apply not_true_is_false. rewrite reusable_spec. tauto. }
  clear Hbusy. revert bm Hb. induction ids as [|i ids IH]; intros bm Hb; [done|].
  cbn [fmap list_fmap run foldl]. apply IH. cbn [step].
  by apply alloc_keeps_busy_slot.
Qed.

Lemma busy_slot_survives_allocs_witness :
  let bm := (alloc (init 4096 65536) (mkBlockId 1 0)).1.2 in
  blocks (run bm (OAlloc <$> [mkBlockId 2 0; mkBlockId 2 1; mkBlockId 2 2])) !! 0
  = Some (mkBlock (mkBlockId 1 0) 4096 BS_PENDING 0).
Proof.
  intros bm. apply busy_slot_survives_allocs.
  - vm_compute. reflexivity.
  - by left.
Defined.

(** ** Block ids *)

Local Open Scope Z_scope.

(** X17: for offsets below 2^32 blocks, two ids made by
    [block_cache_make_id] are equal exactly when they name the same file and
    the offsets lie in the same block. *)
Theorem block_id_names_block (B fn1 fn2 ofs1 ofs2 : Z) :
  0 < B -> 0 <= ofs1 < 2 ^ 32 * B -> 0 <= ofs2 < 2 ^ 32 * B ->
  (block_eq (block_cache_make_id B fn1 ofs1) (block_cache_make_id B fn2 ofs2) = true
   <-> fn1 = fn2 /\ ofs1 / B = ofs2 / B).
Proof.
  intros HB H1 H2. rewrite block_eq_true. unfold block_cache_make_id. cbn [atom_fn block_num].
  rewrite !Z.quot_div_nonneg by lia.
  assert (Hq : forall ofs, 0 <= ofs < 2 ^ 32 * B -> u32 (ofs / B) = ofs / B).
  { intros ofs Hofs. unfold u32. apply Z.mod_small. split.
    - apply Z.div_pos; lia.
    - apply Z.div_lt_upper_bound; lia. }
  by rewrite !Hq.
Qed.

Lemma block_id_names_block_witness :
  block_eq (block_cache_make_id 65536 7 65536) (block_cache_make_id 65536 7 131071) = true
  <-> 7 = 7 /\ 65536 / 65536 = 131071 / 65536.
Proof. apply block_id_names_block; lia. Defined.

End BlockMgrLife.

(* ===================================================================== *)
(** * A buffer in the registry, from [add] to its last release *)
(* ===================================================================== *)

Module ExtantBufMgrLife.
Import ExtantBufMgr ExtantBufMgrFacts.

Section Width.

Context {pw : PtrWidth}.

Lemma u32_small (x : Z) : 0 <= x < 2 ^ 32 -> u32 x = x.
Proof. intros Hx. unfold u32. by apply Z.mod_small. Qed.

Lemma assert_nonnull_ok (x : Z) : x <> 0 -> assert_nonnull x = [].
Proof. intros Hx. unfold assert_nonnull. by destruct (Z.eqb_spec x 0). Qed.

(** The slot that [add] writes: it is the first hole, or a new last slot;
    every other slot is as it was. *)
Lemma add_slot (st : t) (b sz fn : Z) (ll : bool) :
  let e := mkExtantBuf b (if sz =? 0 then 1 else sz) fn 1
             (if ll then 0 else cur_epoch st) in
  cur_epoch (add st b sz fn ll).1
    = (if ll then cur_epoch st else u32 (cur_epoch st + 1))
  /\ ((exists i h, extant_bufs st !! i = Some h /\ is_hole h = true
         /\ extant_bufs (add st b sz fn ll).1 = <[i := e]> (extant_bufs st))
      \/ (Forall (fun h => is_hole h = false) (extant_bufs st)
          /\ extant_bufs (add st b sz fn ll).1 = extant_bufs st ++ [e])).
Proof.
  cbn zeta. unfold add.
  destruct (list_find _ (extant_bufs st)) as [[i h]|] eqn:Hf; cbn [fst cur_epoch extant_bufs].
  - split; [done|]. left. apply list_find_Some in Hf as (Hi & Hh & _).
    exists i, h. split; [done|]. split; [by apply Is_true_true|done].
  - split; [done|]. right. split; [|done].
    apply list_find_None in Hf. eapply Forall_impl; [exact Hf|].
    intros h Hh. by apply Is_true_false.
Qed.

(** After [add], the slot written holds the buffer alone; it was a hole or
    did not exist, and the other slots are as they were. *)
Lemma add_entry (st : t) (b sz fn : Z) (ll : bool) :
  addressable b sz ->
  (forall eb x, eb ∈ extant_bufs st -> in_buf b sz x -> matches eb x = false) ->
  exists i,
    extant_bufs (add st b sz fn ll).1 !! i
      = Some (mkExtantBuf b (if sz =? 0 then 1 else sz) fn 1
                (if ll then 0 else cur_epoch st))
    /\ owns (add st b sz fn ll).1 i b (if sz =? 0 then 1 else sz) 1
    /\ (forall j, j <> i ->
          extant_bufs (add st b sz fn ll).1 !! j = extant_bufs st !! j)
    /\ (forall h, extant_bufs st !! i = Some h -> is_hole h = true).
Proof.
  intros [Hb Hend] Hfree.
  destruct (add_slot st b sz fn ll) as [_ [(i & h & Hi & Hh & Hl)|[Hall Hl]]].
  - exists i. assert (Hlk : extant_bufs (add st b sz fn ll).1 !! i = Some
        (mkExtantBuf b (if sz =? 0 then 1 else sz) fn 1 (if ll then 0 else cur_epoch st))).
    { rewrite Hl. apply list_lookup_insert_eq. by eapply lookup_lt_Some. }
    split; [done|]. split; [|split].
    + split; [lia|]. split; [eauto|].
      intros j eb x Hj Hlj Hx. rewrite Hl, list_lookup_insert_ne in Hlj by done.
      apply Hfree; [by eapply list_elem_of_lookup_2|done].
    + intros j Hj. by rewrite Hl, list_lookup_insert_ne.
    + intros h' Hh'. congruence.
  - exists (length (extant_bufs st)).
    assert (Hlk : extant_bufs (add st b sz fn ll).1 !! length (extant_bufs st) = Some
        (mkExtantBuf b (if sz =? 0 then 1 else sz) fn 1 (if ll then 0 else cur_epoch st))).
    { rewrite Hl. by apply list_lookup_middle. }
    split; [done|]. split; [|split].
    + split; [lia|]. split; [eauto|].
      intros j eb x Hj Hlj Hx. rewrite Hl in Hlj.
      apply lookup_app_Some in Hlj as [Hlj|[Hge Hlj]].
      * apply Hfree; [by eapply list_elem_of_lookup_2|done].
      * destruct (j - length (extant_bufs st))%nat as [|k] eqn:Hk; [lia|done].
    + intros j Hj. rewrite Hl.
      destruct (decide (j < length (extant_bufs st))%nat) as [Hlt|Hge].
      * by rewrite lookup_app_l.
      * rewrite !lookup_ge_None_2; [done|lia|rewrite length_app; cbn; lia].
    + intros h Hh. apply lookup_lt_Some in Hh. lia.
Qed.

Lemma owns_entry (st : t) (i : nat) (b sz1 r fn ep x : Z) :
  extant_bufs st !! i = Some (mkExtantBuf b sz1 fn r ep) ->
  owns st i b sz1 r -> b <= x < b + sz1 ->
  list_find (fun eb => matches eb x) (extant_bufs st)
  = Some (i, mkExtantBuf b sz1 fn r ep).
Proof.
  intros Hi Ho Hx. destruct (owns_find _ _ _ _ _ _ Ho Hx) as (fn0 & ep0 & Hf).
  rewrite Hf. apply list_find_Some in Hf as (Hi' & _). congruence.
Qed.

(** X18: the owner recorded by [add] is what [get_owner_filename] answers
    for every address inside the buffer, when the buffer is a range of
    addresses (non-null, its end within the address space) that overlaps no
    entry already registered. *)
Theorem owner_after_add (st : t) (b sz fn x : Z) (ll : bool) :
  0 < b -> b + (if sz =? 0 then 1 else sz) < 2 ^ ptr_bits ->
  (forall eb y, eb ∈ extant_bufs st -> in_buf b sz y -> matches eb y = false) ->
  in_buf b sz x ->
  get_owner_filename (add st b sz fn ll).1 x = Some fn.
Proof.
  intros Hb Hend Hfree Hx.
  destruct (add_entry st b sz fn ll (conj Hb Hend) Hfree) as (i & Hi & Ho & Hrest & Hwas).
  unfold get_owner_filename. by rewrite (owns_entry _ _ _ _ _ _ _ _ Hi Ho Hx).
Qed.

(** [replace_owner] on a buffer that has just been added, and its release. *)
Lemma rename_then_release (st : t) (b sz fn fn' x y : Z) (ll : bool) :
  addressable b sz ->
  (forall eb z, eb ∈ extant_bufs st -> in_buf b sz z -> matches eb z = false) ->
  in_buf b sz x -> in_buf b sz y ->
  exists st2 st3 ws,
    replace_owner (add st b sz fn ll).1 x fn' = (st2, [])
    /\ find_and_remove st2 y
       = (Some (true, b, if sz =? 0 then 1 else sz, fn'), st3, ws).
Proof.
  intros Hb Hfree Hx Hy.
  destruct (add_entry st b sz fn ll Hb Hfree) as (i & Hi & Ho & _ & _).
  destruct Hb as [Hb Hend].
  set (st1 := (add st b sz fn ll).1) in *.
  set (sz1 := if sz =? 0 then 1 else sz) in *.
  set (ep := if ll then 0 else cur_epoch st) in *.
  set (st2 := mkMgr (<[i := mkExtantBuf b sz1 fn' 1 ep]> (extant_bufs st1)) (cur_epoch st1)).
  assert (Ho2 : owns st2 i b sz1 1) by (by eapply owns_update).
  assert (Hi2 : extant_bufs st2 !! i = Some (mkExtantBuf b sz1 fn' 1 ep)).
  { cbn [st2 extant_bufs]. apply list_lookup_insert_eq. by eapply lookup_lt_Some. }
  exists st2. eexists _, _. split.
  - unfold replace_owner. rewrite (owns_entry _ _ _ _ _ _ _ _ Hi Ho Hx).
    cbn [buf size refs epoch]. rewrite assert_nonnull_ok; [done|].
    unfold in_buf in Hx. lia.
  - unfold find_and_remove. rewrite (owns_entry _ _ _ _ _ _ _ _ Hi2 Ho2 Hy).
    reflexivity.
Qed.

(** X19: [replace_owner] changes the owner and nothing else.  The buffer
    is a range of addresses (non-null, its end within the address space)
    that overlapped no entry when it was added.  Called on any address of
    the buffer, [replace_owner] reports nothing; afterwards
    [get_owner_filename] answers the new owner, and the last release hands
    out the buffer with the new owner and with the same diagnostics as it
    would have without the change (the epoch is kept). *)
Theorem replace_owner_renames (st : t) (b sz fn fn' x y : Z) (ll : bool) :
  0 < b -> b + (if sz =? 0 then 1 else sz) < 2 ^ ptr_bits ->
  (forall eb z, eb ∈ extant_bufs st -> in_buf b sz z -> matches eb z = false) ->
  in_buf b sz x -> in_buf b sz y ->
  let st1 := (add st b sz fn ll).1 in
  let st2 := (replace_owner st1 x fn').1 in
  replace_owner st1 x fn' = (st2, [])
  /\ get_owner_filename st2 y = Some fn'
  /\ (find_and_remove st2 y).1.1 = Some (true, b, if sz =? 0 then 1 else sz, fn')
  /\ (find_and_remove st1 y).1.1 = Some (true, b, if sz =? 0 then 1 else sz, fn)
  /\ (find_and_remove st2 y).2 = (find_and_remove st1 y).2.
Proof.
  intros Hb Hend Hfree Hx Hy. cbn zeta.
  destruct (add_entry st b sz fn ll (conj Hb Hend) Hfree) as (i & Hi & Ho & Hrest & Hwas).
  set (st1 := (add st b sz fn ll).1) in *.
  set (sz1 := if sz =? 0 then 1 else sz) in *.
  set (ep := if ll then 0 else cur_epoch st) in *.
  assert (Hrep : replace_owner st1 x fn'
                 = (mkMgr (<[i := mkExtantBuf b sz1 fn' 1 ep]> (extant_bufs st1))
                          (cur_epoch st1), [])).
  { unfold replace_owner. rewrite (owns_entry _ _ _ _ _ _ _ _ Hi Ho Hx).
    cbn [buf size refs epoch]. rewrite assert_nonnull_ok; [done|].
    unfold in_buf in Hx. lia. }
  rewrite Hrep. cbn [fst].
  set (st2 := mkMgr (<[i := mkExtantBuf b sz1 fn' 1 ep]> (extant_bufs st1)) (cur_epoch st1)).
  assert (Ho2 : owns st2 i b sz1 1) by (by eapply owns_update).
  assert (Hi2 : extant_bufs st2 !! i = Some (mkExtantBuf b sz1 fn' 1 ep)).
  { cbn [st2 extant_bufs]. apply list_lookup_insert_eq. by eapply lookup_lt_Some. }
  split; [done|]. split; [|split; [|split]].
  - unfold get_owner_filename. by rewrite (owns_entry _ _ _ _ _ _ _ _ Hi2 Ho2 Hy).
  - unfold find_and_remove. by rewrite (owns_entry _ _ _ _ _ _ _ _ Hi2 Ho2 Hy).
  - unfold find_and_remove. by rewrite (owns_entry _ _ _ _ _ _ _ _ Hi Ho Hy).
  - unfold find_and_remove.
    rewrite (owns_entry _ _ _ _ _ _ _ _ Hi2 Ho2 Hy), (owns_entry _ _ _ _ _ _ _ _ Hi Ho Hy).
    done.
Qed.

(** The last release of a buffer. *)
Lemma find_and_remove_last (st : t) (i : nat) (b sz1 fn ep x : Z) :
  extant_bufs st !! i = Some (mkExtantBuf b sz1 fn 1 ep) ->
  owns st i b sz1 1 -> b <= x < b + sz1 ->
  find_and_remove st x
  = (Some (true, b, sz1, fn),
     mkMgr (<[i := mkExtantBuf 0 0 0 0 ep]> (extant_bufs st)) (u32 (cur_epoch st + 1)),
     assert_nonnull x ++
     (if negb (ep =? 0) && negb (ep =? u32 (cur_epoch st - 1))
      then ["buf not released immediately"%string] else [])).
Proof.
  intros Hi Ho Hx. unfold find_and_remove.
  by rewrite (owns_entry _ _ _ _ _ _ _ _ Hi Ho Hx).
Qed.

Lemma matches_hole (ep x : Z) : matches (mkExtantBuf 0 0 0 0 ep) x = false.
Proof.
  unfold matches; cbn [buf size]. change (uptr (0 + 0)) with 0.
  destruct (Z.leb_spec 0 x), (Z.ltb_spec x 0); done || lia.
Qed.

(** X20: a double free is detected.  The buffer is a range of addresses
    (non-null, its end within the address space) that overlapped no entry
    when it was added.  Once its last reference has been given back, a further [find_and_remove] on any of its addresses
    finds no entry: it answers "not removed", warns of a double free and
    leaves the registry as it is. *)
Theorem double_free_detected (st : t) (b sz fn x y : Z) (ll : bool) :
  0 < b -> b + (if sz =? 0 then 1 else sz) < 2 ^ ptr_bits ->
  (forall eb z, eb ∈ extant_bufs st -> in_buf b sz z -> matches eb z = false) ->
  in_buf b sz x -> in_buf b sz y ->
  let st1 := (add st b sz fn ll).1 in
  let st2 := (find_and_remove st1 x).1.2 in
  (find_and_remove st1 x).1.1 = Some (true, b, if sz =? 0 then 1 else sz, fn)
  /\ find_and_remove st2 y
     = (None, st2, ["buf is not on extant list! double free?"%string]).
Proof.
  intros Hb Hend Hfree Hx Hy. cbn zeta.
  destruct (add_entry st b sz fn ll (conj Hb Hend) Hfree) as (i & Hi & Ho & Hrest & Hwas).
  rewrite (find_and_remove_last _ _ _ _ _ _ _ Hi Ho Hx). cbn [fst snd].
  split; [done|].
  unfold find_and_remove at 1.
  set (st1 := (add st b sz fn ll).1) in *.
  set (l2 := <[i := _]> (extant_bufs st1)).
  assert (Hnone : list_find (fun eb => matches eb y) l2 = None).
  { apply list_find_None, Forall_forall. intros eb Heb HP. apply Is_true_true in HP.
    apply list_elem_of_lookup_1 in Heb as [j Hj].
    destruct (decide (j = i)) as [->|Hne].
    - unfold l2 in Hj. rewrite list_lookup_insert_eq in Hj by (by eapply lookup_lt_Some).
      injection Hj as <-. by rewrite matches_hole in HP.
    - unfold l2 in Hj. rewrite list_lookup_insert_ne in Hj by done.
      destruct Ho as (_ & _ & Hother). by rewrite (Hother j eb y Hne Hj Hy) in HP. }
  cbn [extant_bufs]. rewrite Hnone, assert_nonnull_ok; [done|].
  unfold in_buf in Hy. lia.
Qed.

(** X21: the epoch check.  Two buffers that are ranges of addresses
    (non-null, their ends within the address space), disjoint from each
    other and from every registered entry; the epoch counter is not 0 (the
    mark of a long-lived buffer) and does not wrap within the next two
    steps.  A buffer that is released right after its [add] raises no
    diagnostic.  When the other buffer (not long-lived) has been added in
    between, the release of the first one warns that it was not released
    immediately, unless the first one was added as long-lived. *)
Theorem release_epoch_check (st : t) (b sz fn b2 sz2 fn2 x : Z) (ll : bool) :
  0 < b -> b + (if sz =? 0 then 1 else sz) < 2 ^ ptr_bits ->
  0 < b2 -> 0 <= sz2 -> b2 + (if sz2 =? 0 then 1 else sz2) < 2 ^ ptr_bits ->
  0 < cur_epoch st -> cur_epoch st + 2 < 2 ^ 32 ->
  (forall eb z, eb ∈ extant_bufs st -> in_buf b sz z -> matches eb z = false) ->
  (forall eb z, eb ∈ extant_bufs st -> in_buf b2 sz2 z -> matches eb z = false) ->
  (forall z, in_buf b sz z -> ~ in_buf b2 sz2 z) ->
  in_buf b sz x ->
  let st1 := (add st b sz fn ll).1 in
  let st2 := (add st1 b2 sz2 fn2 false).1 in
  (find_and_remove st1 x).2 = []
  /\ (find_and_remove st2 x).2
     = (if ll then [] else ["buf not released immediately"%string]).
Proof.
  intros Hb Hend Hb2 Hsz2 Hend2 Hep Hep2 Hfree Hfree2 Hdisj Hx. cbn zeta.
  assert (Hpos2 : 0 < (if sz2 =? 0 then 1 else sz2))
    by (destruct (Z.eqb_spec sz2 0); lia).
  destruct (add_entry st b sz fn ll (conj Hb Hend) Hfree) as (i & Hi & Ho & Hrest & Hwas).
  destruct (add_slot st b sz fn ll) as [Hce _].
  set (st1 := (add st b sz fn ll).1) in *.
  set (sz1 := if sz =? 0 then 1 else sz) in *.
  assert (Hxn : x <> 0) by (unfold in_buf in Hx; lia).
  split.
  - rewrite (find_and_remove_last _ _ _ _ _ _ _ Hi Ho Hx). cbn [snd].
    rewrite assert_nonnull_ok by done. rewrite Hce. destruct ll; cbn [app].
    + done.
    + rewrite (u32_small (cur_epoch st + 1)) by lia.
      rewrite (u32_small (cur_epoch st + 1 - 1)) by lia.
      replace (cur_epoch st + 1 - 1) with (cur_epoch st) by lia.
      by rewrite Z.eqb_refl, andb_false_r.
  - assert (Hfree1 : forall eb z, eb ∈ extant_bufs st1 -> in_buf b2 sz2 z ->
                       matches eb z = false).
    { intros eb z Heb Hz. apply list_elem_of_lookup_1 in Heb as [j Hj].
      destruct (decide (j = i)) as [->|Hne].
      - rewrite Hi in Hj. injection Hj as <-. unfold matches; cbn [buf size].
        rewrite uptr_small by (unfold in_buf in Hx; fold sz1 in Hx; lia).
        apply not_true_is_false. rewrite andb_true_iff, Z.leb_le, Z.ltb_lt.
        intros Hin. apply (Hdisj z); [exact Hin|exact Hz].
      - rewrite Hrest in Hj by done.
        apply Hfree2; [by eapply list_elem_of_lookup_2|done]. }
    destruct (add_entry st1 b2 sz2 fn2 false (conj Hb2 Hend2) Hfree1)
      as (i2 & Hi2 & Ho2 & Hrest2 & Hwas2).
    destruct (add_slot st1 b2 sz2 fn2 false) as [Hce2 _].
    set (st2 := (add st1 b2 sz2 fn2 false).1) in *.
    assert (Hne : i <> i2).
    { intros ->. specialize (Hwas2 _ Hi). unfold is_hole in Hwas2; cbn in Hwas2.
      apply Z.eqb_eq in Hwas2. lia. }
    assert (Hi' : extant_bufs st2 !! i
                  = Some (mkExtantBuf b sz1 fn 1 (if ll then 0 else cur_epoch st)))
      by (by rewrite Hrest2).
    assert (Ho' : owns st2 i b sz1 1).
    { split; [lia|]. split; [eauto|]. intros j eb z Hj Hlj Hz.
      destruct (decide (j = i2)) as [->|Hne2].
      - rewrite Hi2 in Hlj. injection Hlj as <-. unfold matches; cbn [buf size].
        rewrite uptr_small by lia.
        apply not_true_is_false. rewrite andb_true_iff, Z.leb_le, Z.ltb_lt.
        intros Hin. apply (Hdisj z); [exact Hz|exact Hin].
      - rewrite Hrest2 in Hlj by done. destruct Ho as (_ & _ & Hother).
        by apply (Hother j eb z). }
    rewrite (find_and_remove_last _ _ _ _ _ _ _ Hi' Ho' Hx). cbn [snd].
    rewrite assert_nonnull_ok by done. rewrite Hce2, Hce. destruct ll; cbn [app].
    + done.
    + rewrite (u32_small (cur_epoch st + 1)) by lia.
      rewrite (u32_small (cur_epoch st + 1 + 1)) by lia.
      rewrite (u32_small (cur_epoch st + 1 + 1 - 1)) by lia.
      destruct (Z.eqb_spec (cur_epoch st) 0); [lia|].
      destruct (Z.eqb_spec (cur_epoch st) (cur_epoch st + 1 + 1 - 1)); [lia|]. done.
Qed.

(** ** The leak report *)

Lemma filter_insert_hole (l : list ExtantBuf) (i : nat) (h h' : ExtantBuf) :
  l !! i = Some h -> is_hole h = true -> is_hole h' = true ->
  List.filter (fun eb => negb (is_hole eb)) (<[i := h']> l)
  = List.filter (fun eb => negb (is_hole eb)) l.
Proof.
  revert i. induction l as [|a l IH]; intros i Hi Hh Hh'; [done|].
  destruct i as [|i].
  - cbn in Hi. injection Hi as ->. cbn. by rewrite Hh, Hh'.
  - cbn in Hi. change (<[S i := h']> (a :: l)) with (a :: <[i := h']> l).
    cbn [List.filter]. by rewrite (IH i).
Qed.

Lemma filter_app_hole (l : list ExtantBuf) (h : ExtantBuf) :
  is_hole h = true ->
  List.filter (fun eb => negb (is_hole eb)) (l ++ [h])
  = List.filter (fun eb => negb (is_hole eb)) l.
Proof.
  intros Hh. rewrite List.filter_app. cbn. rewrite Hh. cbn. apply app_nil_r.
Qed.

Lemma display_after_add (st : t) (b sz fn : Z) (ll : bool) :
  addressable b sz ->
  (forall eb z, eb ∈ extant_bufs st -> in_buf b sz z -> matches eb z = false) ->
  (b, (if sz =? 0 then 1 else sz), fn) ∈ display_all_remaining (add st b sz fn ll).1.
Proof.
  intros Hb Hfree.
  destruct (add_entry st b sz fn ll Hb Hfree) as (i & Hi & Ho & Hrest & Hwas).
  unfold display_all_remaining.
  apply (list_elem_of_fmap_2 (fun eb => (buf eb, size eb, atom_fn eb)) _
           (mkExtantBuf b (if sz =? 0 then 1 else sz) fn 1
              (if ll then 0 else cur_epoch st))).
  apply list_elem_of_In, List.filter_In. split.
  - apply list_elem_of_In. by eapply list_elem_of_lookup_2.
  - unfold is_hole; cbn. destruct Hb. destruct (Z.eqb_spec b 0); [lia|done].
Qed.

(** The last release of a buffer that has just been added. *)
Lemma release_after_add (st : t) (b sz fn x : Z) (ll : bool) :
  addressable b sz ->
  (forall eb z, eb ∈ extant_bufs st -> in_buf b sz z -> matches eb z = false) ->
  in_buf b sz x ->
  exists st2 ws,
    find_and_remove (add st b sz fn ll).1 x
    = (Some (true, b, if sz =? 0 then 1 else sz, fn), st2, ws)
    /\ display_all_remaining st2 = display_all_remaining st.
Proof.
  intros Hb Hfree Hx.
  destruct (add_entry st b sz fn ll Hb Hfree) as (i & Hi & Ho & Hrest & Hwas).
  rewrite (find_and_remove_last _ _ _ _ _ _ _ Hi Ho Hx).
  eexists _, _. split; [reflexivity|].
  unfold display_all_remaining. cbn [extant_bufs]. f_equal.
  destruct (add_slot st b sz fn ll) as [_ [(i0 & h & Hi0 & Hh & Hl)|[Hall Hl]]].
  - assert (i0 = i).
    { destruct (decide (i0 = i)) as [|Hne0]; [done|]. exfalso.
      rewrite Hl, list_lookup_insert_ne in Hi by done.
      specialize (Hwas _ Hi). unfold is_hole in Hwas; cbn in Hwas.
      apply Z.eqb_eq in Hwas. destruct Hb. lia. }
    subst i0. rewrite Hl, list_insert_insert_eq.
    by apply (filter_insert_hole _ _ h).
  - assert (i = length (extant_bufs st)).
    { rewrite Hl in Hi.
      destruct (decide (i < length (extant_bufs st))%nat) as [Hlt|Hge'].
      - exfalso. rewrite lookup_app_l in Hi by done.
        specialize (Hwas _ Hi). unfold is_hole in Hwas; cbn in Hwas.
        apply Z.eqb_eq in Hwas. destruct Hb. lia.
      - apply lookup_lt_Some in Hi. rewrite length_app in Hi. cbn in Hi. lia. }
    subst i. rewrite Hl.
    replace (length (extant_bufs st)) with (length (extant_bufs st) + 0)%nat by lia.
    rewrite insert_app_r. cbn. by apply filter_app_hole.
Qed.

(** X22: the leak report lists a buffer from its [add] until its last
    release, when the buffer is a range of addresses (non-null, its end
    within the address space) that overlaps no entry already registered:
    after [add] the report has a line for it, and once it is fully released
    the report is what it was before the [add]. *)
Theorem leak_report_round_trip (st : t) (b sz fn x : Z) (ll : bool) :
  0 < b -> b + (if sz =? 0 then 1 else sz) < 2 ^ ptr_bits ->
  (forall eb z, eb ∈ extant_bufs st -> in_buf b sz z -> matches eb z = false) ->
  in_buf b sz x ->
  let st1 := (add st b sz fn ll).1 in
  let st2 := (find_and_remove st1 x).1.2 in
  (b, (if sz =? 0 then 1 else sz), fn) ∈ display_all_remaining st1
  /\ display_all_remaining st2 = display_all_remaining st.
Proof.
  intros Hb Hend Hfree Hx. cbn zeta. split; [by apply display_after_add|].
  destruct (release_after_add st b sz fn x ll (conj Hb Hend) Hfree Hx)
    as (st2 & ws & -> & Hd).
  done.
Qed.

End Width.

(** ** On a build with 8-byte pointers *)

#[local] Existing Instance lp64.

Lemma owner_after_add_witness :
  get_owner_filename (add init 4096 100 7 false).1 4150 = Some 7.
Proof.
  apply owner_after_add.
  - lia.
  - reflexivity.
  - intros eb y Heb. by apply elem_of_nil in Heb.
  - unfold in_buf; cbn; lia.
Defined.

Lemma replace_owner_renames_witness :
  get_owner_filename (replace_owner (add init 4096 100 7 false).1 4100 9).1 4150 = Some 9.
Proof.
  refine (proj1 (proj2 (replace_owner_renames init 4096 100 7 9 4100 4150 false _ _ _ _ _))).
  - lia.
  - reflexivity.
  - intros eb z Heb. by apply elem_of_nil in Heb.
  - unfold in_buf; cbn; lia.
  - unfold in_buf; cbn; lia.
Defined.

Lemma double_free_detected_witness :
  let st2 := (find_and_remove (add init 4096 100 7 false).1 4096).1.2 in
  find_and_remove st2 4096
  = (None, st2, ["buf is not on extant list! double free?"%string]).
Proof.
  intros st2.
  refine (proj2 (double_free_detected init 4096 100 7 4096 4096 false _ _ _ _ _)).
  - lia.
  - reflexivity.
  - intros eb z Heb. by apply elem_of_nil in Heb.
  - unfold in_buf; cbn; lia.
  - unfold in_buf; cbn; lia.
Defined.

Lemma release_epoch_check_witness :
  (find_and_remove (add (add init 4096 100 7 false).1 8192 100 8 false).1 4096).2
  = ["buf not released immediately"%string].
Proof.
  refine (proj2 (release_epoch_check init 4096 100 7 8192 100 8 4096 false
                   _ _ _ _ _ _ _ _ _ _ _)).
  - lia.
  - reflexivity.
  - lia.
  - lia.
  - reflexivity.
  - cbn. lia.
  - cbn. lia.
  - intros eb z Heb. by apply elem_of_nil in Heb.
  - intros eb z Heb. by apply elem_of_nil in Heb.
  - unfold in_buf; cbn. lia.
  - unfold in_buf; cbn; lia.
Defined.

Lemma leak_report_round_trip_witness :
  (4096, 100, 7) ∈ display_all_remaining (add init 4096 100 7 false).1.
Proof.
  refine (proj1 (leak_report_round_trip init 4096 100 7 4100 false _ _ _ _)).
  - lia.
  - reflexivity.
  - intros eb z Heb. by apply elem_of_nil in Heb.
  - unfold in_buf; cbn; lia.
Defined.

End ExtantBufMgrLife.

(* ===================================================================== *)
(** * The doubly linked freelist under insertion and removal *)
(* ===================================================================== *)

Module FreelistLinksLife.
Import FreelistLinks FreelistLinksFacts.

Lemma length_insert_after_walk (h : Z) (l : list Z) :
  length (CacheAllocator.insert_after_walk h l) = S (length l).
Proof. by rewrite insert_after_walk_perm. Qed.

Lemma length_unlink (h : Z) (l : list Z) :
  (length (CacheAllocator.unlink h l) <= length l)%nat.
Proof. apply sublist_length, unlink_sublist. Qed.

(** X23: the pointer assignments of [freelist_add] on a well-formed,
    address-ordered list.  Afterwards the list is again well formed (every
    node points back to the one before it, the last [next] is null), the walk
    from the sentinel visits the old nodes and the new header, and the
    addresses still decrease along the walk. *)
Theorem freelist_add_links_ordered (m : gmap Z Links) (sentinel header : Z)
    (l : list Z) (fuel : nat) :
  chain m sentinel l -> StronglySorted Z.gt l ->
  header <> 0 -> header ∉ sentinel :: l -> (length l < fuel)%nat ->
  let m' := freelist_add_links fuel m sentinel header in
  let l' := walk (S fuel) m' (next (get m' sentinel)) in
  chain m' sentinel l'
  /\ StronglySorted Z.gt l'
  /\ forall x, x ∈ l' <-> x = header \/ x ∈ l.
Proof.
  intros Hch Hs Hh Hnotin Hfuel. cbn zeta.
  pose proof (freelist_add_chain m sentinel header l fuel Hch Hh Hnotin Hfuel) as Hch'.
  rewrite (walk_chain _ _ _ _ Hch') by (rewrite length_insert_after_walk; lia).
  split; [done|]. split.
  - apply CacheAllocatorInv.insert_after_walk_sorted; [done|].
    apply not_elem_of_cons in Hnotin. tauto.
  - intros x. apply CacheAllocatorInv.elem_of_insert_after_walk.
Qed.

Lemma freelist_add_links_ordered_witness :
  let m : gmap Z Links :=
    <[100 := mkLinks 0 8192]> (<[8192 := mkLinks 100 4096]>
      (<[4096 := mkLinks 8192 0]> ∅)) in
  StronglySorted Z.gt
    (walk 4 (freelist_add_links 3 m 100 6000)
       (next (get (freelist_add_links 3 m 100 6000) 100))).
Proof.
  intros m.
  assert (Hch : chain m 100 [8192; 4096]).
  { split; [done|]. split; [compute_done|].
    vm_compute. repeat split; try done; intros [=]. }
  refine (proj1 (proj2
    (freelist_add_links_ordered m 100 6000 [8192; 4096] 3 Hch _ _ _ _))).
  - repeat constructor; lia.
  - done.
  - compute_done.
  - cbn. lia.
Defined.

(** X24: the pointer assignments of [freelist_remove] take exactly the
    given node out of a well-formed list: the list stays well formed, the
    walk from the sentinel visits the other nodes in the order they had, and
    the two links of the removed header hold the byte 0xEE in each of their
    bytes, whatever the width of a pointer. *)
Theorem freelist_remove_links_unlinks {pw : PtrWidth} (m : gmap Z Links)
    (sentinel header : Z) (l : list Z) (fuel : nat) :
  chain m sentinel l -> header ∈ l -> (length l < fuel)%nat ->
  let m' := freelist_remove_links m header in
  let l' := walk fuel m' (next (get m' sentinel)) in
  chain m' sentinel l'
  /\ l' = CacheAllocator.unlink header l
  /\ (header ∉ l')
  /\ (forall x, x ∈ l -> x <> header -> x ∈ l')
  /\ get m' header = mkLinks wiped_ptr wiped_ptr
  /\ (forall k, 0 <= k < ptr_bytes -> (wiped_ptr / 256 ^ k) mod 256 = 238).
Proof.
  intros Hch Hin Hfuel. cbn zeta.
  pose proof (freelist_remove_chain m sentinel header l Hch Hin) as Hch'.
  pose proof (length_unlink header l) as Hlen.
  rewrite (walk_chain _ _ _ _ Hch') by lia.
  destruct Hch as (_ & Hnd & _). apply NoDup_cons in Hnd as [_ Hnd].
  split; [done|]. split; [done|]. split; [|split].
  - clear Hin Hfuel Hch' Hlen.
    induction Hnd as [|a l Ha Hnd IH]; cbn; [apply not_elem_of_nil|].
    destruct (Z.eqb_spec a header) as [->|Hne]; [done|].
    apply not_elem_of_cons. split; [congruence|done].
  - intros x Hx Hne. by apply CacheAllocatorInv.elem_of_unlink_ne.
  - split; [unfold freelist_remove_links; apply get_insert_eq|].
    intros k Hk. unfold wiped_ptr, ptr_bits.
    destruct ptr_bytes_4_8 as [Hw|Hw]; rewrite Hw in *.
    + assert (k = 0 \/ k = 1 \/ k = 2 \/ k = 3) as [->|[->|[->| ->]]] by lia;
        reflexivity.
    + assert (k = 0 \/ k = 1 \/ k = 2 \/ k = 3 \/ k = 4 \/ k = 5 \/ k = 6 \/ k = 7)
        as [->|[->|[->|[->|[->|[->|[->| ->]]]]]]] by lia; reflexivity.
Qed.

#[local] Existing Instance lp64.

Lemma freelist_remove_links_unlinks_witness :
  let m : gmap Z Links :=
    <[100 := mkLinks 0 8192]> (<[8192 := mkLinks 100 4096]>
      (<[4096 := mkLinks 8192 0]> ∅)) in
  walk 3 (freelist_remove_links m 8192)
       (next (get (freelist_remove_links m 8192) 100))
  = CacheAllocator.unlink 8192 [8192; 4096].
Proof.
  intros m.
  assert (Hch : chain m 100 [8192; 4096]).
  { split; [done|]. split; [compute_done|].
    vm_compute. repeat split; try done; intros [=]. }
  refine (proj1 (proj2 (freelist_remove_links_unlinks m 100 8192 [8192; 4096] 3 Hch _ _))).
  - compute_done.
  - cbn. lia.
Defined.

End FreelistLinksLife.

(* ===================================================================== *)
(** * The entry points together *)
(* ===================================================================== *)

Module FileCacheRuns.
Import FileCache.

Lemma freed_app (l1 l2 : list event) : freed (l1 ++ l2) = freed l1 ++ freed l2.
Proof.
  induction l1 as [|e l1 IH]; [done|]. destruct e; cbn; by rewrite ?IH.
Qed.

Lemma freed_map_EWarn (ws : list string) : freed (map EWarn ws) = [].
Proof. induction ws as [|w ws IH]; [done|]. exact IH. Qed.

Section Facade.

Context {C : Type} `{Cache C} {pw : PtrWidth}.

(** The loop of [file_buf_alloc] touches the allocator and the cache only. *)
Lemma file_buf_alloc_loop_rest (fuel : nat) (uninit : Z * Z) (size : Z) :
  forall (st : t C) (attempts b : Z) (st' : t C) (evs : list event),
    file_buf_alloc_loop fuel uninit size st attempts = (Some (b, st'), evs) ->
    extant_bufs st' = extant_bufs st /\ block_mgr st' = block_mgr st.
Proof.
  induction fuel as [|fuel IH]; intros st attempts b st' evs; [done|].
  cbn [file_buf_alloc_loop].
  destruct (CacheAllocator.alloc (cache_allocator st) size) as [[b0 a0]|].
  { by intros [= _ <- _]. }
  destruct (cache_remove_least_valuable (file_cache st)) as [removed c].
  destruct (match removed with Some x => x | None => uninit end) as [d ds].
  destruct (CacheAllocator.free (cache_allocator st) d ds) as [a ws].
  destruct (file_buf_alloc_loop fuel uninit size
              (with_cache (with_allocator st a) c) (u32 (attempts + 1)))
    as [r evs'] eqn:Hrec.
  intros [= -> _]. by apply IH in Hrec.
Qed.

(** What [file_buf_alloc] leaves when it returns: the loop's state with
    the new buffer registered. *)
Lemma file_buf_alloc_Some (fuel : nat) (uninit : Z * Z) (st : t C)
    (size fn b : Z) (ll : bool) (st1 : t C) (evs : list event) :
  file_buf_alloc fuel uninit st size fn ll = (Some (b, st1), evs) ->
  extant_bufs st1 = (ExtantBufMgr.add (extant_bufs st) b size fn ll).1
  /\ block_mgr st1 = block_mgr st.
Proof.
  unfold file_buf_alloc.
  destruct (file_buf_alloc_loop fuel uninit size st 0) as [[[b0 stl]|] evsl] eqn:Hl;
    [|done].
  destruct (file_buf_alloc_loop_rest _ _ _ _ _ _ _ _ Hl) as [He Hb].
  destruct (ExtantBufMgr.add (extant_bufs stl) b0 size fn ll) as [e ws] eqn:Ha.
  intros [= <- <- _]. cbn [with_extant extant_bufs block_mgr].
  rewrite <- He, Ha. done.
Qed.

(** X25: [file_buf_alloc] serves a request of at most the arena's size
    with a buffer that is a range of addresses (non-null, the end of its
    quantum-rounded range below the top of the address space) and that no
    entry of the registry overlapped before the call.  When that buffer is released again, while the cache has no entry
    under its owner, it goes back to the allocator: the one call of the
    allocator's [free] names the buffer with the size asked for (1 for a
    request of 0 bytes, as [alloc] counted it), and the leak report of the
    registry is what it was before the allocation. *)
Theorem buffer_alloc_free (fuel : nat) (uninit : Z * Z) (st : t C)
    (size fn b : Z) (ll : bool) (st1 : t C) (evs : list event) :
  file_buf_alloc fuel uninit st size fn ll = (Some (b, st1), evs) ->
  0 <= size <= CacheAllocator.MAX_CACHE_SIZE ->
  0 < b -> b + CacheAllocator.size_pa_of size < 2 ^ ptr_bits ->
  not_extant st b size ->
  cache_peek (file_cache st1) fn = None ->
  let size1 := if size =? 0 then 1 else size in
  let out := file_buf_free st1 b in
  out.1.1 = ERR_OK
  /\ freed out.2 = [(b, size1)]
  /\ cache_allocator out.1.2
     = (CacheAllocator.free (cache_allocator st1) b size1).1
  /\ ExtantBufMgr.display_all_remaining (extant_bufs out.1.2)
     = ExtantBufMgr.display_all_remaining (extant_bufs st).
Proof.
  intros Halloc Hsize Hb Hend' Hnot Hpeek. cbn zeta.
  assert (Hend : b + (if size =? 0 then 1 else size) < 2 ^ ptr_bits).
  { pose proof (CacheAllocatorSafety.round_up_ge (if size =? 0 then 1 else size)).
    unfold CacheAllocator.size_pa_of in Hend'. lia. }
  destruct (file_buf_alloc_Some _ _ _ _ _ _ _ _ _ Halloc) as [He _].
  assert (Hin : ExtantBufMgr.in_buf b size b).
  { unfold ExtantBufMgr.in_buf. destruct (Z.eqb_spec size 0); lia. }
  destruct (ExtantBufMgrLife.release_after_add (extant_bufs st) b size fn b ll
              (conj Hb Hend) Hnot Hin)
    as (e2 & ws & Hrel & Hdisp).
  unfold file_buf_free. destruct (Z.eqb_spec b 0); [lia|].
  rewrite He, Hrel. cbn [with_extant file_cache cache_allocator].
  rewrite Hpeek.
  destruct (CacheAllocator.free (cache_allocator st1) b (if size =? 0 then 1 else size))
    as [a ws'] eqn:Hfree.
  cbn [fst snd with_allocator cache_allocator extant_bufs].
  split; [done|]. split; [|split; [done|done]].
  rewrite !freed_app, !freed_map_EWarn. done.
Qed.

(** X26: a buffer handed out by [file_cache_retrieve] stays the cache's.
    The cached buffer is a range of addresses (above the null pointer, its
    end within the address space) that no entry of the registry overlapped
    before the retrieve.  When the caller releases it, nothing is passed to
    the allocator's [free]: the allocator and the cache are as they were
    before the retrieve, and the registry lists what it listed before. *)
Theorem retrieved_buffer_not_freed (st : t C) (fn b sz : Z) (st1 : t C)
    (evs : list event) :
  file_cache_retrieve st fn = (Some (b, sz), st1, evs) ->
  0 <= sz -> 0 < b -> b + (if sz =? 0 then 1 else sz) < 2 ^ ptr_bits ->
  not_extant st b sz ->
  let out := file_buf_free st1 b in
  out.1.1 = ERR_OK
  /\ freed out.2 = []
  /\ cache_allocator out.1.2 = cache_allocator st
  /\ file_cache out.1.2 = file_cache st
  /\ ExtantBufMgr.display_all_remaining (extant_bufs out.1.2)
     = ExtantBufMgr.display_all_remaining (extant_bufs st).
Proof.
  intros Hret Hsz Hpos Hend Hnot. cbn zeta.
  unfold file_cache_retrieve, file_cache_find in Hret.
  destruct (cache_peek (file_cache st) fn) as [[b0 sz0]|] eqn:Hpeek; [|done].
  destruct (Z.eqb_spec b0 0) as [|Hb]; [done|].
  destruct (ExtantBufMgr.add_ref (extant_bufs st) b0 sz0 fn) as [e ws] eqn:Href.
  injection Hret as -> -> <- _.
  assert (Hinb : ExtantBufMgr.in_buf b sz b).
  { unfold ExtantBufMgr.in_buf. destruct (Z.eqb_spec sz 0); lia. }
  assert (He : e = (ExtantBufMgr.add (extant_bufs st) b sz fn false).1).
  { unfold ExtantBufMgr.add_ref in Href.
    assert (Hnone : list_find (fun eb => ExtantBufMgr.matches eb b)
                      (ExtantBufMgr.extant_bufs (extant_bufs st)) = None).
    { apply list_find_None, Forall_forall. intros eb Heb HP.
      apply Is_true_true in HP. by rewrite (Hnot eb b Heb Hinb) in HP. }
    rewrite Hnone in Href. by rewrite Href. }
  destruct (ExtantBufMgrLife.release_after_add (extant_bufs st) b sz fn b false
              (conj Hpos Hend) Hnot Hinb)
    as (e2 & ws2 & Hrel & Hdisp).
  unfold file_buf_free. destruct (Z.eqb_spec b 0); [done|].
  cbn [with_extant extant_bufs]. rewrite He, Hrel.
  cbn [with_extant file_cache cache_allocator]. rewrite Hpeek.
  cbn [fst snd extant_bufs cache_allocator file_cache].
  split; [done|]. split; [|done].
  rewrite !freed_app, !freed_map_EWarn. rewrite Z.eqb_refl. done.
Qed.

(** X27: [file_buf_set_real_fn] decides which cache entry protects a
    buffer.  [file_buf_alloc] serves a request of at most the arena's size
    with a buffer that is a range of addresses (non-null, the end of its
    quantum-rounded range below the top of the address space) and that no
    entry of the registry overlapped before the call.  After that buffer has been given the owner [fn'] (no
    diagnostic), [file_buf_free] looks the cache up under [fn'],
    whatever owner the buffer was allocated with: the buffer goes back to the
    allocator when the cache has no entry under [fn'], and is kept when it
    has one. *)
Theorem renamed_buffer_release (fuel : nat) (uninit : Z * Z) (st : t C)
    (size fn fn' b : Z) (ll : bool) (st1 : t C) (evs : list event) :
  file_buf_alloc fuel uninit st size fn ll = (Some (b, st1), evs) ->
  0 <= size <= CacheAllocator.MAX_CACHE_SIZE ->
  0 < b -> b + CacheAllocator.size_pa_of size < 2 ^ ptr_bits ->
  not_extant st b size ->
  let size1 := if size =? 0 then 1 else size in
  let st2 := (file_buf_set_real_fn st1 b fn').1.2 in
  let out := file_buf_free st2 b in
  file_buf_set_real_fn st1 b fn' = (ERR_OK, st2, [])
  /\ ERetrieve fn' ∈ out.2
  /\ (cache_peek (file_cache st1) fn' = None -> freed out.2 = [(b, size1)])
  /\ (cache_peek (file_cache st1) fn' <> None ->
        freed out.2 = [] /\ cache_allocator out.1.2 = cache_allocator st1).
Proof.
  intros Halloc Hsize Hb Hend' Hnot. cbn zeta.
  assert (Hend : b + (if size =? 0 then 1 else size) < 2 ^ ptr_bits).
  { pose proof (CacheAllocatorSafety.round_up_ge (if size =? 0 then 1 else size)).
    unfold CacheAllocator.size_pa_of in Hend'. lia. }
  destruct (file_buf_alloc_Some _ _ _ _ _ _ _ _ _ Halloc) as [He _].
  assert (Hin : ExtantBufMgr.in_buf b size b).
  { unfold ExtantBufMgr.in_buf. destruct (Z.eqb_spec size 0); lia. }
  destruct (ExtantBufMgrLife.rename_then_release (extant_bufs st) b size fn fn' b b ll
              (conj Hb Hend) Hnot Hin Hin) as (e2 & e3 & ws & Hren & Hrel).
  unfold file_buf_set_real_fn. rewrite He, Hren. cbn [fst snd map].
  split; [done|].
  unfold file_buf_free. destruct (Z.eqb_spec b 0); [lia|].
  cbn [with_extant extant_bufs]. rewrite Hrel.
  cbn [with_extant file_cache cache_allocator].
  destruct (cache_peek (file_cache st1) fn') as [[bc szc]|] eqn:Hpeek.
  - cbn [fst snd cache_allocator]. split; [|split; [done|]].
    + rewrite !elem_of_app. right. right. left. by left.
    + intros _. split; [|done].
      rewrite !freed_app, !freed_map_EWarn. by destruct (bc =? b).
  - destruct (CacheAllocator.free (cache_allocator st1) b (if size =? 0 then 1 else size))
      as [a ws'] eqn:Hfree.
    cbn [fst snd]. split; [|split; [|done]].
    + rewrite !elem_of_app. right. right. left. left. by left.
    + intros _. rewrite !freed_app, !freed_map_EWarn. done.
Qed.

(** X28: eviction makes room.  When the allocator cannot serve a request
    and the cache evicts a buffer that is out and whose rounded size is at
    least the rounded request, the loop of [file_buf_alloc] frees that
    buffer and succeeds on its second pass. *)
Theorem evict_then_alloc (base : Z) (uninit : Z * Z) (st : t C)
    (size d ds : Z) (c' : C) (live1 live2 : list CacheAllocator.region) :
  CacheAllocator.reachable base (cache_allocator st)
    (live1 ++ (d, CacheAllocator.round_up ds CacheAllocator.BUF_ALIGN) :: live2) ->
  0 <= size ->
  CacheAllocator.alloc (cache_allocator st) size = None ->
  cache_remove_least_valuable (file_cache st) = (Some (d, ds), c') ->
  CacheAllocator.size_pa_of size
    <= CacheAllocator.round_up ds CacheAllocator.BUF_ALIGN ->
  exists b st',
    (file_buf_alloc_loop 2 uninit size st 0).1 = Some (b, st')
    /\ file_cache st' = c'
    /\ freed (file_buf_alloc_loop 2 uninit size st 0).2 = [(d, ds)].
Proof.
  intros Hr Hsize Hnone Hevict Hle.
  destruct (CacheAllocatorSafety.alloc_after_free base _ _ _ d ds size Hr Hsize Hle)
    as [[b a'] Hsome].
  cbn [file_buf_alloc_loop]. rewrite Hnone, Hevict.
  destruct (CacheAllocator.free (cache_allocator st) d ds) as [a ws] eqn:Hfree.
  cbn [fst] in Hsome. cbn [with_cache with_allocator cache_allocator].
  rewrite Hsome. cbn [fst snd].
  exists b, (with_allocator (with_cache (with_allocator st a) c') a').
  split; [done|]. split; [done|].
  change (freed ([EAlloc size; ERemoveLeastValuable] ++ [] ++ [EFree d ds]
                   ++ map EWarn ws ++ [] ++ [EAlloc size]) = [(d, ds)]).
  rewrite !freed_app, !freed_map_EWarn. done.
Qed.

(** X29: [file_cache_invalidate] of a file.  Afterwards no block of the
    file is found in the block cache, whatever its number.  The registry is
    not consulted: it is as it was.  When the cache has no entry for the
    file the allocator is as it was; when it has one, that buffer and size
    are what is passed to the allocator's [free]. *)
Theorem invalidate_drops_file (st : t C) (fn n : Z) :
  let out := file_cache_invalidate st fn in
  out.1.1 = ERR_OK
  /\ (block_cache_find out.1.2 (BlockMgr.mkBlockId fn n)).1.1 = None
  /\ extant_bufs out.1.2 = extant_bufs st
  /\ match (cache_retrieve (file_cache st) fn).1 with
     | Some (b, sz) =>
         freed out.2 = [(b, sz)]
         /\ cache_allocator out.1.2
            = (CacheAllocator.free (cache_allocator st) b sz).1
     | None => freed out.2 = [] /\ cache_allocator out.1.2 = cache_allocator st
     end.
Proof.
  cbn zeta. unfold file_cache_invalidate.
  pose proof (BlockMgrLife.find_after_invalidate (block_mgr st) fn n) as Hfind.
  destruct (BlockMgr.invalidate (block_mgr st) fn) as [bm ws]. cbn [fst] in Hfind.
  cbn [with_block_mgr file_cache cache_allocator].
  assert (Hblock : forall s : t C, block_mgr s = bm ->
            (block_cache_find s (BlockMgr.mkBlockId fn n)).1.1 = None).
  { intros s Hs. unfold block_cache_find. rewrite Hs.
    destruct (BlockMgr.find bm (BlockMgr.mkBlockId fn n)) as [[r bm'] ws'].
    cbn [fst] in *. by injection Hfind as -> _. }
  destruct (cache_retrieve (file_cache st) fn) as [[[b sz]|] c]; cbn [fst snd].
  - destruct (CacheAllocator.free (cache_allocator st) b sz) as [a ws'] eqn:Hfree.
    cbn [fst snd]. split; [done|]. split; [by apply Hblock|]. split; [done|].
    split; [|done]. rewrite !freed_app, !freed_map_EWarn. done.
  - split; [done|]. split; [by apply Hblock|]. split; [done|].
    split; [|done]. rewrite !freed_app, !freed_map_EWarn. done.
Qed.

(** X30: [file_cache_flush] returns when every eviction makes the cache
    smaller.  With [measure] a size of the cache that each successful
    [remove_least_valuable] lowers, the loop ends within [measure + 1]
    passes, on the cache's answer that nothing is left; at most [measure]
    buffers have been passed to the allocator's [free], and the registry and
    the block ring are as they were. *)
Theorem flush_returns (measure : C -> nat) (st : t C) :
  (forall c x c', cache_remove_least_valuable c = (Some x, c') ->
     (measure c' < measure c)%nat) ->
  exists st' evs,
    file_cache_flush (S (measure (file_cache st))) st = (Some st', evs)
    /\ (length (freed evs) <= measure (file_cache st))%nat
    /\ (exists c, cache_remove_least_valuable c = (None, file_cache st'))
    /\ extant_bufs st' = extant_bufs st /\ block_mgr st' = block_mgr st.
Proof.
  intros Hm.
  assert (Hgen : forall (n : nat) (s : t C), (measure (file_cache s) < n)%nat ->
    exists st' evs,
      file_cache_flush n s = (Some st', evs)
      /\ (length (freed evs) <= measure (file_cache s))%nat
      /\ (exists c, cache_remove_least_valuable c = (None, file_cache st'))
      /\ extant_bufs st' = extant_bufs s /\ block_mgr st' = block_mgr s).
  { induction n as [|n IH]; intros s Hn; [lia|].
    cbn [file_cache_flush].
    destruct (cache_remove_least_valuable (file_cache s)) as [[[d ds]|] c] eqn:Hev.
    - destruct (CacheAllocator.free (cache_allocator s) d ds) as [a ws].
      pose proof (Hm _ _ _ Hev) as Hlt.
      destruct (IH (with_cache (with_allocator s a) c)) as (st' & evs & -> & Hlen & Hc & He & Hb).
      { cbn [with_cache file_cache]. lia. }
      exists st', ([ERemoveLeastValuable; EFree d ds] ++ map EWarn ws ++ evs).
      split; [done|]. split; [|done].
      rewrite !freed_app, freed_map_EWarn. cbn [freed app length].
      cbn [with_cache file_cache] in Hlen. lia.
    - exists (with_cache s c), [ERemoveLeastValuable].
      split; [done|]. split; [cbn; lia|]. split; [|done].
      exists (file_cache s). exact Hev. }
  apply Hgen. lia.
Qed.

End Facade.

(** ** On the map cache, on a build with 8-byte pointers *)

#[local] Existing Instance lp64.

Lemma least_valuable_in (m : gmap Z (Z * Z * Z)) (k : Z) (e : Z * Z * Z) :
  least_valuable m = Some (k, e) -> m !! k = Some e.
Proof.
  unfold least_valuable. intros Hl. apply elem_of_map_to_list.
  revert Hl. generalize (map_to_list m). intros l. revert k e.
  induction l as [|kv l IH]; intros k e; cbn; [done|].
  destruct (foldr _ None l) as [kv'|] eqn:Hf.
  - destruct (kv.2.2 <=? kv'.2.2).
    + intros [= ->]. by left.
    + intros [= ->]. right. by apply IH.
  - intros [= ->]. by left.
Qed.

Lemma map_cache_evict_shrinks (c : gmap Z (Z * Z * Z)) (x : Z * Z)
    (c' : gmap Z (Z * Z * Z)) :
  cache_remove_least_valuable c = (Some x, c') -> (size c' < size c)%nat.
Proof.
  cbn. destruct (least_valuable c) as [[k e]|] eqn:Hl; [|done].
  intros [= _ <-]. apply least_valuable_in in Hl.
  rewrite map_size_delete_Some by done.
  pose proof (map_size_ne_0_lookup_2 c k ltac:(done)). lia.
Qed.

Lemma buffer_alloc_free_witness :
  freed (file_buf_free
           (match file_buf_alloc 1 (0, 0) start 100 7 false with
            | (Some (_, st1), _) => st1
            | _ => start
            end) 1048576).2
  = [(1048576, 100)].
Proof.
  refine (proj1 (proj2
    (buffer_alloc_free 1 (0, 0) start 100 7 1048576 false _ _ _ _ _ _ _ _))).
  - vm_compute. reflexivity.
  - vm_compute. split; discriminate.
  - lia.
  - reflexivity.
  - intros eb x Heb. by apply elem_of_nil in Heb.
  - vm_compute. reflexivity.
Defined.

Lemma renamed_buffer_release_witness :
  let st1 := match file_buf_alloc 1 (0, 0) start 100 7 false with
             | (Some (_, st1), _) => st1
             | _ => start
             end in
  ERetrieve 9 ∈ (file_buf_free (file_buf_set_real_fn st1 1048576 9).1.2 1048576).2.
Proof.
  intros st1.
  refine (proj1 (proj2
    (renamed_buffer_release 1 (0, 0) start 100 7 9 1048576 false st1 _ _ _ _ _ _))).
  - vm_compute. reflexivity.
  - vm_compute. split; discriminate.
  - lia.
  - reflexivity.
  - intros eb x Heb. by apply elem_of_nil in Heb.
Defined.

(** The cache holds the buffer of the first load of [loaded_twice] under
    owner 7; the registry still lists both buffers. *)
Lemma retrieved_buffer_not_freed_witness :
  let st := (file_buf_free (file_buf_free loaded_twice 1048576).1.2 1052672).1.2 in
  freed (file_buf_free (file_cache_retrieve st 7).1.2 1048576).2 = [].
Proof.
  intros st.
  refine (proj1 (proj2
    (retrieved_buffer_not_freed st 7 1048576 100 _ _ _ _ _ _ _))).
  - vm_compute. reflexivity.
  - lia.
  - lia.
  - reflexivity.
  - intros eb x Heb Hx. vm_compute in Heb.
    repeat (apply elem_of_cons in Heb as [->|Heb]; [apply ExtantBufMgrLife.matches_hole|]).
    by apply elem_of_nil in Heb.
Defined.

Lemma arena_full_reachable :
  CacheAllocator.reachable 1048576 CacheAllocator.arena_full
    ([(1064960, 67092480); (1060864, 4096); (1056768, 4096)]
       ++ (1048576, CacheAllocator.round_up 8192 CacheAllocator.BUF_ALIGN) :: []).
Proof.
  apply (CacheAllocator.reach_alloc 1048576 CacheAllocator.two_quanta_two _ 67092480
           1064960 CacheAllocator.arena_full);
    [|lia|vm_compute; reflexivity].
  apply (CacheAllocator.reach_alloc 1048576 CacheAllocator.two_quanta_one _ 4096
           1060864 CacheAllocator.two_quanta_two);
    [|lia|vm_compute; reflexivity].
  apply (CacheAllocator.reach_alloc 1048576 CacheAllocator.two_quanta _ 4096
           1056768 CacheAllocator.two_quanta_one);
    [|lia|vm_compute; reflexivity].
  apply (CacheAllocator.reach_alloc 1048576 (CacheAllocator.init 1048576) [] 8192
           1048576 CacheAllocator.two_quanta);
    [apply CacheAllocator.reach_init|lia|vm_compute; reflexivity].
Qed.

(** The arena is full and the cache holds the buffer of two quanta at its
    base: a request for two quanta is served after one eviction. *)
Lemma evict_then_alloc_witness :
  let st : t (gmap Z (Z * Z * Z)) :=
    mkState CacheAllocator.arena_full ExtantBufMgr.init
            {[ 7 := (1048576, 8192, 1) ]} (BlockMgr.init 4096 65536) in
  exists b st',
    (file_buf_alloc_loop 2 (0, 0) 8192 st 0).1 = Some (b, st')
    /\ file_cache st' = ∅
    /\ freed (file_buf_alloc_loop 2 (0, 0) 8192 st 0).2 = [(1048576, 8192)].
Proof.
  intros st.
  apply (evict_then_alloc 1048576 (0, 0) st 8192 1048576 8192 ∅
           [(1064960, 67092480); (1060864, 4096); (1056768, 4096)] []).
  - apply arena_full_reachable.
  - lia.
  - vm_compute. reflexivity.
  - vm_compute. reflexivity.
  - vm_compute. discriminate.
Defined.

Lemma flush_returns_witness :
  exists st' evs,
    file_cache_flush (S (size (file_cache loaded_twice))) loaded_twice = (Some st', evs)
    /\ (length (freed evs) <= size (file_cache loaded_twice))%nat
    /\ (exists c, cache_remove_least_valuable c = (None, file_cache st'))
    /\ extant_bufs st' = extant_bufs loaded_twice
    /\ block_mgr st' = block_mgr loaded_twice.
Proof. apply (flush_returns size loaded_twice), map_cache_evict_shrinks. Defined.

End FileCacheRuns.
